(** * CleanSweep: the scan and clean engines of [pc-cleaner/app.py]

    A shallow embedding of the path catalog, the size accountant, forced
    removal, the scan engine and the streaming clean engine, over a tree
    model of the file system, together with the properties the
    specification states about them. *)

From Stdlib Require Import List String Ascii Bool NArith Lia.
From Stdlib Require Import Permutation Sorted DecimalString.
Import ListNotations.

Local Set Warnings "-register-all".
Local Open Scope N_scope.
Local Open Scope string_scope.
Local Open Scope list_scope.

(** ** The file system

    A path is its list of components.  An entry of a directory is a name
    and a tree.  The model keeps what the program can observe:

    - a regular file has a size ([st_size]) and attributes;
    - a directory has attributes and an ordered list of entries (the order
      in which the operating system lists them);
    - a symbolic link has the tree it resolves to, [None] when it dangles
      (the target of a link lies outside the tree that holds the link, so
      no link is cyclic);
    - anything else (socket, fifo, device) is [Special].

    Attributes decide which system calls are refused:
    - [readable]: a directory can be opened for listing;
    - [writable]: the write bit ([stat.S_IWRITE]); an entry whose write
      bit is clear is read-only and cannot be unlinked or removed (the
      Windows rule; [os.chmod(path, stat.S_IWRITE)] sets the bit);
    - [locked]: the operating system refuses [chmod], [unlink] and [rmdir]
      on the entry whatever its mode (in use by another process, owned by
      another user, immutable).

    Looking up the metadata of an existing name never fails in this model:
    only listing, [chmod], [unlink] and [rmdir] can be refused. *)

Definition path := list string.

Record attrs := mkAttrs {
  readable : bool;
  writable : bool;
  locked : bool
}.

Inductive node :=
| File (a : attrs) (st_size : N)
| Dir (a : attrs) (entries : list (string * node))
| Symlink (target : option node)
| Special (a : attrs).

Definition rw : attrs := mkAttrs true true false.

(** Exceptions raised by the calls the program makes. *)
Inductive exn :=
| PermissionError
| FileNotFoundError
| NotADirectoryError
| IsADirectoryError
| OSError
| TimeoutExpired.

(** [isinstance(e, OSError)]: what [except (PermissionError, OSError)]
    catches.  [TimeoutExpired] (of [subprocess.run]) is not one. *)
Definition is_oserror (e : exn) : bool :=
  match e with TimeoutExpired => false | _ => true end.

Inductive result (A : Type) :=
| Ok (a : A)
| Raise (e : exn).
Arguments Ok {A} a.
Arguments Raise {A} e.

(** *** Resolution *)

(** [follow n]: the tree [n] denotes once symbolic links are resolved. *)
Fixpoint follow (n : node) : option node :=
  match n with
  | Symlink None => None
  | Symlink (Some t) => follow t
  | _ => Some n
  end.

Fixpoint assoc (name : string) (es : list (string * node)) : option node :=
  match es with
  | [] => None
  | (k, m) :: es' => if String.eqb k name then Some m else assoc name es'
  end.

(** [lstat fs p]: the entry named by [p], links in the directory part of
    [p] resolved, the last component not. *)
Fixpoint lstat (fs : node) (p : path) : option node :=
  match p with
  | [] => Some fs
  | c :: p' =>
      match follow fs with
      | Some (Dir _ es) =>
          match assoc c es with
          | Some m => lstat m p'
          | None => None
          end
      | _ => None
      end
  end.

(** [stat fs p]: as [lstat], the last component resolved too. *)
Definition stat (fs : node) (p : path) : option node :=
  match lstat fs p with
  | Some n => follow n
  | None => None
  end.

(** [pathlib.Path.exists], [is_dir], [is_file] follow links;
    [is_symlink] does not. *)
Definition exists_ (fs : node) (p : path) : bool :=
  match stat fs p with Some _ => true | None => false end.

Definition is_dir (fs : node) (p : path) : bool :=
  match stat fs p with Some (Dir _ _) => true | _ => false end.

Definition is_file (fs : node) (p : path) : bool :=
  match stat fs p with Some (File _ _) => true | _ => false end.

Definition is_symlink (fs : node) (p : path) : bool :=
  match lstat fs p with Some (Symlink _) => true | _ => false end.

(** [DirEntry.is_file(follow_symlinks=False)] and
    [DirEntry.is_dir(follow_symlinks=False)]. *)
Definition entry_is_file (e : node) : bool :=
  match e with File _ _ => true | _ => false end.

Definition entry_is_dir (e : node) : bool :=
  match e with Dir _ _ => true | _ => false end.

(** [os.stat(path).st_size] of the tree a path resolves to.  The program
    reads it for entries that are not directories only. *)
Definition size_of (n : node) : N :=
  match n with File _ s => s | _ => 0 end.

(** [os.scandir(path)] on the tree found at [path]: the argument is
    resolved, a directory that cannot be opened raises. *)
Definition scandir (n : node) : result (list (string * node)) :=
  match follow n with
  | None => Raise FileNotFoundError
  | Some (Dir a es) => if readable a then Ok es else Raise PermissionError
  | Some _ => Raise NotADirectoryError
  end.

(** ** Size accountant *)

(** [get_dir_size(path)], on the tree found at [path].  The recursion is
    on the tree; [get_dir_size_scandir] below gives the equation in the
    shape of the source, over [scandir]. *)
Fixpoint get_dir_size (n : node) : N :=
  match n with
  | Dir a es =>
      if readable a then
        (fix loop (es : list (string * node)) (total : N) : N :=
           match es with
           | [] => total
           | (_, entry) :: es' =>
               loop es'
                    (match entry with
                     | File _ s => total + s
                     | Dir _ _ => total + get_dir_size entry
                     | _ => total
                     end)
           end) es 0
      else 0
  | Symlink (Some t) => get_dir_size t
  | _ => 0
  end.

(** One turn of the loop of [get_dir_size]. *)
Definition add_entry (total : N) (e : string * node) : N :=
  if entry_is_file (snd e) then total + size_of (snd e)
  else if entry_is_dir (snd e) then total + get_dir_size (snd e)
  else total.

Definition get_dir_size_path (fs : node) (p : path) : N :=
  match lstat fs p with
  | Some n => get_dir_size n
  | None => 0
  end.

(** *** What the specification says the size is

    The regular files reachable from a directory without following
    symbolic links, through directories that can be listed, each with its
    path relative to the directory and its size. *)
Inductive reaches : node -> path -> N -> Prop :=
| reaches_file a es name fa s :
    readable a = true ->
    In (name, File fa s) es ->
    reaches (Dir a es) [name] s
| reaches_dir a es name a' es' q s :
    readable a = true ->
    In (name, Dir a' es') es ->
    reaches (Dir a' es') q s ->
    reaches (Dir a es) (name :: q) s.

Fixpoint reachable_files (n : node) : list (path * N) :=
  match n with
  | Dir a es =>
      if readable a then
        flat_map (fun e : string * node =>
                    match snd e with
                    | File _ s => [([fst e], s)]
                    | Dir _ _ =>
                        map (fun qs : path * N => (fst e :: fst qs, snd qs))
                            (reachable_files (snd e))
                    | _ => []
                    end) es
      else []
  | _ => []
  end.

Definition total_size (l : list (path * N)) : N :=
  fold_right (fun qs acc => snd qs + acc) 0 l.

(** ** State and exceptions

    A computation over a state [S] ends with a value or with a raised
    exception; what it did to the state before raising stays done. *)
Definition M (S A : Type) : Type := S -> S * result A.

Definition ret {S A} (a : A) : M S A := fun s => (s, Ok a).

Definition raise {S A} (e : exn) : M S A := fun s => (s, Raise e).

Definition bind {S A B} (m : M S A) (k : A -> M S B) : M S B :=
  fun s =>
    match m s with
    | (s', Ok a) => k a s'
    | (s', Raise e) => (s', Raise e)
    end.

Notation "x <- m ;; k" := (bind m (fun x => k))
  (at level 61, m at next level, right associativity).
Notation "m ;; k" := (bind m (fun _ => k))
  (at level 61, right associativity).

(** [try: m except Exception: h]. *)
Definition try_except {S A} (m : M S A) (h : M S A) : M S A :=
  fun s =>
    match m s with
    | (s', Raise _) => h s'
    | r => r
    end.

(** [try: m except (PermissionError, OSError): h]. *)
Definition try_except_oserror {S A} (m : M S A) (h : M S A) : M S A :=
  fun s =>
    match m s with
    | (s', Raise e) => if is_oserror e then h s' else (s', Raise e)
    | r => r
    end.

(** [for x in l: body(x)]. *)
Fixpoint for_each {S A} (l : list A) (body : A -> M S unit) : M S unit :=
  match l with
  | [] => ret tt
  | x :: l' => body x ;; for_each l' body
  end.

(** The local variables [L] of a function next to the file system. *)
Definition on_fs {L A} (m : M node A) : M (node * L) A :=
  fun s =>
    match m (fst s) with
    | (fs', r) => ((fs', snd s), r)
    end.

Definition locals {L} : M (node * L) L := fun s => (s, Ok (snd s)).

Definition assign {L} (f : L -> L) : M (node * L) unit :=
  fun s => ((fst s, f (snd s)), Ok tt).

Definition with_locals {L A} (init : L) (m : M (node * L) A) : M node A :=
  fun fs =>
    match m (fs, init) with
    | (s', r) => (fst s', r)
    end.

(** ** System calls that change the file system *)

(** What a call does to the entry it is applied to: it raises and leaves
    the entry as it is, or it succeeds and leaves the entry changed
    ([Some]) or gone ([None]). *)
Definition op := node -> result (option node).

Definition set_writable (a : attrs) : attrs :=
  mkAttrs (readable a) true (locked a).

(** [os.chmod(path, stat.S_IWRITE)]; the path is resolved. *)
Fixpoint chmod_write (n : node) : result node :=
  match n with
  | File a s =>
      if locked a then Raise PermissionError else Ok (File (set_writable a) s)
  | Dir a es =>
      if locked a then Raise PermissionError else Ok (Dir (set_writable a) es)
  | Special a =>
      if locked a then Raise PermissionError else Ok (Special (set_writable a))
  | Symlink None => Raise FileNotFoundError
  | Symlink (Some t) =>
      match chmod_write t with
      | Ok t' => Ok (Symlink (Some t'))
      | Raise e => Raise e
      end
  end.

Definition chmod : op :=
  fun n => match chmod_write n with Ok n' => Ok (Some n') | Raise e => Raise e end.

Definition removable (a : attrs) : bool := writable a && negb (locked a).

(** [os.remove(path)], [os.unlink(path)]: a link is removed itself. *)
Definition unlink : op :=
  fun n =>
    match n with
    | Symlink _ => Ok None
    | File a _ | Special a =>
        if removable a then Ok None else Raise PermissionError
    | Dir _ _ => Raise IsADirectoryError
    end.

(** [os.rmdir(path)]. *)
Definition rmdir : op :=
  fun n =>
    match n with
    | Dir a [] => if removable a then Ok None else Raise PermissionError
    | Dir _ (_ :: _) => Raise OSError
    | _ => Raise NotADirectoryError
    end.

(** [os.scandir(path)] as a call whose listing is dropped. *)
Definition scandir_op : op :=
  fun n => match scandir n with Ok _ => Ok (Some n) | Raise e => Raise e end.

(** [os.path.islink(path)]: raises nothing. *)
Definition islink_op : op := fun n => Ok (Some n).

(** *** Applying a call at a path *)

Fixpoint on_target (g : node -> node) (n : node) : node :=
  match n with
  | Symlink (Some t) => Symlink (Some (on_target g t))
  | Symlink None => n
  | _ => g n
  end.

Fixpoint set_entry (name : string) (f : node -> option node)
         (es : list (string * node)) : list (string * node) :=
  match es with
  | [] => []
  | (k, m) :: es' =>
      if String.eqb k name then
        match f m with
        | Some m' => (k, m') :: es'
        | None => es'
        end
      else (k, m) :: set_entry name f es'
  end.

Definition in_dir (g : list (string * node) -> list (string * node))
           (d : node) : node :=
  match d with
  | Dir a es => Dir a (g es)
  | _ => d
  end.

(** [update p f n]: the tree [n] with [f] applied to the entry [p] names
    ([None]: the entry is gone). *)
Fixpoint update (p : path) (f : node -> option node) (n : node)
  : option node :=
  match p with
  | [] => f n
  | c :: p' => Some (on_target (in_dir (set_entry c (update p' f))) n)
  end.

(** The root directory itself cannot be unlinked. *)
Definition update_fs (p : path) (f : node -> option node) (fs : node)
  : node :=
  match update p f fs with
  | Some fs' => fs'
  | None => fs
  end.

Definition run_op (f : op) (p : path) : M node unit :=
  fun fs =>
    match lstat fs p with
    | None => (fs, Raise FileNotFoundError)
    | Some n =>
        match f n with
        | Raise e => (fs, Raise e)
        | Ok r => (update_fs p (fun _ => r) fs, Ok tt)
        end
    end.

Definition os_chmod_S_IWRITE (p : path) : M node unit := run_op chmod p.
Definition os_remove (p : path) : M node unit := run_op unlink p.

Definition query {A} (f : node -> A) : M node A := fun fs => (fs, Ok (f fs)).

Definition Path_exists (p : path) : M node bool := query (fun fs => exists_ fs p).
Definition Path_is_dir (p : path) : M node bool := query (fun fs => is_dir fs p).
Definition Path_is_file (p : path) : M node bool := query (fun fs => is_file fs p).
Definition Path_is_symlink (p : path) : M node bool :=
  query (fun fs => is_symlink fs p).

(** [Path(p).stat().st_size]. *)
Definition stat_st_size (p : path) : M node N :=
  fun fs =>
    match stat fs p with
    | Some n => (fs, Ok (size_of n))
    | None => (fs, Raise FileNotFoundError)
    end.

(** [Path(p).iterdir()]: the names are read in one listing. *)
Definition iterdir (p : path) : M node (list path) :=
  fun fs =>
    match lstat fs p with
    | None => (fs, Raise FileNotFoundError)
    | Some n =>
        match scandir n with
        | Ok es => (fs, Ok (map (fun e => p ++ [fst e]) es))
        | Raise e => (fs, Raise e)
        end
    end.

(** ** Forced removal *)

(** The handler [force_remove] gives to [shutil.rmtree]:
    [[
    def onerror(func, path, exc_info):
        try:
            os.chmod(path, stat.S_IWRITE)
            func(path)
        except Exception:
            pass
    ]]
    It returns normally whatever happens. *)
Definition onerror (func : op) (n : node) : option node :=
  match chmod n with
  | Raise _ => Some n
  | Ok None => None
  | Ok (Some n1) =>
      match func n1 with
      | Raise _ => Some n1
      | Ok r => r
      end
  end.

(** [try: func(path) except OSError: onerror(func, path, ...)]. *)
Definition attempt (h : op -> node -> option node) (func : op) (n : node)
  : option node :=
  match func n with
  | Ok r => r
  | Raise _ => h func n
  end.

(** [shutil.rmtree(path, onerror=h)] for a handler [h] that returns
    normally (the portable implementation of the standard library):
    list the directory, remove each entry (a directory that is not a link
    recursively, anything else with [os.unlink]), then [os.rmdir] the
    directory.  Every failure is passed to the handler and the work goes
    on; when the listing fails nothing below is removed.  What is left of
    the tree is returned, [None] when all of it is gone. *)
Fixpoint rmtree (h : op -> node -> option node) (n : node) : option node :=
  match n with
  | Dir a es =>
      if readable a then
        attempt h rmdir
          (Dir a
             ((fix each (es : list (string * node)) : list (string * node) :=
                 match es with
                 | [] => []
                 | (name, e) :: es' =>
                     match
                       match e with
                       | Dir _ _ => rmtree h e
                       | _ => attempt h unlink e
                       end
                     with
                     | Some e' => (name, e') :: each es'
                     | None => each es'
                     end
                 end) es))
      else
        match h scandir_op n with
        | Some n1 => attempt h rmdir n1
        | None => None
        end
  | Symlink _ => h islink_op n
  | _ =>
      match h scandir_op n with
      | Some n1 => attempt h rmdir n1
      | None => None
      end
  end.

Definition shutil_rmtree (p : path) (h : op -> node -> option node)
  : M node unit :=
  fun fs =>
    match lstat fs p with
    | None => (fs, Ok tt)
    | Some n => (update_fs p (fun _ => rmtree h n) fs, Ok tt)
    end.

(** [force_remove(path)]. *)
Definition force_remove (p : path) : M node bool :=
  try_except
    (f <- Path_is_file p ;;
     l <- Path_is_symlink p ;;
     if f || l then
       os_chmod_S_IWRITE p ;;
       os_remove p ;;
       ret true
     else
       d <- Path_is_dir p ;;
       if d then
         shutil_rmtree p onerror ;;
         ret true
       else ret false)
    (ret false).

(** ** Cleaning the contents of a directory *)

Record counters := mkCounters {
  freed : N;
  errors : N;
  items_removed : N
}.

Definition removed (item_size : N) (c : counters) : counters :=
  mkCounters (freed c + item_size) (errors c) (items_removed c + 1).

Definition failed (c : counters) : counters :=
  mkCounters (freed c) (errors c + 1) (items_removed c).

Definition get_dir_size_of (p : path) : M node N :=
  query (fun fs => get_dir_size_path fs p).

(** One turn of the loop of [clean_directory_contents]. *)
Definition clean_item (delete_subfolders : bool) (item : path)
  : M (node * counters) unit :=
  try_except_oserror
    (d <- on_fs (Path_is_dir item) ;;
     item_size <- on_fs (if d then get_dir_size_of item else stat_st_size item) ;;
     d' <- on_fs (Path_is_dir item) ;;
     if d' && delete_subfolders then
       ok <- on_fs (force_remove item) ;;
       if ok then assign (removed item_size) else assign failed
     else
       f <- on_fs (Path_is_file item) ;;
       if f then
         ok <- on_fs (force_remove item) ;;
         if ok then assign (removed item_size) else assign failed
       else ret tt)
    (assign failed).

(** [clean_directory_contents(directory, delete_subfolders)]; the result
    is the tuple [(freed, errors, items_removed)]. *)
Definition clean_directory_contents (directory : path)
           (delete_subfolders : bool) : M node (N * N * N) :=
  with_locals (mkCounters 0 0 0)
    (ex <- on_fs (Path_exists directory) ;;
     if negb ex then ret (0, 0, 0)
     else
       try_except_oserror
         (items <- on_fs (iterdir directory) ;;
          for_each items (clean_item delete_subfolders))
         (assign failed) ;;
       c <- locals ;;
       ret (freed c, errors c, items_removed c)).

(** ** Path catalog *)

(** What [get_clean_targets] reads from the process: the home directory
    and four environment variables, each already split into components. *)
Record environ := mkEnviron {
  home : path;
  WINDIR : option path;
  LOCALAPPDATA : option path;
  APPDATA : option path;
  TEMP : option path
}.

(** [os.environ.get(name, default)]. *)
Definition environ_get (v : option path) (default : path) : path :=
  match v with
  | Some p => p
  | None => default
  end.

(** [base.glob("*/cache2")]: the entries of [base] that are directories
    and hold something named [cache2], in listing order; a [base] that
    cannot be listed gives nothing. *)
Definition glob_cache2 (fs : node) (base : path) : list path :=
  match lstat fs base with
  | Some n =>
      match scandir n with
      | Ok es =>
          map (fun e => base ++ [fst e; "cache2"])
              (filter (fun e => is_dir fs (base ++ [fst e])
                                && exists_ fs (base ++ [fst e; "cache2"])) es)
      | Raise _ => []
      end
  | None => []
  end.

(** [list(base.glob("*/cache2")) if base.exists() else []]. *)
Definition firefox_profiles (fs : node) (base : path) : list path :=
  if exists_ fs base then glob_cache2 fs base else [].

(** An insertion-ordered [dict] from category name to candidate paths. *)
Definition catalog := list (string * list path).

(** [get_clean_targets()]; [OS] is [platform.system()]. *)
Definition get_clean_targets (OS : string) (env : environ) (fs : node)
  : catalog :=
  let home := home env in
  if String.eqb OS "Windows" then
    let windir := environ_get (WINDIR env) ["C:"; "Windows"] in
    let localappdata :=
      environ_get (LOCALAPPDATA env) (home ++ ["AppData"; "Local"]) in
    let appdata :=
      environ_get (APPDATA env) (home ++ ["AppData"; "Roaming"]) in
    let temp := environ_get (TEMP env) (localappdata ++ ["Temp"]) in
    [ ("User Temp Files", [temp]);
      ("Windows Temp", [windir ++ ["Temp"]]);
      ("Prefetch", [windir ++ ["Prefetch"]]);
      ("Recent Files", [appdata ++ ["Microsoft"; "Windows"; "Recent"]]);
      ("Thumbnail Cache",
       [localappdata ++ ["Microsoft"; "Windows"; "Explorer"]]);
      ("Windows Error Reports",
       [localappdata ++ ["Microsoft"; "Windows"; "WER"];
        ["C:"; "ProgramData"; "Microsoft"; "Windows"; "WER"]]);
      ("Windows Update Cache",
       [["C:"; "Windows"; "SoftwareDistribution"; "Download"]]);
      ("DirectX Shader Cache", [localappdata ++ ["D3DSCache"]]);
      ("Chrome Cache",
       [localappdata ++ ["Google"; "Chrome"; "User Data"; "Default"; "Cache"];
        localappdata
          ++ ["Google"; "Chrome"; "User Data"; "Default"; "Code Cache"];
        localappdata
          ++ ["Google"; "Chrome"; "User Data"; "Default"; "GPUCache"]]);
      ("Edge Cache",
       [localappdata
          ++ ["Microsoft"; "Edge"; "User Data"; "Default"; "Cache"];
        localappdata
          ++ ["Microsoft"; "Edge"; "User Data"; "Default"; "Code Cache"]]);
      ("Firefox Cache",
       firefox_profiles fs (localappdata ++ ["Mozilla"; "Firefox"; "Profiles"]));
      ("Teams Cache", [localappdata ++ ["Microsoft"; "Teams"; "Cache"]]);
      ("Discord Cache",
       [appdata ++ ["discord"; "Cache"]; appdata ++ ["discord"; "Code Cache"]]);
      ("Spotify Cache", [localappdata ++ ["Spotify"; "Data"]]);
      ("Log Files", [windir ++ ["Logs"]]);
      ("Crash Dumps", [localappdata ++ ["CrashDumps"]]);
      ("Font Cache", [localappdata ++ ["FontCache"]]) ]
  else if String.eqb OS "Darwin" then
    [ ("User Cache", [home ++ ["Library"; "Caches"]]);
      ("System Log Files", [["var"; "log"]]);
      ("User Log Files", [home ++ ["Library"; "Logs"]]);
      ("Temporary Files", [["tmp"]; ["var"; "tmp"]]);
      ("Chrome Cache", [home ++ ["Library"; "Caches"; "Google"; "Chrome"]]);
      ("Firefox Cache", [home ++ ["Library"; "Caches"; "Firefox"]]);
      ("Safari Cache", [home ++ ["Library"; "Caches"; "com.apple.Safari"]]);
      ("Trash", [home ++ [".Trash"]]);
      ("iOS Device Backups",
       [home ++ ["Library"; "Application Support"; "MobileSync"; "Backup"]]);
      ("Xcode Cache",
       [home ++ ["Library"; "Developer"; "Xcode"; "DerivedData"]]);
      ("pip Cache", [home ++ ["Library"; "Caches"; "pip"]]) ]
  else
    [ ("User Cache", [home ++ [".cache"]]);
      ("Temporary Files", [["tmp"]; ["var"; "tmp"]]);
      ("System Logs", [["var"; "log"]]);
      ("User Logs", [home ++ [".local"; "share"; "recently-used.xbel"]]);
      ("Thumbnail Cache", [home ++ [".cache"; "thumbnails"]]);
      ("Chrome Cache",
       [home ++ [".cache"; "google-chrome"];
        home ++ [".config"; "google-chrome"; "Default"; "Cache"]]);
      ("Firefox Cache", firefox_profiles fs (home ++ [".mozilla"; "firefox"]));
      ("pip Cache", [home ++ [".cache"; "pip"]]);
      ("apt Cache", [["var"; "cache"; "apt"; "archives"]]);
      ("npm Cache", [home ++ [".npm"; "_cacache"]]);
      ("Trash", [home ++ [".local"; "share"; "Trash"]]);
      ("Coredumps",
       [["var"; "crash"]; home ++ [".local"; "share"; "apport"; "coredump"]]) ].

(** The platforms the specification names. *)
Definition supported (OS : string) : Prop :=
  OS = "Windows" \/ OS = "Darwin" \/ OS = "Linux".

(** ** Scan engine *)

(** An entry of the report: the fields [category], [size] and [paths]
    ([size_human] is a rendering of [size] through floating point and is
    left out). *)
Record scan_result := mkScanResult {
  category : string;
  size : N;
  paths : list path
}.

Record report := mkReport {
  total : N;
  categories : list scan_result;
  os : string
}.

(** [l.sort(key=key, reverse=True)]: the stable sort by descending key;
    elements with equal keys keep their order. *)
Fixpoint insert_desc {A} (key : A -> N) (x : A) (l : list A) : list A :=
  match l with
  | [] => [x]
  | y :: l' => if N.leb (key y) (key x) then x :: l else y :: insert_desc key x l'
  end.

Fixpoint sort_reverse {A} (key : A -> N) (l : list A) : list A :=
  match l with
  | [] => []
  | x :: l' => insert_desc key x (sort_reverse key l')
  end.

(** The inner loop of [scan]: [(cat_size, exists)] after the paths. *)
Definition scan_paths (fs : node) (ps : list path) : N * bool :=
  fold_left
    (fun (st : N * bool) (p : path) =>
       if exists_ fs p
       then (fst st + get_dir_size_path fs p, true)
       else st)
    ps (0, false).

(** The outer loop of [scan]: [(results, total_size)] after the
    categories. *)
Definition scan_loop (fs : node) (targets : catalog)
  : list scan_result * N :=
  fold_left
    (fun (st : list scan_result * N) (cp : string * list path) =>
       let cs := scan_paths fs (snd cp) in
       if snd cs
       then (fst st ++ [mkScanResult (fst cp) (fst cs) (snd cp)],
             snd st + fst cs)
       else st)
    targets ([], 0).

(** [scan()] once the catalog is built. *)
Definition scan_from (OS : string) (targets : catalog) (fs : node) : report :=
  let st := scan_loop fs targets in
  mkReport (snd st) (sort_reverse size (fst st)) OS.

Definition scan (OS : string) (env : environ) (fs : node) : report :=
  scan_from OS (get_clean_targets OS env fs) fs.

(** ** Clean engine *)

(** What the generator yields ([freed_human] left out, as [size_human]
    above).  [CleanEvent c freed items errors]. *)
Inductive event :=
| CleanEvent (category : string) (freed items errors : N)
| DoneEvent (total_freed errors : N).

(** The local variables of [generate], and the events yielded so far. *)
Record gen_locals := mkGen {
  total_freed : N;
  total_errors : N;
  cat_freed : N;
  cat_errors : N;
  cat_items : N;
  output : list event
}.

Definition yield (ev : event) : M (node * gen_locals) unit :=
  assign (fun l => mkGen (total_freed l) (total_errors l) (cat_freed l)
                         (cat_errors l) (cat_items l) (output l ++ [ev])).

(** [freed = 0; errors = 0; items = 0]. *)
Definition reset_category (l : gen_locals) : gen_locals :=
  mkGen (total_freed l) (total_errors l) 0 0 0 (output l).

(** [freed += f; errors += e; items += i]. *)
Definition add_directory (fei : N * N * N) (l : gen_locals) : gen_locals :=
  mkGen (total_freed l) (total_errors l)
        (cat_freed l + fst (fst fei)) (cat_errors l + snd (fst fei))
        (cat_items l + snd fei) (output l).

(** [total_freed += freed; total_errors += errors]. *)
Definition add_category (l : gen_locals) : gen_locals :=
  mkGen (total_freed l + cat_freed l) (total_errors l + cat_errors l)
        (cat_freed l) (cat_errors l) (cat_items l) (output l).

(** One turn of the loop over the candidate paths of a category. *)
Definition clean_candidate (p : path) : M (node * gen_locals) unit :=
  ex <- on_fs (Path_exists p) ;;
  if ex then
    fei <- on_fs (clean_directory_contents p true) ;;
    assign (add_directory fei)
  else ret tt.

(** One turn of the loop over the catalog ([time.sleep] changes
    nothing). *)
Definition clean_category (cp : string * list path)
  : M (node * gen_locals) unit :=
  assign reset_category ;;
  for_each (snd cp) clean_candidate ;;
  assign add_category ;;
  l <- locals ;;
  yield (CleanEvent (fst cp) (cat_freed l) (cat_items l) (cat_errors l)).

(** How the maintenance commands of the host end: each returns or raises
    ([subprocess.run] raises when the command is missing or times out,
    the shell call when the library is missing). *)
Record host := mkHost {
  ipconfig_flushdns : result unit;
  SHEmptyRecycleBinW : result unit;
  dscacheutil_flushcache : result unit;
  sudo_sync : result unit
}.

Definition call {S} (r : result unit) : M S unit := fun s => (s, r).

(** [try: command; yield event  except Exception: pass]. *)
Definition maintenance (r : result unit) (name : string)
  : M (node * gen_locals) unit :=
  try_except (call r ;; yield (CleanEvent name 0 1 0)) (ret tt).

(** The extra cleanup of each platform. *)
Definition maintenance_phase (OS : string) (h : host)
  : M (node * gen_locals) unit :=
  if String.eqb OS "Windows" then
    maintenance (ipconfig_flushdns h) "DNS Cache" ;;
    maintenance (SHEmptyRecycleBinW h) "Recycle Bin"
  else if String.eqb OS "Darwin" then
    maintenance (dscacheutil_flushcache h) "DNS Cache"
  else if String.eqb OS "Linux" then
    maintenance (sudo_sync h) "Sync Disk Buffers"
  else ret tt.

(** The body of [generate] once the catalog is built. *)
Definition generate_from (OS : string) (h : host) (targets : catalog)
  : M (node * gen_locals) unit :=
  for_each targets clean_category ;;
  maintenance_phase OS h ;;
  l <- locals ;;
  yield (DoneEvent (total_freed l) (total_errors l)).

Definition gen_init : gen_locals := mkGen 0 0 0 0 0 [].

(** Running a generator to its end, for a consumer that reads every
    event: the file system it leaves, the events it yielded, and whether
    it returned or raised. *)
Definition run_generator (g : M (node * gen_locals) unit) (fs : node)
  : node * list event * result unit :=
  match g (fs, gen_init) with
  | (s, r) => (fst s, output (snd s), r)
  end.

(** [generate()] of [clean]. *)
Definition generate (OS : string) (env : environ) (h : host) (fs : node)
  : node * list event * result unit :=
  run_generator (generate_from OS h (get_clean_targets OS env fs)) fs.

(** ** Sample file systems *)

Definition three_files : node :=
  Dir rw [("a", File rw 100); ("b", File rw 200); ("c", File rw 300)].

Definition unreadable : attrs := mkAttrs false true false.

(** ** Induction on trees *)

Fixpoint node_induction (P : node -> Prop)
         (HF : forall a s, P (File a s))
         (HD : forall a es, Forall (fun e => P (snd e)) es -> P (Dir a es))
         (HN : P (Symlink None))
         (HL : forall t, P t -> P (Symlink (Some t)))
         (HS : forall a, P (Special a))
         (n : node) {struct n} : P n :=
  match n with
  | File a s => HF a s
  | Dir a es =>
      HD a es
         ((fix all (es : list (string * node))
             : Forall (fun e => P (snd e)) es :=
             match es with
             | [] => Forall_nil _
             | e :: es' =>
                 Forall_cons e (node_induction P HF HD HN HL HS (snd e))
                             (all es')
             end) es)
  | Symlink None => HN
  | Symlink (Some t) => HL t (node_induction P HF HD HN HL HS t)
  | Special a => HS a
  end.

(** ** What the specification says the report is

    A category is reported when one of its candidate paths exists, with
    the sizes of its existing paths added up; the reported categories in
    catalog order are [included]. *)
Definition category_size (fs : node) (ps : list path) : N :=
  fold_right
    (fun p acc => if exists_ fs p then get_dir_size_path fs p + acc else acc)
    0 ps.

Definition has_existing_path (fs : node) (ps : list path) : bool :=
  existsb (exists_ fs) ps.

Definition included (fs : node) (targets : catalog) : list scan_result :=
  map (fun cp => mkScanResult (fst cp) (category_size fs (snd cp)) (snd cp))
      (filter (fun cp => has_existing_path fs (snd cp)) targets).

Definition sum_sizes (l : list scan_result) : N :=
  fold_right (fun r acc => size r + acc) 0 l.

Definition non_increasing (a b : scan_result) : Prop := size b <= size a.

(** ** Well-formed trees: the names of a directory are distinct *)

Fixpoint distinct (l : list string) : bool :=
  match l with
  | [] => true
  | x :: l' => negb (existsb (String.eqb x) l') && distinct l'
  end.

Fixpoint unique_names (n : node) : bool :=
  match n with
  | Dir _ es =>
      distinct (map fst es)
      && (fix all (es : list (string * node)) : bool :=
            match es with
            | [] => true
            | e :: es' => unique_names (snd e) && all es'
            end) es
  | Symlink (Some t) => unique_names t
  | _ => true
  end.

(** ** What a call on a directory may touch

    [below d fs fs']: [fs'] is [fs] after some updates of entries that
    lie strictly inside the directory [d]. *)
Inductive below (d : path) : node -> node -> Prop :=
| below_refl fs : below d fs fs
| below_step fs fs' c r f :
    below d fs fs' ->
    below d fs (update_fs (d ++ c :: r) f fs').

(** The loop of [clean_directory_contents] as a fold over the items. *)
Definition clean_step (delete_subfolders : bool) (s : node * counters)
           (item : path) : node * counters :=
  fst (clean_item delete_subfolders item s).

Definition read_only : attrs := mkAttrs true false false.

Definition fs_read_only : node :=
  Dir rw [("tmp", Dir rw [("f", File read_only 42)])].

(** ** Reading an event stream *)

Definition event_freed (ev : event) : N :=
  match ev with CleanEvent _ f _ _ => f | DoneEvent _ _ => 0 end.

Definition event_errors (ev : event) : N :=
  match ev with CleanEvent _ _ _ e => e | DoneEvent _ _ => 0 end.

Definition sum_freed (evs : list event) : N :=
  fold_right (fun ev acc => event_freed ev + acc) 0 evs.

Definition sum_errors (evs : list event) : N :=
  fold_right (fun ev acc => event_errors ev + acc) 0 evs.

(** The event of a category of the catalog. *)
Definition category_event (cp : string * list path) (ev : event) : Prop :=
  exists f i e, ev = CleanEvent (fst cp) f i e.

(** The event of a maintenance action. *)
Definition maintenance_event (ev : event) : Prop :=
  exists name,
    In name ["DNS Cache"; "Recycle Bin"; "Sync Disk Buffers"]
    /\ ev = CleanEvent name 0 1 0.

Definition event_category (ev : event) : option string :=
  match ev with CleanEvent c _ _ _ => Some c | DoneEvent _ _ => None end.

Definition is_done (ev : event) : bool :=
  match ev with DoneEvent _ _ => true | CleanEvent _ _ _ _ => false end.

(** [l] with [evs] yielded after its events. *)
Definition add_output (evs : list event) (l : gen_locals) : gen_locals :=
  mkGen (total_freed l) (total_errors l) (cat_freed l) (cat_errors l)
        (cat_items l) (output l ++ evs).

(** The scenario of the specification: [/tmp/x] holds three files of
    1500 bytes in all and a subdirectory [locked] that cannot be
    opened. *)
Definition scenario_dir (locked_dir : node) : node :=
  Dir rw [("a", File rw 500); ("b", File rw 400); ("c", File rw 600);
          ("locked", locked_dir)].

Definition scenario_fs (locked_dir : node) : node :=
  Dir rw [("tmp", Dir rw [("x", scenario_dir locked_dir)])].

Definition scenario_catalog : catalog := [("Temp", [["tmp"; "x"]])].

(** [/tmp/x] holds a directory [busy] with one file of 500 bytes that
    another process keeps open. *)
Definition in_use : attrs := mkAttrs true true true.

Definition busy_dir : node := Dir rw [("f", File in_use 500)].

Definition busy_fs : node :=
  Dir rw [("tmp", Dir rw [("x", Dir rw [("old.log", File rw 300);
                                        ("busy", busy_dir)])])].

Definition busy_fs_cleaned : node :=
  Dir rw [("tmp", Dir rw [("x", Dir rw [("busy", busy_dir)])])].

(** A host on which every maintenance command returns. *)
Definition host_ok : host := mkHost (Ok tt) (Ok tt) (Ok tt) (Ok tt).

(** ** What a pass may touch

    [touched ps fs fs']: [fs'] is [fs] after updates strictly inside
    directories named by paths of [ps]. *)
Inductive touched (ps : list path) : node -> node -> Prop :=
| touched_refl fs : touched ps fs fs
| touched_step fs fs1 fs2 p :
    In p ps -> touched ps fs fs1 -> below p fs1 fs2 -> touched ps fs fs2.

(** The candidate paths of a catalog. *)
Definition candidates (targets : catalog) : list path :=
  flat_map snd targets.

(** [p] names something strictly inside [d]. *)
Definition strictly_inside (d p : path) : Prop :=
  exists c r, p = d ++ c :: r.

(** ** Proof steps used more than once *)

Ltac distinct_names :=
  repeat (constructor;
          [let H := fresh "H" in
           cbn [In]; intro H;
           repeat (destruct H as [H|H]; [discriminate H|]); exact H|]);
  constructor.

Ltac break_match :=
  match goal with
  | |- context [match ?x with _ => _ end] => destruct x eqn:?
  end.

Ltac unfold_calls :=
  unfold force_remove, try_except, try_except_oserror, bind, ret,
    Path_exists, Path_is_file, Path_is_symlink, Path_is_dir, query,
    os_chmod_S_IWRITE, os_remove, run_op, shutil_rmtree, stat_st_size,
    iterdir, get_dir_size_of.

(** * More of the program

    ** Trees that can be removed whole *)

(** What [shutil.rmtree] does with one entry of a listed directory. *)
Definition remove_entry (h : op -> node -> option node) (e : node)
  : option node :=
  match e with
  | Dir _ _ => rmtree h e
  | _ => attempt h unlink e
  end.

(** The entries that are left of a listing. *)
Fixpoint remove_entries (h : op -> node -> option node)
         (es : list (string * node)) : list (string * node) :=
  match es with
  | [] => []
  | (name, e) :: es' =>
      match remove_entry h e with
      | Some e' => (name, e') :: remove_entries h es'
      | None => remove_entries h es'
      end
  end.

(** A tree of regular files and directories, the directories listable,
    nothing locked.  (The write bit may be clear anywhere.) *)
Fixpoint plain_removable (n : node) : bool :=
  match n with
  | File a _ => negb (locked a)
  | Dir a es =>
      readable a && negb (locked a)
      && (fix all (es : list (string * node)) : bool :=
            match es with
            | [] => true
            | e :: es' => plain_removable (snd e) && all es'
            end) es
  | _ => false
  end.

(** A download directory: an archive, a read-only note, a directory of
    two parts. *)
Definition downloads : node :=
  Dir rw [("a.zip", File rw 700);
          ("note", File read_only 5);
          ("parts", Dir read_only [("p1", File rw 10); ("p2", File rw 20)])].

Definition downloads_fs : node := Dir rw [("dl", downloads)].

(** ** Updates at chosen paths

    [updated P fs fs']: [fs'] is [fs] after updates of entries whose
    paths satisfy [P]. *)
Inductive updated (P : path -> Prop) : node -> node -> Prop :=
| updated_refl fs : updated P fs fs
| updated_step fs fs' p f :
    P p -> updated P fs fs' -> updated P fs (update_fs p f fs').

(** ** Human-readable sizes

    [format_bytes] works on a Python number: the size as an [int] at
    first, a [float] after the first division.  Every float it meets is
    [m / 2^k] for naturals [m] and [k], kept here as that pair, so the
    arithmetic is exact. *)
Inductive number :=
| PyInt (n : N)
| PyFloat (m k : N).

(** [num / den] rounded to the nearest natural, a tie to the even one
    (the rounding of IEEE 754 and of [format]). *)
Definition round_half_even (num den : N) : N :=
  let q := num / den in
  let r := num mod den in
  if N.ltb (2 * r) (den) then q
  else if N.ltb (den) (2 * r) then q + 1
  else if N.even q then q else q + 1.

(** The double nearest to the integer [n]: [n] itself up to 53 bits,
    else [n] rounded to 53 significant bits. *)
Definition to_float (n : N) : N :=
  if N.leb (N.size n) (53) then n
  else
    let e := N.size n - 53 in
    round_half_even n (2 ^ e) * 2 ^ e.

(** [x < 1024]. *)
Definition lt_1024 (x : number) : bool :=
  match x with
  | PyInt n => N.ltb n 1024
  | PyFloat m k => N.ltb m (1024 * 2 ^ k)
  end.

(** [x / 1024]: true division.  Of an [int] it is the correctly rounded
    quotient, and [OverflowError] ([None]) when that is not a finite
    double; of a float it is exact, 1024 being a power of two. *)
Definition div_1024 (x : number) : option number :=
  match x with
  | PyInt n =>
      if N.ltb (to_float n) (2 ^ 1034) then Some (PyFloat (to_float n) 10) else None
  | PyFloat m k => Some (PyFloat m (k + 10))
  end.

(** The number in hundredths, as [format(x, ".2f")] rounds it. *)
Definition hundredths (x : number) : N :=
  match x with
  | PyInt n => to_float n * 100
  | PyFloat m k => round_half_even (m * 100) (2 ^ k)
  end.

Definition decimal (n : N) : string :=
  DecimalString.NilZero.string_of_uint (N.to_uint n).

Definition two_digits (n : N) : string :=
  if N.ltb (n) (10) then String.append "0" (decimal n) else decimal n.

(** [f"{x:.2f} {unit}"], from the hundredths of [x]. *)
Definition render (h : N) (unit : string) : string :=
  String.append (decimal (h / 100))
    (String.append "."
       (String.append (two_digits (h mod 100)) (String.append " " unit))).

Definition units : list string := ["B"; "KB"; "MB"; "GB"; "TB"].

(** The loop of [format_bytes] over the units that are left. *)
Fixpoint format_loop (us : list string) (x : number) : option string :=
  match us with
  | [] => Some (render (hundredths x) "PB")
  | unit :: us' =>
      if lt_1024 x then Some (render (hundredths x) unit)
      else
        match div_1024 x with
        | Some x' => format_loop us' x'
        | None => None
        end
  end.

(** [format_bytes(size)] for a size that is a natural number. *)
Definition format_bytes (size : N) : option string :=
  format_loop units (PyInt size).

(** The unit of a size by its magnitude: the index in [units], 5 for
    PB. *)
Definition unit_index (size : N) : N :=
  if N.ltb (size) (2 ^ 10) then 0
  else if N.ltb (size) (2 ^ 20) then 1
  else if N.ltb (size) (2 ^ 30) then 2
  else if N.ltb (size) (2 ^ 40) then 3
  else if N.ltb (size) (2 ^ 50) then 4
  else 5.

Definition unit_name (j : N) : string :=
  nth (N.to_nat j) units "PB".

(** [size / 1024^j] in hundredths, rounded half to even. *)
Definition shown (size j : N) : N :=
  round_half_even (size * 100) (2 ^ (10 * j)).

(** ** The largest files of the home directory ([sysinfo])

    The block of [sysinfo] that walks the home directory with [os.walk],
    keeps the files of more than 50 MB and returns the 20 largest. *)

(** [d.startswith('.')]. *)
Definition hidden (name : string) : bool :=
  match name with
  | String c _ => Ascii.eqb c "."
  | EmptyString => false
  end.

Definition skipped_dirs : list string :=
  ["node_modules"; ".git"; "venv"; "__pycache__"; "AppData"].

(** A directory name the walk does not enter:
    [d.startswith('.') or d in [...]]. *)
Definition pruned (name : string) : bool :=
  hidden name || existsb (String.eqb name) skipped_dirs.

(** [entry.is_dir()] of [os.walk]: links are followed. *)
Definition walks_as_dir (e : node) : bool :=
  match follow e with
  | Some (Dir _ _) => true
  | _ => false
  end.

Record large_file := mkLargeFile {
  lf_path : path;
  lf_size : N;
  lf_size_human : string
}.

Definition threshold : N := 50 * 1024 * 1024.

(** The body of the loop over the files of a directory: an exception of
    [stat] or of [format_bytes] skips the file. *)
Definition file_record (p : path) (e : node) : list large_file :=
  match follow e with
  | Some t =>
      if N.ltb threshold (size_of t) then
        match format_bytes (size_of t) with
        | Some h => [mkLargeFile p (size_of t) h]
        | None => []
        end
      else []
  | None => []
  end.

(** The files the loop over [os.walk(top)] collects, on the tree found
    at [top]: those of the directory itself, then those of each
    subdirectory that is not pruned and is not a link, in listing
    order.  A directory that cannot be listed gives nothing. *)
Fixpoint walk_files (top : path) (n : node) : list large_file :=
  match n with
  | Dir a es =>
      if readable a then
        flat_map (fun e : string * node =>
                    if walks_as_dir (snd e) then []
                    else file_record (top ++ [fst e]) (snd e)) es
        ++ (fix subdirs (es : list (string * node)) : list large_file :=
              match es with
              | [] => []
              | (name, e) :: es' =>
                  match e with
                  | Dir _ _ =>
                      if pruned name then []
                      else walk_files (top ++ [name]) e
                  | _ => []
                  end ++ subdirs es'
              end) es
      else []
  | Symlink (Some t) => walk_files top t
  | _ => []
  end.

(** [sorted(all_files, key=..., reverse=True)[:20]]. *)
Definition large_files (fs : node) (home : path) : list large_file :=
  match lstat fs home with
  | Some n => firstn 20 (sort_reverse lf_size (walk_files home n))
  | None => []
  end.

(** The walk below one entry of a listed directory. *)
Definition walk_entry (top : path) (e : string * node) : list large_file :=
  match snd e with
  | Dir _ _ =>
      if pruned (fst e) then [] else walk_files (top ++ [fst e]) (snd e)
  | _ => []
  end.

(** A home directory: a film, a small note, a hidden cache with a big
    file, a project with a big build product. *)
Definition home_entries : list (string * node) :=
  [("film.mkv", File rw 734003200);
   ("note.txt", File rw 120);
   (".cache", Dir rw [("blob", File rw 900000000)]);
   ("proj", Dir rw [("out.bin", File rw 60000000);
                    ("node_modules",
                     Dir rw [("big.js", File rw 80000000)])])].

Definition home_tree : node := Dir rw home_entries.

Definition home_fs : node := Dir rw [("home", Dir rw [("u", home_tree)])].

(** The entries the walk of a directory comes to: those of the directory
    and of the directories below it that are listable, not links and not
    pruned. *)
Inductive walk_reaches : node -> path -> node -> Prop :=
| walk_reaches_entry a es name e :
    readable a = true ->
    In (name, e) es ->
    walk_reaches (Dir a es) [name] e
| walk_reaches_below a es name a' es' rel e :
    readable a = true ->
    In (name, Dir a' es') es ->
    pruned name = false ->
    walk_reaches (Dir a' es') rel e ->
    walk_reaches (Dir a es) (name :: rel) e.

Definition at_least (a b : large_file) : Prop := lf_size b <= lf_size a.

(** ** Optimizations ([optimize])

    What [optimize] asks of the operating system, and how each request
    ends on a given machine. *)
Inductive action :=
| subprocess_run (argv : list string) (timeout : N)
| subprocess_Popen (argv : list string)
| SHEmptyRecycleBin.

(** How each request ends: it returns, or it raises (command missing,
    time out, library missing). *)
Definition machine := action -> result unit.

(** The requests made so far. *)
Definition trace := list action.

Definition perform (w : machine) (a : action) : M trace unit :=
  fun t => (t ++ [a], w a).

(** An entry of [results]; [error] is the exception [str(e)] is taken
    of. *)
Record task_result := mkTaskResult {
  task : string;
  status : string;
  error : option exn
}.

(** [try: m except Exception as e: h(e)]. *)
Definition try_except_as {S A} (m : M S A) (h : exn -> M S A) : M S A :=
  fun s =>
    match m s with
    | (s', Raise e) => h e s'
    | r => r
    end.

Definition lift_state {S L A} (m : M S A) : M (S * L) A :=
  fun s =>
    match m (fst s) with
    | (s', r) => ((s', snd s), r)
    end.

(** [results.append(r)]. *)
Definition results_append (r : task_result)
  : M (trace * list task_result) unit :=
  fun s => ((fst s, snd s ++ [r]), Ok tt).

(** One [try] block of [optimize]: the requests in order, then the
    entry with status [ok]; on an exception the entry "failed". *)
Definition one_task (w : machine) (name : string) (acts : list action)
           (ok : string) : M (trace * list task_result) unit :=
  try_except_as
    (for_each acts (fun a => lift_state (perform w a)) ;;
     results_append (mkTaskResult name ok None))
    (fun e => results_append (mkTaskResult name "failed" (Some e))).

(** [optimize()], up to [jsonify]. *)
Definition optimize (OS : string) (w : machine)
  : M (trace * list task_result) unit :=
  if String.eqb OS "Windows" then
    one_task w "Flush DNS Cache"
             [subprocess_run ["ipconfig"; "/flushdns"] 15] "done" ;;
    one_task w "Refresh IP Configuration"
             [subprocess_run ["ipconfig"; "/release"] 15;
              subprocess_run ["ipconfig"; "/renew"] 30] "done" ;;
    one_task w "Empty Recycle Bin" [SHEmptyRecycleBin] "done" ;;
    one_task w "Windows Disk Cleanup"
             [subprocess_Popen ["cleanmgr"; "/sagerun:1"]] "started"
  else if String.eqb OS "Darwin" then
    one_task w "Flush DNS Cache"
             [subprocess_run ["sudo"; "dscacheutil"; "-flushcache"] 15;
              subprocess_run ["sudo"; "killall"; "-HUP"; "mDNSResponder"] 15]
             "done" ;;
    one_task w "Purge Inactive Memory"
             [subprocess_run ["sudo"; "purge"] 15] "done"
  else
    one_task w "Sync Disk Buffers"
             [subprocess_run ["sudo"; "sync"] 10] "done" ;;
    one_task w "Flush DNS Cache"
             [subprocess_run ["sudo"; "systemctl"; "restart";
                              "systemd-resolved"] 15] "done".

(** A call of [optimize]: the requests made, the results, and whether
    it returned or raised. *)
Definition run_optimize (OS : string) (w : machine)
  : trace * list task_result * result unit :=
  match optimize OS w ([], []) with
  | (s, r) => (fst s, snd s, r)
  end.

(** *** The tasks of a platform, for the statements below *)

(** The requests of a task that are made: all up to the first that
    raises, that one included. *)
Fixpoint attempted (w : machine) (acts : list action) : list action :=
  match acts with
  | [] => []
  | a :: acts' =>
      match w a with
      | Ok _ => a :: attempted w acts'
      | Raise _ => [a]
      end
  end.

(** The first exception among the requests of a task. *)
Fixpoint first_failure (w : machine) (acts : list action) : option exn :=
  match acts with
  | [] => None
  | a :: acts' =>
      match w a with
      | Ok _ => first_failure w acts'
      | Raise e => Some e
      end
  end.

(** The tasks of a platform: name, requests, status when all return. *)
Definition tasks (OS : string) : list (string * list action * string) :=
  if String.eqb OS "Windows" then
    [("Flush DNS Cache",
      [subprocess_run ["ipconfig"; "/flushdns"] 15], "done");
     ("Refresh IP Configuration",
      [subprocess_run ["ipconfig"; "/release"] 15;
       subprocess_run ["ipconfig"; "/renew"] 30], "done");
     ("Empty Recycle Bin", [SHEmptyRecycleBin], "done");
     ("Windows Disk Cleanup",
      [subprocess_Popen ["cleanmgr"; "/sagerun:1"]], "started")]
  else if String.eqb OS "Darwin" then
    [("Flush DNS Cache",
      [subprocess_run ["sudo"; "dscacheutil"; "-flushcache"] 15;
       subprocess_run ["sudo"; "killall"; "-HUP"; "mDNSResponder"] 15],
      "done");
     ("Purge Inactive Memory",
      [subprocess_run ["sudo"; "purge"] 15], "done")]
  else
    [("Sync Disk Buffers", [subprocess_run ["sudo"; "sync"] 10], "done");
     ("Flush DNS Cache",
      [subprocess_run ["sudo"; "systemctl"; "restart"; "systemd-resolved"]
                      15], "done")].

Definition task_outcome (w : machine) (t : string * list action * string)
  : task_result :=
  match first_failure w (snd (fst t)) with
  | None => mkTaskResult (fst (fst t)) (snd t) None
  | Some e => mkTaskResult (fst (fst t)) "failed" (Some e)
  end.

(** A machine without [ipconfig]. *)
Definition no_ipconfig : machine :=
  fun a =>
    match a with
    | subprocess_run ("ipconfig" :: _) _ => Raise FileNotFoundError
    | _ => Ok tt
    end.

(** ** Trees that only lose

    [shrinks n n']: [n'] is [n] with some entries removed and some write
    bits changed; nothing is added, no size and no [readable] bit
    changes. *)
Inductive thinned (R : node -> node -> Prop)
  : list (string * node) -> list (string * node) -> Prop :=
| thinned_nil : thinned R [] []
| thinned_keep k n n' es es' :
    R n n' -> thinned R es es' -> thinned R ((k, n) :: es) ((k, n') :: es')
| thinned_drop k n es es' :
    thinned R es es' -> thinned R ((k, n) :: es) es'.

Inductive shrinks : node -> node -> Prop :=
| shrinks_file a a' s :
    readable a' = readable a -> shrinks (File a s) (File a' s)
| shrinks_dir a a' es es' :
    readable a' = readable a -> thinned shrinks es es' ->
    shrinks (Dir a es) (Dir a' es')
| shrinks_dangling : shrinks (Symlink None) (Symlink None)
| shrinks_link t t' :
    shrinks t t' -> shrinks (Symlink (Some t)) (Symlink (Some t'))
| shrinks_special a a' :
    readable a' = readable a -> shrinks (Special a) (Special a').

(** A call that removes the entry it is applied to or leaves it as it
    is. *)
Definition inert (func : op) : Prop :=
  forall m r, func m = Ok (Some r) -> r = m.


(** [nothing_added fs fs']: the names of [fs'] are distinct; whatever a
    path names in [fs'] it named in [fs], as a file where it is a file
    and as a directory where it is a directory; and no path measures
    more in [fs'] than in [fs]. *)
Definition nothing_added (fs fs' : node) : Prop :=
  unique_names fs' = true
  /\ forall q,
       (lstat fs' q <> None -> lstat fs q <> None)
       /\ (exists_ fs' q = true -> exists_ fs q = true)
       /\ (is_dir fs' q = true -> is_dir fs q = true)
       /\ (is_file fs' q = true -> is_file fs q = true)
       /\ get_dir_size_path fs' q <= get_dir_size_path fs q.

(** * The installer ([install.py])

    What the installer prints is left out.  A string is the sequence of
    its code points, each below 256. *)

(** How a call ends that does not return: [sys.exit(code)], the end of
    the input at a prompt, a comparison of values of different types. *)
Inductive stop :=
| SystemExit (code : N)
| EOFError
| TypeError.

Inductive outcome (A : Type) :=
| Returns (a : A)
| Stops (s : stop).
Arguments Returns {A} a.
Arguments Stops {A} s.

(** [die(msg)]. *)
Definition die {A} : outcome A := Stops (SystemExit 1).

(** ** The version check *)

(** The values a version tuple holds. *)
Inductive pyval :=
| VInt (n : N)
| VStr (s : string).

(** [x == y]: values of different types are not equal. *)
Definition val_eqb (x y : pyval) : bool :=
  match x, y with
  | VInt a, VInt b => N.eqb a b
  | VStr a, VStr b => String.eqb a b
  | _, _ => false
  end.

(** [x < y]; [None]: [TypeError]. *)
Definition val_ltb (x y : pyval) : option bool :=
  match x, y with
  | VInt a, VInt b => Some (N.ltb a b)
  | VStr a, VStr b =>
      Some (match String.compare a b with Lt => true | _ => false end)
  | _, _ => None
  end.

(** [a < b] on tuples: the first items that differ decide; when none
    differ the shorter tuple is the smaller. *)
Fixpoint tuple_ltb (a b : list pyval) : option bool :=
  match a, b with
  | [], [] => Some false
  | [], _ :: _ => Some true
  | _ :: _, [] => Some false
  | x :: a', y :: b' =>
      if val_eqb x y then tuple_ltb a' b' else val_ltb x y
  end.

(** [sys.version_info]. *)
Record version_info := mkVersion {
  major : N;
  minor : N;
  micro : N;
  releaselevel : string;
  serial : N
}.

Definition version_tuple (v : version_info) : list pyval :=
  [VInt (major v); VInt (minor v); VInt (micro v);
   VStr (releaselevel v); VInt (serial v)].

(** [check_python()], on the version of the interpreter. *)
Definition check_python (v : version_info) : outcome bool :=
  match tuple_ltb (version_tuple v) [VInt 3; VInt 8] with
  | Some true => die
  | Some false => Returns true
  | None => Stops TypeError
  end.

(** ** Questions *)

(** [c.isspace()]. *)
Definition isspace (c : ascii) : bool :=
  let n := N_of_ascii c in
  (N.leb 9 n && N.leb n 13) || (N.leb 28 n && N.leb n 32)
  || N.eqb n 133 || N.eqb n 160.

(** [c.lower()]. *)
Definition lower_char (c : ascii) : ascii :=
  let n := N_of_ascii c in
  if (N.leb 65 n && N.leb n 90)
     || (N.leb 192 n && N.leb n 222 && negb (N.eqb n 215))
  then ascii_of_N (n + 32)
  else c.

Fixpoint lower (s : string) : string :=
  match s with
  | EmptyString => EmptyString
  | String c s' => String (lower_char c) (lower s')
  end.

Fixpoint lstrip (s : string) : string :=
  match s with
  | EmptyString => EmptyString
  | String c s' => if isspace c then lstrip s' else s
  end.

Fixpoint rstrip (s : string) : string :=
  match s with
  | EmptyString => EmptyString
  | String c s' =>
      match rstrip s' with
      | EmptyString => if isspace c then EmptyString else String c EmptyString
      | r => String c r
      end
  end.

(** [s.strip()]. *)
Definition strip (s : string) : string := rstrip (lstrip s).

(** [ask(prompt, default)], on the line [input] returned. *)
Definition ask (default line : string) : bool :=
  let ans := lower (strip line) in
  if String.eqb ans "" then String.eqb default "y"
  else String.eqb ans "y" || String.eqb ans "yes".

(** ** An installation that is already there *)

(** What the installer works on: the file system, the lines waiting on
    its input, and everything else (network, archive, interpreter). *)
Record installer (X : Type) := mkInstaller {
  disk : node;
  stdin : list string;
  beyond : X
}.
Arguments mkInstaller {X} disk stdin beyond.
Arguments disk {X} i.
Arguments stdin {X} i.
Arguments beyond {X} i.

(** [input(prompt)]. *)
Definition input {X} (w : installer X) : installer X * outcome string :=
  match stdin w with
  | [] => (w, Stops EOFError)
  | line :: rest => (mkInstaller (disk w) rest (beyond w), Returns line)
  end.

(** The handler of [shutil.rmtree(path, ignore_errors=True)]: nothing is
    done about a failure. *)
Definition ignore_errors (func : op) (n : node) : option node := Some n.

(** [download_and_extract(install_dir)].  [fetch] is the function from
    [install_dir.mkdir(...)] on: the download, the copy of local files
    when the download fails, the extraction. *)
Definition download_and_extract {X}
           (fetch : path -> installer X -> installer X * outcome unit)
           (install_dir : path) (w : installer X)
  : installer X * outcome unit :=
  if exists_ (disk w) (install_dir ++ ["app.py"]) then
    match input w with
    | (w1, Stops s) => (w1, Stops s)
    | (w1, Returns line) =>
        if ask "n" line then (w1, Returns tt)
        else
          fetch install_dir
                (mkInstaller
                   (fst (shutil_rmtree install_dir ignore_errors (disk w1)))
                   (stdin w1) (beyond w1))
    end
  else fetch install_dir w.

(** An installation in [/opt/cs] and a user who answers [y]. *)
Definition installed_fs : node :=
  Dir rw [("opt", Dir rw [("cs", Dir rw [("app.py", File rw 9000);
                                         ("run.py", File rw 2000)])])].

Definition answers_yes : installer unit := mkInstaller installed_fs [" Y "] tt.

(** ** Candidate paths inside candidate paths

    The cache directory of the user, itself a candidate path of the
    category [User Cache], and the names of its entries that are
    candidate paths of categories of their own. *)
Definition nested_caches (OS : string) (env : environ)
  : path * list string :=
  if String.eqb OS "Darwin" then
    (home env ++ ["Library"; "Caches"], ["Firefox"; "com.apple.Safari"; "pip"])
  else
    (home env ++ [".cache"], ["thumbnails"; "google-chrome"; "pip"]).

(** A Linux user with a pip cache of one wheel. *)
Definition linux_user : environ := mkEnviron ["home"; "u"] None None None None.

Definition pip_cache : list (string * node) :=
  [("pip", Dir rw [("w.whl", File rw 1000)])].

Definition pip_fs : node :=
  Dir rw [("home", Dir rw [("u", Dir rw [(".cache", Dir rw pip_cache)])])].

(** Membership in a list that is written out, the element found by
    trying the positions in turn. *)
Ltac in_list := (left; reflexivity) + (right; in_list).
(** * Properties *)

(** ** Size accountant *)

Lemma get_dir_size_loop (es : list (string * node)) : forall total,
  (fix loop (es : list (string * node)) (total : N) : N :=
     match es with
     | [] => total
     | (_, entry) :: es' =>
         loop es'
              (match entry with
               | File _ s => total + s
               | Dir _ _ => total + get_dir_size entry
               | _ => total
               end)
     end) es total
  = fold_left add_entry es total.
Proof.
  induction es as [|[name e] es IH]; intro total.
  - reflexivity.
  - cbn [fold_left]. rewrite <- IH. unfold add_entry.
    destruct e as [a s| a l | t | a]; reflexivity.
Qed.

Lemma get_dir_size_dir a es :
  get_dir_size (Dir a es)
  = if readable a then fold_left add_entry es 0 else 0.
Proof.
  cbn [get_dir_size]. destruct (readable a); [|reflexivity].
  apply get_dir_size_loop.
Qed.

Lemma get_dir_size_follow n :
  get_dir_size n
  = match follow n with Some t => get_dir_size t | None => 0 end.
Proof.
  induction n using node_induction; try reflexivity.
  cbn [get_dir_size follow]. exact IHn.
Qed.

(** The equation of [get_dir_size] in the shape of the source: the
    listing raises and the size is 0, or the loop runs over the
    entries. *)
Lemma get_dir_size_scandir n :
  get_dir_size n
  = match scandir n with
    | Ok es => fold_left add_entry es 0
    | Raise _ => 0
    end.
Proof.
  rewrite get_dir_size_follow. unfold scandir.
  destruct (follow n) as [[a s|a es|t|a]|] eqn:E; try reflexivity.
  - rewrite get_dir_size_dir. destruct (readable a); reflexivity.
  - destruct t as [t|]; [|reflexivity].
    exfalso. clear -E. induction n using node_induction; try discriminate.
    cbn in E. auto.
Qed.

Lemma fold_left_add_entry es : forall total,
  fold_left add_entry es total = total + fold_left add_entry es 0.
Proof.
  induction es as [|e es IH]; intro total; cbn [fold_left].
  - lia.
  - rewrite IH. rewrite (IH (add_entry 0 e)).
    unfold add_entry.
    destruct (entry_is_file (snd e)); [lia|].
    destruct (entry_is_dir (snd e)); lia.
Qed.

Lemma total_size_app l1 l2 :
  total_size (l1 ++ l2) = total_size l1 + total_size l2.
Proof.
  unfold total_size. induction l1 as [|x l1 IH]; cbn [fold_right app].
  - reflexivity.
  - rewrite IH. lia.
Qed.

Lemma total_size_map_prefix name l :
  total_size (map (fun qs : path * N => (name :: fst qs, snd qs)) l)
  = total_size l.
Proof.
  unfold total_size. induction l as [|x l IH]; cbn [map fold_right].
  - reflexivity.
  - rewrite IH. reflexivity.
Qed.

Lemma get_dir_size_reachable n :
  entry_is_dir n = true ->
  get_dir_size n = total_size (reachable_files n).
Proof.
  induction n as [a s|a es IH| |t _|a] using node_induction;
    try discriminate.
  intros _. rewrite get_dir_size_dir. cbn [reachable_files].
  destruct (readable a); [|reflexivity].
  induction es as [|[name e] es IHes]; [reflexivity|].
  cbn [fold_left flat_map]. rewrite fold_left_add_entry, total_size_app.
  inversion IH as [|? ? He Hes]; subst.
  rewrite (IHes Hes). f_equal.
  unfold add_entry. cbn [snd fst] in *.
  destruct e as [fa s|a' es'|t|a']; try reflexivity.
  - cbn. lia.
  - cbn [entry_is_file entry_is_dir]. rewrite total_size_map_prefix.
    rewrite N.add_0_l. apply He. reflexivity.
Qed.

(** [reachable_files] lists exactly the files [reaches] describes. *)
Lemma reachable_files_reaches n : forall q s,
  In (q, s) (reachable_files n) <-> reaches n q s.
Proof.
  induction n as [a s0|a es IH| |t _|a] using node_induction; intros q s;
    try (split; [intros []|intro H; inversion H]).
  cbn [reachable_files]. split.
  - destruct (readable a) eqn:Hr; [|intros []].
    rewrite in_flat_map. intros [[name e] [Hin Hq]].
    rewrite Forall_forall in IH. specialize (IH _ Hin). cbn [snd fst] in *.
    destruct e as [fa s1|a' es'|t|a']; try contradiction.
    + destruct Hq as [Hq|[]]. inversion Hq; subst.
      eapply reaches_file; eauto.
    + rewrite in_map_iff in Hq. destruct Hq as [[q' s'] [Heq Hq']].
      inversion Heq; subst. cbn [fst snd].
      eapply reaches_dir; eauto. apply IH. exact Hq'.
  - intro H. inversion H as [? ? name fa ? Hr Hin|? ? name a' es' q' ? Hr Hin Hsub];
      subst; rewrite Hr; rewrite in_flat_map.
    + exists (name, File fa s). split; [exact Hin|]. left. reflexivity.
    + exists (name, Dir a' es'). split; [exact Hin|]. cbn [snd fst].
      rewrite in_map_iff. exists (q', s). split; [reflexivity|].
      rewrite Forall_forall in IH. apply (IH _ Hin). exact Hsub.
Qed.

Lemma get_dir_size_skips_unreadable a es1 name a' sub es2 :
  readable a' = false ->
  get_dir_size (Dir a (es1 ++ (name, Dir a' sub) :: es2))
  = get_dir_size (Dir a (es1 ++ es2)).
Proof.
  intro Hr. rewrite !get_dir_size_dir. destruct (readable a); [|reflexivity].
  rewrite !fold_left_app. cbn [fold_left].
  replace (add_entry (fold_left add_entry es1 0) (name, Dir a' sub))
    with (fold_left add_entry es1 0); [reflexivity|].
  unfold add_entry. cbn [snd entry_is_file entry_is_dir].
  rewrite get_dir_size_dir, Hr. lia.
Qed.



(** ** Path catalog *)



(** ** Scan engine *)

Section StableSort.
Context {A : Type} (key : A -> N).

Lemma insert_desc_perm x l : Permutation (insert_desc key x l) (x :: l).
Proof.
  induction l as [|y l IH]; cbn [insert_desc].
  - apply Permutation_refl.
  - destruct (N.leb (key y) (key x)).
    + apply Permutation_refl.
    + eapply perm_trans; [apply perm_skip, IH|apply perm_swap].
Qed.

Lemma sort_reverse_perm l : Permutation (sort_reverse key l) l.
Proof.
  induction l as [|x l IH]; cbn [sort_reverse].
  - apply perm_nil.
  - eapply perm_trans; [apply insert_desc_perm|apply perm_skip, IH].
Qed.

Lemma insert_desc_sorted x l :
  StronglySorted (fun a b => key b <= key a) l ->
  StronglySorted (fun a b => key b <= key a) (insert_desc key x l).
Proof.
  induction 1 as [|y l Hs IH Hall]; cbn [insert_desc].
  - constructor; constructor.
  - destruct (N.leb_spec (key y) (key x)) as [Hle|Hlt].
    + constructor; [constructor; assumption|].
      constructor; [exact Hle|].
      eapply Forall_impl; [|exact Hall]. cbn. intros; lia.
    + constructor; [exact IH|].
      eapply Permutation_Forall;
        [apply Permutation_sym, insert_desc_perm|].
      constructor; [lia|exact Hall].
Qed.

Lemma sort_reverse_sorted l :
  StronglySorted (fun a b => key b <= key a) (sort_reverse key l).
Proof.
  induction l as [|x l IH]; cbn [sort_reverse].
  - constructor.
  - apply insert_desc_sorted, IH.
Qed.

(** Stability: the elements of any one key are left in their order. *)
Lemma insert_desc_filter s x l :
  filter (fun y => N.eqb (key y) s) (insert_desc key x l)
  = filter (fun y => N.eqb (key y) s) (x :: l).
Proof.
  induction l as [|y l IH]; cbn [insert_desc]; [reflexivity|].
  destruct (N.leb_spec (key y) (key x)) as [Hle|Hlt]; [reflexivity|].
  cbn [filter] in *. rewrite IH.
  destruct (N.eqb_spec (key x) s) as [Hx|Hx];
    destruct (N.eqb_spec (key y) s) as [Hy|Hy]; try reflexivity.
  lia.
Qed.

Lemma sort_reverse_stable s l :
  filter (fun y => N.eqb (key y) s) (sort_reverse key l)
  = filter (fun y => N.eqb (key y) s) l.
Proof.
  induction l as [|x l IH]; cbn [sort_reverse]; [reflexivity|].
  rewrite insert_desc_filter. cbn [filter]. rewrite IH. reflexivity.
Qed.
End StableSort.

Lemma scan_paths_fold fs ps : forall st,
  fold_left
    (fun (st : N * bool) (p : path) =>
       if exists_ fs p
       then (fst st + get_dir_size_path fs p, true)
       else st)
    ps st
  = (fst st + category_size fs ps, snd st || has_existing_path fs ps).
Proof.
  induction ps as [|p ps IH]; intros [c b]; cbn [fold_left].
  - cbn. rewrite N.add_0_r, orb_false_r. reflexivity.
  - rewrite IH. cbn [category_size has_existing_path fold_right existsb].
    fold (category_size fs ps). fold (has_existing_path fs ps).
    destruct (exists_ fs p); cbn [fst snd orb].
    + rewrite orb_true_r. f_equal. lia.
    + reflexivity.
Qed.

Lemma scan_paths_spec fs ps :
  scan_paths fs ps = (category_size fs ps, has_existing_path fs ps).
Proof. unfold scan_paths. rewrite scan_paths_fold. reflexivity. Qed.

Lemma sum_sizes_app l1 l2 :
  sum_sizes (l1 ++ l2) = sum_sizes l1 + sum_sizes l2.
Proof.
  unfold sum_sizes. induction l1 as [|x l1 IH]; cbn [app fold_right].
  - reflexivity.
  - rewrite IH. lia.
Qed.

Lemma sum_sizes_perm l1 l2 :
  Permutation l1 l2 -> sum_sizes l1 = sum_sizes l2.
Proof.
  unfold sum_sizes.
  induction 1; cbn [fold_right]; try congruence; lia.
Qed.

Lemma scan_loop_fold fs targets : forall st,
  fold_left
    (fun (st : list scan_result * N) (cp : string * list path) =>
       let cs := scan_paths fs (snd cp) in
       if snd cs
       then (fst st ++ [mkScanResult (fst cp) (fst cs) (snd cp)],
             snd st + fst cs)
       else st)
    targets st
  = (fst st ++ included fs targets,
     snd st + sum_sizes (included fs targets)).
Proof.
  induction targets as [|cp targets IH]; intros [rs t]; cbn [fold_left].
  - cbn. rewrite app_nil_r, N.add_0_r. reflexivity.
  - rewrite IH. cbn zeta. rewrite scan_paths_spec. cbn [fst snd].
    unfold included. cbn [filter].
    destruct (has_existing_path fs (snd cp)); cbn [fst snd map].
    + rewrite <- app_assoc. cbn [app]. f_equal.
      change (fold_right (fun r acc => size r + acc) 0 (?x :: ?l))
        with (size x + sum_sizes l).
      unfold sum_sizes at 2. cbn [fold_right size].
      unfold sum_sizes. lia.
    + reflexivity.
Qed.

Lemma scan_loop_spec fs targets :
  scan_loop fs targets
  = (included fs targets, sum_sizes (included fs targets)).
Proof. unfold scan_loop. rewrite scan_loop_fold. reflexivity. Qed.

Lemma included_names fs targets c :
  In c (map category (included fs targets))
  <-> exists ps p, In (c, ps) targets /\ In p ps /\ exists_ fs p = true.
Proof.
  unfold included. rewrite map_map. cbn [category]. rewrite in_map_iff.
  split.
  - intros [[c' ps] [Hc Hin]]. cbn [fst] in Hc. subst c'.
    apply filter_In in Hin. destruct Hin as [Hin Hex]. cbn [snd] in Hex.
    unfold has_existing_path in Hex. apply existsb_exists in Hex.
    destruct Hex as [p [Hp He]]. exists ps, p. auto.
  - intros [ps [p [Hin [Hp He]]]]. exists (c, ps). split; [reflexivity|].
    apply filter_In. split; [exact Hin|]. cbn [snd].
    unfold has_existing_path. apply existsb_exists. exists p. auto.
Qed.

(** C4.  In the report of a scan, a category name appears exactly when
    one of the candidate paths of a category of that name exists; the
    categories are in non-increasing order of size; the categories of any
    one size are in catalog order; and the grand total is the sum of the
    sizes of the reported categories. *)
Theorem scan_report_ranked OS targets fs :
  (forall c,
      In c (map category (categories (scan_from OS targets fs)))
      <-> exists ps p, In (c, ps) targets /\ In p ps /\ exists_ fs p = true)
  /\ StronglySorted non_increasing (categories (scan_from OS targets fs))
  /\ (forall s,
         filter (fun r => N.eqb (size r) s)
                (categories (scan_from OS targets fs))
         = filter (fun r => N.eqb (size r) s) (included fs targets))
  /\ total (scan_from OS targets fs)
     = sum_sizes (categories (scan_from OS targets fs)).
Proof.
  unfold scan_from. rewrite scan_loop_spec. cbn [categories total fst snd].
  split; [|split; [|split]].
  - intro c. rewrite <- included_names. split; intro H.
    + eapply Permutation_in; [|exact H].
      apply Permutation_map, sort_reverse_perm.
    + eapply Permutation_in; [|exact H].
      apply Permutation_map, Permutation_sym, sort_reverse_perm.
  - apply (sort_reverse_sorted size).
  - intro s. apply sort_reverse_stable.
  - apply sum_sizes_perm, Permutation_sym, sort_reverse_perm.
Qed.

(** ** Looking up and updating a tree *)

Lemma follow_not_link n t : follow n <> Some (Symlink t).
Proof.
  induction n as [| | |t' IH|] using node_induction;
    cbn [follow]; try discriminate; exact IH.
Qed.

Lemma follow_on_target h n :
  follow (on_target (in_dir h) n) = option_map (in_dir h) (follow n).
Proof.
  induction n as [a s|a es _| |t IH|a] using node_induction;
    cbn [on_target follow in_dir option_map]; try reflexivity.
  exact IH.
Qed.

Lemma assoc_set_entry_other c c' f es :
  c' <> c -> assoc c' (set_entry c f es) = assoc c' es.
Proof.
  intro Hne. induction es as [|[k m] es IH]; cbn [set_entry assoc].
  - reflexivity.
  - destruct (String.eqb_spec k c) as [Hk|Hk].
    + subst k. destruct (String.eqb_spec c c') as [E|_]; [congruence|].
      destruct (f m); cbn [assoc]; [|reflexivity].
      destruct (String.eqb_spec c c'); [congruence|reflexivity].
    + cbn [assoc]. rewrite IH. reflexivity.
Qed.

Lemma assoc_set_entry_some c f es m m' :
  assoc c es = Some m -> f m = Some m' ->
  assoc c (set_entry c f es) = Some m'.
Proof.
  intros Ha Hf. induction es as [|[k m0] es IH]; cbn [set_entry assoc] in *.
  - discriminate.
  - destruct (String.eqb_spec k c) as [Hk|Hk].
    + inversion Ha; subst. rewrite Hf. cbn [assoc].
      rewrite String.eqb_refl. reflexivity.
    + cbn [assoc]. destruct (String.eqb_spec k c); [congruence|].
      apply IH, Ha.
Qed.

Lemma assoc_set_entry_missing c f es :
  assoc c es = None -> set_entry c f es = es.
Proof.
  induction es as [|[k m0] es IH]; cbn [set_entry assoc]; [reflexivity|].
  destruct (String.eqb k c); [discriminate|].
  intro H. rewrite (IH H). reflexivity.
Qed.

Lemma assoc_absent c es :
  existsb (String.eqb c) (map fst es) = false -> assoc c es = None.
Proof.
  induction es as [|[k m] es IH]; cbn [map fst existsb assoc];
    [reflexivity|].
  rewrite orb_false_iff. intros [Hk Hes].
  rewrite String.eqb_sym, Hk. apply IH, Hes.
Qed.

Lemma assoc_set_entry_removed c f es m :
  distinct (map fst es) = true ->
  assoc c es = Some m -> f m = None ->
  assoc c (set_entry c f es) = None.
Proof.
  intros Hd Ha Hf.
  induction es as [|[k m0] es IH]; cbn [set_entry assoc map fst distinct] in *.
  - discriminate.
  - apply andb_true_iff in Hd. destruct Hd as [Hk Hd].
    destruct (String.eqb_spec k c) as [E|E].
    + inversion Ha; subst. rewrite Hf.
      apply assoc_absent. apply negb_true_iff. exact Hk.
    + cbn [assoc]. destruct (String.eqb_spec k c); [congruence|].
      apply IH; assumption.
Qed.

Lemma unique_names_dir a es :
  unique_names (Dir a es)
  = distinct (map fst es) && forallb (fun e => unique_names (snd e)) es.
Proof.
  cbn [unique_names]. apply f_equal.
  induction es as [|e es IH]; cbn [forallb]; [reflexivity|].
  rewrite IH. reflexivity.
Qed.

Lemma unique_names_follow n t :
  unique_names n = true -> follow n = Some t -> unique_names t = true.
Proof.
  induction n as [| | |t' IH|] using node_induction;
    cbn [follow unique_names]; intros Hu Hf;
    try (inversion Hf; subst; exact Hu); try discriminate.
  apply IH; assumption.
Qed.

Lemma assoc_in c es m : assoc c es = Some m -> In (c, m) es.
Proof.
  induction es as [|[k m0] es IH]; cbn [assoc]; [discriminate|].
  destruct (String.eqb_spec k c) as [E|E].
  - intro H. inversion H; subst. left. reflexivity.
  - intro H. right. apply IH, H.
Qed.

Lemma unique_names_child a es c m :
  unique_names (Dir a es) = true -> assoc c es = Some m ->
  distinct (map fst es) = true /\ unique_names m = true.
Proof.
  rewrite unique_names_dir, andb_true_iff. intros [Hd Hall] Ha.
  split; [exact Hd|].
  rewrite forallb_forall in Hall. apply (Hall (c, m)), assoc_in, Ha.
Qed.

(** An update below an existing entry leaves something there. *)
Lemma update_defined p f m n n' :
  lstat m p = Some n -> f n = Some n' ->
  update p f m = Some (update_fs p f m).
Proof.
  unfold update_fs. destruct p as [|c p]; cbn [lstat update].
  - intros H Hf. inversion H; subst. rewrite Hf. reflexivity.
  - reflexivity.
Qed.

(** Reading back what an update wrote. *)
Lemma lstat_update_some p : forall fs f n n',
  lstat fs p = Some n -> f n = Some n' ->
  lstat (update_fs p f fs) p = Some n'.
Proof.
  induction p as [|c p IH]; intros fs f n n' Hl Hf.
  - cbn [lstat] in Hl. inversion Hl; subst.
    unfold update_fs. cbn [update]. rewrite Hf. reflexivity.
  - unfold update_fs. cbn [update lstat] in *.
    rewrite follow_on_target.
    destruct (follow fs) as [[a s|a es|t|a]|]; try discriminate.
    cbn [option_map in_dir].
    destruct (assoc c es) as [m|] eqn:Ha; [|discriminate].
    rewrite (assoc_set_entry_some c _ es m (update_fs p f m) Ha).
    + eapply IH; eassumption.
    + eapply update_defined; eassumption.
Qed.

(** After an entry is removed nothing has its name. *)
Lemma lstat_update_removed p : forall fs f n,
  unique_names fs = true -> p <> [] ->
  lstat fs p = Some n -> f n = None ->
  lstat (update_fs p f fs) p = None.
Proof.
  induction p as [|c p IH]; intros fs f n Hu Hp Hl Hf; [congruence|].
  unfold update_fs. cbn [update lstat] in *.
  rewrite follow_on_target.
  destruct (follow fs) as [[a s|a es|t|a]|] eqn:Hfo; try discriminate.
  cbn [option_map in_dir].
  destruct (assoc c es) as [m|] eqn:Ha; [|discriminate].
  pose proof (unique_names_follow _ _ Hu Hfo) as Hud.
  destruct (unique_names_child _ _ _ _ Hud Ha) as [Hd Hm].
  destruct p as [|c' p'].
  - cbn [lstat] in Hl. inversion Hl; subst. cbn [update].
    rewrite (assoc_set_entry_removed c (fun n0 => f n0) es n Hd Ha Hf).
    reflexivity.
  - rewrite (assoc_set_entry_some c _ es m (update_fs (c' :: p') f m) Ha);
      [|reflexivity].
    apply (IH m f n Hm); [discriminate|exact Hl|exact Hf].
Qed.

(** ** Forced removal *)

Lemma chmod_write_dangling n :
  follow n = None -> chmod_write n = Raise FileNotFoundError.
Proof.
  induction n as [| | |t IH|] using node_induction;
    cbn [follow chmod_write]; try discriminate; try reflexivity.
  intro H. rewrite (IH H). reflexivity.
Qed.

Lemma force_remove_returns p fs :
  exists fs' b, force_remove p fs = (fs', Ok b).
Proof.
  unfold_calls.
  repeat (break_match; try discriminate);
    repeat match goal with
           | H : (_, _) = (_, _) |- _ => inversion H; clear H; subst
           end;
    try discriminate; eauto.
Qed.

(** Updates keep names distinct. *)
Lemma set_entry_names c u es k :
  existsb (String.eqb k) (map fst (set_entry c u es)) = true ->
  existsb (String.eqb k) (map fst es) = true.
Proof.
  induction es as [|[k0 m] es IH]; cbn [set_entry map fst existsb];
    [trivial|].
  destruct (String.eqb k0 c).
  - destruct (u m); cbn [map fst existsb]; [trivial|].
    intro H. rewrite H. apply orb_true_r.
  - cbn [map fst existsb]. rewrite !orb_true_iff.
    intros [H|H]; [left; exact H|right; apply IH, H].
Qed.

Lemma distinct_set_entry c u es :
  distinct (map fst es) = true ->
  distinct (map fst (set_entry c u es)) = true.
Proof.
  induction es as [|[k0 m] es IH]; cbn [set_entry map fst distinct];
    [trivial|].
  rewrite andb_true_iff, negb_true_iff. intros [Hk Hd].
  destruct (String.eqb k0 c).
  - destruct (u m); cbn [map fst distinct]; [|exact Hd].
    rewrite Hk, Hd. reflexivity.
  - cbn [map fst distinct]. rewrite (IH Hd), andb_true_r, negb_true_iff.
    destruct (existsb (String.eqb k0) (map fst (set_entry c u es))) eqn:E;
      [|reflexivity].
    apply set_entry_names in E. congruence.
Qed.

Lemma forallb_set_entry c u es :
  (forall m m', unique_names m = true -> u m = Some m' ->
                unique_names m' = true) ->
  forallb (fun e => unique_names (snd e)) es = true ->
  forallb (fun e => unique_names (snd e)) (set_entry c u es) = true.
Proof.
  intro Hu. induction es as [|[k0 m] es IH]; cbn [set_entry forallb snd];
    [trivial|].
  rewrite andb_true_iff. intros [Hm Hes].
  destruct (String.eqb k0 c).
  - destruct (u m) as [m'|] eqn:E; [|exact Hes].
    cbn [forallb snd]. rewrite (Hu m m' Hm E), Hes. reflexivity.
  - cbn [forallb snd]. rewrite Hm, (IH Hes). reflexivity.
Qed.

Lemma unique_names_on_target g n :
  (forall d, unique_names d = true -> unique_names (g d) = true) ->
  unique_names n = true -> unique_names (on_target g n) = true.
Proof.
  intro Hg.
  induction n as [a s|a es _| |t IH|a] using node_induction;
    cbn [on_target]; try apply Hg; trivial.
Qed.

Lemma unique_names_update p : forall f fs,
  (forall n n', unique_names n = true -> f n = Some n' ->
                unique_names n' = true) ->
  unique_names fs = true ->
  unique_names (update_fs p f fs) = true.
Proof.
  induction p as [|c p IH]; intros f fs Hf Hu; unfold update_fs;
    cbn [update].
  - destruct (f fs) as [n'|] eqn:E; [eapply Hf; eassumption|exact Hu].
  - apply unique_names_on_target; [|exact Hu].
    intros [a s|a es|t|a] Hd; cbn [in_dir]; trivial.
    rewrite unique_names_dir in *. apply andb_true_iff in Hd.
    destruct Hd as [H1 H2].
    rewrite distinct_set_entry by exact H1.
    rewrite forallb_set_entry; [reflexivity| |exact H2].
    intros m m' Hm E.
    specialize (IH f m Hf Hm). unfold update_fs in IH. rewrite E in IH.
    exact IH.
Qed.

(** [force_remove] as a function of the file system it starts from. *)
Lemma force_remove_eq p fs :
  force_remove p fs
  = if is_file fs p || is_symlink fs p then
      match os_chmod_S_IWRITE p fs with
      | (fs1, Ok _) =>
          match os_remove p fs1 with
          | (fs2, Ok _) => (fs2, Ok true)
          | (fs2, Raise _) => (fs2, Ok false)
          end
      | (fs1, Raise _) => (fs1, Ok false)
      end
    else if is_dir fs p then (fst (shutil_rmtree p onerror fs), Ok true)
    else (fs, Ok false).
Proof.
  unfold force_remove, try_except, bind, ret, Path_is_file,
    Path_is_symlink, Path_is_dir, query.
  destruct (is_file fs p || is_symlink fs p).
  - destruct (os_chmod_S_IWRITE p fs) as [fs1 [[]|e]]; [|reflexivity].
    destruct (os_remove p fs1) as [fs2 [[]|e]]; reflexivity.
  - destruct (is_dir fs p); [|reflexivity].
    unfold shutil_rmtree. destruct (lstat fs p); reflexivity.
Qed.

Lemma force_remove_missing p fs :
  exists_ fs p = false -> force_remove p fs = (fs, Ok false).
Proof.
  unfold exists_. intro H. rewrite force_remove_eq.
  unfold is_file, is_dir, is_symlink, os_chmod_S_IWRITE, run_op.
  unfold stat in *.
  destruct (lstat fs p) as [n|] eqn:Hl; [|reflexivity].
  destruct (follow n) as [t|] eqn:Hn; [discriminate|].
  unfold chmod. rewrite (chmod_write_dangling n Hn).
  destruct n; reflexivity.
Qed.

Lemma force_remove_read_only_file p fs a s :
  unique_names fs = true -> p <> [] ->
  lstat fs p = Some (File a s) ->
  writable a = false -> locked a = false ->
  exists fs1 fs2,
    os_remove p fs = (fs, Raise PermissionError)
    /\ os_chmod_S_IWRITE p fs = (fs1, Ok tt)
    /\ lstat fs1 p = Some (File (set_writable a) s)
    /\ os_remove p fs1 = (fs2, Ok tt)
    /\ force_remove p fs = (fs2, Ok true)
    /\ lstat fs2 p = None
    /\ exists_ fs2 p = false.
Proof.
  intros Hu Hp Hl Hw Hk.
  set (fs1 := update_fs p (fun _ => Some (File (set_writable a) s)) fs).
  set (fs2 := update_fs p (fun _ : node => @None node) fs1).
  assert (H1 : lstat fs1 p = Some (File (set_writable a) s))
    by (eapply lstat_update_some; [exact Hl|reflexivity]).
  assert (Hu1 : unique_names fs1 = true).
  { apply unique_names_update; [|exact Hu].
    intros n n' _ E. inversion E. reflexivity. }
  assert (H2 : lstat fs2 p = None)
    by (eapply lstat_update_removed; [exact Hu1|exact Hp|exact H1|reflexivity]).
  assert (Hc : os_chmod_S_IWRITE p fs = (fs1, Ok tt)).
  { unfold os_chmod_S_IWRITE, run_op, chmod. rewrite Hl.
    cbn [chmod_write]. rewrite Hk. reflexivity. }
  assert (Hr : os_remove p fs1 = (fs2, Ok tt)).
  { unfold os_remove, run_op. rewrite H1. cbn [unlink].
    unfold removable. cbn [set_writable writable locked]. rewrite Hk.
    reflexivity. }
  exists fs1, fs2. repeat split; try assumption.
  - unfold os_remove, run_op. rewrite Hl. cbn [unlink].
    unfold removable. rewrite Hw. reflexivity.
  - rewrite force_remove_eq.
    unfold is_file, stat. rewrite Hl. cbn [follow orb].
    rewrite Hc, Hr. reflexivity.
  - unfold exists_, stat. rewrite H2. reflexivity.
Qed.



(** ** Cleaning the contents of a directory *)

Lemma on_fs_query {L A} (f : node -> A) (s : node * L) :
  on_fs (query f) s = (s, Ok (f (fst s))).
Proof. destruct s. reflexivity. Qed.

(** One turn of the loop, as a function of the state it starts from. *)
Lemma clean_item_eq b item fs c :
  clean_item b item (fs, c)
  = if is_dir fs item then
      if b then
        match force_remove item fs with
        | (fs', Ok true) =>
            ((fs', removed (get_dir_size_path fs item) c), Ok tt)
        | (fs', _) => ((fs', failed c), Ok tt)
        end
      else ((fs, c), Ok tt)
    else
      match stat fs item with
      | None => ((fs, failed c), Ok tt)
      | Some n =>
          if is_file fs item then
            match force_remove item fs with
            | (fs', Ok true) => ((fs', removed (size_of n) c), Ok tt)
            | (fs', _) => ((fs', failed c), Ok tt)
            end
          else ((fs, c), Ok tt)
      end.
Proof.
  unfold clean_item, try_except_oserror, bind, ret, on_fs, assign,
    Path_is_dir, Path_is_file, get_dir_size_of, stat_st_size, query.
  destruct (force_remove_returns item fs) as [fs' [ok E]].
  destruct (is_dir fs item) eqn:Hd; destruct (stat fs item) as [n|] eqn:Hs;
    destruct (is_file fs item) eqn:Hf; destruct b; destruct ok;
    repeat (cbn [fst snd andb is_oserror]; rewrite ?Hd, ?Hf, ?E, ?Hs);
    try reflexivity;
    unfold is_dir, is_file in *; rewrite Hs in *;
    try discriminate; destruct n; discriminate.
Qed.

Lemma clean_item_returns b item s :
  clean_item b item s = (clean_step b s item, Ok tt).
Proof.
  unfold clean_step. destruct s as [fs c]. rewrite clean_item_eq.
  repeat (break_match; try reflexivity).
Qed.

Lemma for_each_clean_item b items : forall s,
  for_each items (clean_item b) s = (fold_left (clean_step b) items s, Ok tt).
Proof.
  induction items as [|item items IH]; intro s; cbn [for_each fold_left].
  - reflexivity.
  - unfold bind. rewrite clean_item_returns. apply IH.
Qed.

(** [clean_directory_contents] as a function of the file system. *)
Lemma clean_directory_contents_eq d b fs :
  clean_directory_contents d b fs
  = if exists_ fs d then
      match iterdir d fs with
      | (_, Ok items) =>
          let s := fold_left (clean_step b) items (fs, mkCounters 0 0 0) in
          (fst s,
           Ok (freed (snd s), errors (snd s), items_removed (snd s)))
      | (_, Raise _) => (fs, Ok (0, 1, 0))
      end
    else (fs, Ok (0, 0, 0)).
Proof.
  unfold clean_directory_contents, with_locals, bind, ret,
    try_except_oserror, locals, assign, Path_exists.
  rewrite on_fs_query. cbn [fst snd].
  destruct (exists_ fs d); cbn [negb]; [|reflexivity].
  unfold on_fs at 1. cbn [fst snd].
  unfold iterdir. destruct (lstat fs d) as [n|]; [|reflexivity].
  destruct (scandir n) as [es|e] eqn:Hs.
  - rewrite for_each_clean_item. reflexivity.
  - assert (He : is_oserror e = true).
    { unfold scandir in Hs.
      destruct (follow n) as [[a s|a es|t|a]|];
        try destruct (readable a); inversion Hs; reflexivity. }
    rewrite He. reflexivity.
Qed.

Lemma clean_directory_contents_returns d b fs :
  exists fs' f e i, clean_directory_contents d b fs = (fs', Ok (f, e, i)).
Proof.
  rewrite clean_directory_contents_eq.
  destruct (exists_ fs d); [|eauto].
  destruct (iterdir d fs) as [fs1 [items|e]]; cbn zeta; eauto.
Qed.

(** C9.  A candidate path that resolves to a regular file (such as the
    [recently-used.xbel] entry of "User Logs" in the Linux catalog)
    counts as existing; the size accountant gives 0 for it, so a scan
    adds 0 bytes; and [clean_directory_contents] leaves the file system
    as it is and returns freed 0, errors 1, items 0. *)
Theorem regular_file_candidate fs p b :
  is_file fs p = true ->
  get_dir_size_path fs p = 0
  /\ scan_paths fs [p] = (0, true)
  /\ clean_directory_contents p b fs = (fs, Ok (0, 1, 0))
  /\ (forall env fs0,
         In ("User Logs",
             [home env ++ [".local"; "share"; "recently-used.xbel"]])
            (get_clean_targets "Linux" env fs0)).
Proof.
  intro Hf. unfold is_file, stat in Hf.
  destruct (lstat fs p) as [n|] eqn:Hl; [|discriminate].
  destruct (follow n) as [[a s|a es|t|a]|] eqn:Hn; try discriminate.
  assert (Hsz : get_dir_size_path fs p = 0).
  { unfold get_dir_size_path. rewrite Hl, get_dir_size_follow, Hn.
    reflexivity. }
  assert (Hex : exists_ fs p = true).
  { unfold exists_, stat. rewrite Hl, Hn. reflexivity. }
  split; [exact Hsz|]. split; [|split].
  - unfold scan_paths. cbn [fold_left]. rewrite Hex, Hsz. reflexivity.
  - rewrite clean_directory_contents_eq, Hex. unfold iterdir, scandir.
    rewrite Hl, Hn. reflexivity.
  - intros env fs0. unfold get_clean_targets.
    cbn [String.eqb Ascii.eqb Bool.eqb In]. tauto.
Qed.

Lemma regular_file_candidate_witness :
  get_dir_size_path fs_read_only ["tmp"; "f"] = 0
  /\ clean_directory_contents ["tmp"; "f"] true fs_read_only
     = (fs_read_only, Ok (0, 1, 0)).
Proof.
  destruct (regular_file_candidate fs_read_only ["tmp"; "f"] true eq_refl)
    as [H1 [_ [H3 _]]].
  split; assumption.
Defined.

(** ** Clean engine *)

Lemma clean_candidate_run p fs l :
  exists fs' f e i,
    clean_candidate p (fs, l) = ((fs', add_directory (f, e, i) l), Ok tt).
Proof.
  unfold clean_candidate, bind, Path_exists. rewrite on_fs_query. cbn [fst].
  destruct (exists_ fs p).
  - unfold on_fs, assign. cbn [fst snd].
    destruct (clean_directory_contents_returns p true fs)
      as [fs1 [f1 [e1 [i1 E]]]].
    rewrite E. cbn [fst snd]. eauto.
  - exists fs, 0, 0, 0. unfold ret, add_directory. cbn [fst snd].
    rewrite !N.add_0_r. destruct l; reflexivity.
Qed.

Lemma for_each_paths_run ps : forall fs l,
  exists fs' f e i,
    for_each ps clean_candidate (fs, l)
    = ((fs', mkGen (total_freed l) (total_errors l) (cat_freed l + f)
                   (cat_errors l + e) (cat_items l + i) (output l)),
       Ok tt).
Proof.
  induction ps as [|p ps IH]; intros fs l; cbn [for_each].
  - exists fs, 0, 0, 0. unfold ret. rewrite !N.add_0_r.
    destruct l; reflexivity.
  - unfold bind.
    destruct (clean_candidate_run p fs l) as [fs1 [f1 [e1 [i1 E]]]].
    rewrite E.
    destruct (IH fs1 (add_directory (f1, e1, i1) l))
      as [fs' [f [e [i E']]]].
    rewrite E'. exists fs', (f1 + f), (e1 + e), (i1 + i).
    cbn [add_directory total_freed total_errors cat_freed cat_errors
           cat_items output fst snd].
    rewrite !N.add_assoc. reflexivity.
Qed.

Lemma clean_category_run cp fs l :
  exists fs' f e i,
    clean_category cp (fs, l)
    = ((fs', mkGen (total_freed l + f) (total_errors l + e) f e i
                   (output l ++ [CleanEvent (fst cp) f i e])),
       Ok tt).
Proof.
  unfold clean_category, bind. unfold assign at 1. cbn [fst snd].
  destruct (for_each_paths_run (snd cp) fs (reset_category l))
    as [fs' [f [e [i E]]]].
  rewrite E. exists fs', f, e, i. unfold assign, locals, yield, assign.
  cbn [fst snd add_category].
  cbn [reset_category total_freed total_errors cat_freed cat_errors
         cat_items output].
  rewrite !N.add_0_l. reflexivity.
Qed.

Lemma sum_freed_app l1 l2 : sum_freed (l1 ++ l2) = sum_freed l1 + sum_freed l2.
Proof.
  unfold sum_freed. induction l1 as [|x l1 IH]; cbn [app fold_right];
    [reflexivity|]. rewrite IH. lia.
Qed.

Lemma sum_errors_app l1 l2 :
  sum_errors (l1 ++ l2) = sum_errors l1 + sum_errors l2.
Proof.
  unfold sum_errors. induction l1 as [|x l1 IH]; cbn [app fold_right];
    [reflexivity|]. rewrite IH. lia.
Qed.

Lemma for_each_categories_run targets : forall fs l,
  exists fs' f e i evs,
    for_each targets clean_category (fs, l)
    = ((fs', mkGen (total_freed l + sum_freed evs)
                   (total_errors l + sum_errors evs) f e i
                   (output l ++ evs)),
       Ok tt)
    /\ Forall2 category_event targets evs.
Proof.
  induction targets as [|cp targets IH]; intros fs l; cbn [for_each].
  - exists fs, (cat_freed l), (cat_errors l), (cat_items l), [].
    split; [|constructor]. unfold ret. cbn. rewrite !N.add_0_r, app_nil_r.
    destruct l; reflexivity.
  - unfold bind.
    destruct (clean_category_run cp fs l) as [fs1 [f1 [e1 [i1 E]]]].
    rewrite E.
    match goal with
    | |- context [for_each targets clean_category (fs1, ?l1)] =>
        destruct (IH fs1 l1) as [fs' [f [e [i [evs [E' HF]]]]]]
    end.
    rewrite E'.
    exists fs', f, e, i, (CleanEvent (fst cp) f1 i1 e1 :: evs).
    split.
    + cbn [total_freed total_errors output].
      rewrite <- app_assoc. cbn [app].
      change (sum_freed (CleanEvent (fst cp) f1 i1 e1 :: evs))
        with (f1 + sum_freed evs).
      change (sum_errors (CleanEvent (fst cp) f1 i1 e1 :: evs))
        with (e1 + sum_errors evs).
      rewrite !N.add_assoc. reflexivity.
    + constructor; [|exact HF]. exists f1, i1, e1. reflexivity.
Qed.

Lemma add_output_nil l : add_output [] l = l.
Proof. unfold add_output. rewrite app_nil_r. destruct l; reflexivity. Qed.

Lemma add_output_app evs1 evs2 l :
  add_output evs2 (add_output evs1 l) = add_output (evs1 ++ evs2) l.
Proof. unfold add_output. cbn. rewrite app_assoc. reflexivity. Qed.

(** A maintenance action yields its event when the command returns and
    nothing when it raises; either way the generator goes on. *)
Lemma maintenance_run r name s :
  maintenance r name s
  = ((fst s,
      add_output (match r with
                  | Ok _ => [CleanEvent name 0 1 0]
                  | Raise _ => []
                  end) (snd s)),
     Ok tt).
Proof.
  unfold maintenance, try_except, bind, call, yield, assign, ret.
  destruct s as [fs l]. destruct r as [[]|e]; cbn [fst snd].
  - reflexivity.
  - rewrite add_output_nil. reflexivity.
Qed.

Lemma maintenance_phase_run OS h s :
  exists maint,
    maintenance_phase OS h s = ((fst s, add_output maint (snd s)), Ok tt)
    /\ Forall maintenance_event maint.
Proof.
  assert (Hev : forall (r : result unit) name,
             In name ["DNS Cache"; "Recycle Bin"; "Sync Disk Buffers"] ->
             Forall maintenance_event
                    (match r with
                     | Ok _ => [CleanEvent name 0 1 0]
                     | Raise _ => []
                     end)).
  { intros r name Hin. destruct r; constructor; [|constructor].
    exists name. split; [exact Hin|reflexivity]. }
  unfold maintenance_phase.
  destruct (String.eqb OS "Windows");
    [|destruct (String.eqb OS "Darwin");
      [|destruct (String.eqb OS "Linux")]].
  - unfold bind. rewrite maintenance_run, maintenance_run. cbn [fst snd].
    rewrite add_output_app. eexists. split; [reflexivity|].
    apply Forall_app. split; apply Hev; cbn; tauto.
  - rewrite maintenance_run. eexists. split; [reflexivity|].
    apply Hev; cbn; tauto.
  - rewrite maintenance_run. eexists. split; [reflexivity|].
    apply Hev; cbn; tauto.
  - exists []. split; [|constructor]. unfold ret. rewrite add_output_nil.
    destruct s; reflexivity.
Qed.

(** The event stream of a pass: the events of the categories, in catalog
    order, then the maintenance events, then one [DoneEvent] that carries
    the sums over the category events. *)
Lemma generate_from_run OS h targets fs :
  exists fs' cats maint,
    run_generator (generate_from OS h targets) fs
    = (fs',
       cats ++ maint ++ [DoneEvent (sum_freed cats) (sum_errors cats)],
       Ok tt)
    /\ Forall2 category_event targets cats
    /\ Forall maintenance_event maint.
Proof.
  unfold run_generator, generate_from, bind.
  destruct (for_each_categories_run targets fs gen_init)
    as [fs' [f [e [i [cats [E HF]]]]]].
  rewrite E.
  match goal with
  | |- context [maintenance_phase OS h ?s] =>
      destruct (maintenance_phase_run OS h s) as [maint [E' HM]]
  end.
  rewrite E'. exists fs', cats, maint.
  split; [|split; assumption].
  unfold locals, yield, assign, add_output.
  cbn [fst snd output total_freed total_errors gen_init app].
  rewrite !N.add_0_l, <- app_assoc. reflexivity.
Qed.

Lemma no_done_categories targets cats :
  Forall2 category_event targets cats ->
  filter is_done cats = [].
Proof.
  induction 1 as [|cp ev ? ? [f [i [e E]]] _ IH]; [reflexivity|].
  subst ev. cbn [filter is_done]. exact IH.
Qed.

Lemma no_done_maintenance maint :
  Forall maintenance_event maint -> filter is_done maint = [].
Proof.
  induction 1 as [|ev ? [name [_ E]] _ IH]; [reflexivity|].
  subst ev. cbn [filter is_done]. exact IH.
Qed.


(** C10.  Every maintenance event of a pass is [CleanEvent name 0 1 0]
    ([freed] 0, [items] 1, [errors] 0), with [name] one of "DNS Cache",
    "Recycle Bin", "Sync Disk Buffers"; and the [DoneEvent] carries the
    sums of [freed] and of [errors] over the category events, which are
    also the sums over all the events before it. *)
Theorem maintenance_events_neutral OS h targets fs :
  exists fs' cats maint,
    run_generator (generate_from OS h targets) fs
    = (fs',
       cats ++ maint ++ [DoneEvent (sum_freed cats) (sum_errors cats)],
       Ok tt)
    /\ List.length cats = List.length targets
    /\ Forall maintenance_event maint
    /\ Forall (fun ev => event_freed ev = 0 /\ event_errors ev = 0
                         /\ exists name, ev = CleanEvent name 0 1 0) maint
    /\ sum_freed (cats ++ maint) = sum_freed cats
    /\ sum_errors (cats ++ maint) = sum_errors cats.
Proof.
  destruct (generate_from_run OS h targets fs)
    as [fs' [cats [maint [E [HF HM]]]]].
  exists fs', cats, maint.
  split; [exact E|]. split; [symmetry; eapply Forall2_length, HF|].
  split; [exact HM|].
  assert (H0 : Forall (fun ev => event_freed ev = 0 /\ event_errors ev = 0
                         /\ exists name, ev = CleanEvent name 0 1 0) maint).
  { eapply Forall_impl; [|exact HM]. intros ev [name [_ Hev]]. subst ev.
    cbn. eauto. }
  split; [exact H0|].
  rewrite sum_freed_app, sum_errors_app.
  assert (Hz : sum_freed maint = 0 /\ sum_errors maint = 0).
  { clear -H0. induction H0 as [|ev l [Hf [He _]] _ [IH1 IH2]];
      [split; reflexivity|].
    unfold sum_freed, sum_errors in *. cbn [fold_right].
    rewrite Hf, He, IH1, IH2. split; reflexivity. }
  destruct Hz as [Hz1 Hz2]. rewrite Hz1, Hz2. lia.
Qed.

(** ** What cleaning a directory touches *)

Lemma update_cons c p f m :
  update (c :: p) f m = Some (update_fs (c :: p) f m).
Proof. reflexivity. Qed.

Lemma lstat_update_cons c p f fs c' q :
  lstat (update_fs (c :: p) f fs) (c' :: q)
  = match follow fs with
    | Some (Dir _ es) =>
        match assoc c' (set_entry c (update p f) es) with
        | Some m => lstat m q
        | None => None
        end
    | _ => None
    end.
Proof.
  unfold update_fs. cbn [update lstat]. rewrite follow_on_target.
  destruct (follow fs) as [[a s|a es|t|a]|]; reflexivity.
Qed.

(** An update strictly below [d] changes the entry at [d] only inside
    the directory it resolves to. *)
Lemma lstat_update_above d : forall c r f fs,
  lstat (update_fs (d ++ c :: r) f fs) d
  = option_map (on_target (in_dir (set_entry c (update r f)))) (lstat fs d).
Proof.
  induction d as [|x d IH]; intros c r f fs.
  - reflexivity.
  - cbn [app]. rewrite lstat_update_cons. cbn [lstat].
    destruct (follow fs) as [[a s|a es|t|a]|]; try reflexivity.
    destruct (assoc x es) as [m|] eqn:Ha.
    + destruct (d ++ c :: r) as [|y p] eqn:Ep;
        [destruct d; discriminate|].
      rewrite (assoc_set_entry_some x _ es m _ Ha (update_cons y p f m)).
      rewrite <- Ep. apply IH.
    + rewrite (assoc_set_entry_missing x _ es Ha), Ha. reflexivity.
Qed.

(** An update leaves alone what lies off its path. *)
Lemma lstat_update_diverge l : forall x y r1 r2 f fs,
  x <> y ->
  lstat (update_fs (l ++ x :: r1) f fs) (l ++ y :: r2)
  = lstat fs (l ++ y :: r2).
Proof.
  induction l as [|z l IH]; intros x y r1 r2 f fs Hxy; cbn [app];
    rewrite lstat_update_cons; cbn [lstat];
    destruct (follow fs) as [[a s|a es|t|a]|]; try reflexivity.
  - rewrite assoc_set_entry_other by congruence. reflexivity.
  - destruct (assoc z es) as [m|] eqn:Ha.
    + destruct (l ++ x :: r1) as [|c p] eqn:Ep;
        [destruct l; discriminate|].
      rewrite (assoc_set_entry_some z _ es m _ Ha (update_cons c p f m)).
      rewrite <- Ep. apply IH, Hxy.
    + rewrite (assoc_set_entry_missing z _ es Ha), Ha. reflexivity.
Qed.

(** Two paths: one is a prefix of the other, or they part somewhere. *)
Lemma path_cases (d : path) : forall q : path,
  (exists r, d = q ++ r)
  \/ (exists c r, q = d ++ c :: r)
  \/ (exists l x y r1 r2, x <> y /\ d = l ++ x :: r1 /\ q = l ++ y :: r2).
Proof.
  induction d as [|x d IH]; intros [|y q].
  - left. exists []. reflexivity.
  - right. left. exists y, q. reflexivity.
  - left. exists (x :: d). reflexivity.
  - destruct (string_dec x y) as [E|E].
    + subst y. destruct (IH q) as [[r H]|[[c [r H]]|H]].
      * left. exists r. cbn. congruence.
      * right. left. exists c, r. cbn. congruence.
      * destruct H as [l [x' [y' [r1 [r2 [Hn [H1 H2]]]]]]].
        right. right. exists (x :: l), x', y', r1, r2. subst. auto.
    + right. right. exists [], x, y, d, q. auto.
Qed.

Lemma below_trans d fs1 fs2 fs3 :
  below d fs1 fs2 -> below d fs2 fs3 -> below d fs1 fs3.
Proof.
  intros H12 H23. induction H23; [exact H12|].
  apply below_step. apply IHbelow. exact H12.
Qed.

Lemma below_update d c r f fs : below d fs (update_fs (d ++ c :: r) f fs).
Proof. apply below_step, below_refl. Qed.

Lemma run_op_below d c r f fs :
  below d fs (fst (run_op f (d ++ c :: r) fs)).
Proof.
  unfold run_op. destruct (lstat fs (d ++ c :: r)) as [n|];
    [|apply below_refl].
  destruct (f n); cbn [fst]; [apply below_update|apply below_refl].
Qed.

Lemma force_remove_below d c r fs :
  below d fs (fst (force_remove (d ++ c :: r) fs)).
Proof.
  rewrite force_remove_eq.
  destruct (is_file fs (d ++ c :: r) || is_symlink fs (d ++ c :: r)).
  - pose proof (run_op_below d c r chmod fs) as H1.
    unfold os_chmod_S_IWRITE, os_remove.
    destruct (run_op chmod (d ++ c :: r) fs) as [fs1 [[]|e]]; cbn [fst] in *;
      [|exact H1].
    pose proof (run_op_below d c r unlink fs1) as H2.
    destruct (run_op unlink (d ++ c :: r) fs1) as [fs2 [[]|e]];
      cbn [fst] in *; eapply below_trans; eassumption.
  - destruct (is_dir fs (d ++ c :: r)); cbn [fst]; [|apply below_refl].
    unfold shutil_rmtree. destruct (lstat fs (d ++ c :: r));
      cbn [fst]; [apply below_update|apply below_refl].
Qed.

Lemma clean_step_below d c r b s :
  below d (fst s) (fst (clean_step b s (d ++ c :: r))).
Proof.
  unfold clean_step. destruct s as [fs cs]. rewrite clean_item_eq.
  pose proof (force_remove_below d c r fs) as H.
  destruct (force_remove (d ++ c :: r) fs) as [fs' [[|]|e]]; cbn [fst] in H;
    repeat (break_match; cbn [fst]; try apply below_refl; try exact H).
Qed.

Lemma clean_loop_below d b items : forall s,
  Forall (fun item => exists c r, item = d ++ c :: r) items ->
  below d (fst s) (fst (fold_left (clean_step b) items s)).
Proof.
  induction items as [|item items IH]; intros s Hall; cbn [fold_left].
  - apply below_refl.
  - inversion Hall as [|? ? [c [r E]] Hrest]; subst.
    eapply below_trans; [apply clean_step_below|apply IH, Hrest].
Qed.

Lemma clean_directory_contents_below d b fs :
  below d fs (fst (clean_directory_contents d b fs)).
Proof.
  rewrite clean_directory_contents_eq.
  destruct (exists_ fs d); [|apply below_refl].
  unfold iterdir. destruct (lstat fs d) as [n|]; [|apply below_refl].
  destruct (scandir n) as [es|e]; [|apply below_refl].
  cbn zeta. cbn [fst].
  apply (clean_loop_below d b _ (fs, mkCounters 0 0 0)).
  apply Forall_forall. intros item Hin. apply in_map_iff in Hin.
  destruct Hin as [e [E _]]. exists (fst e), []. symmetry. exact E.
Qed.

Lemma follow_in_dir_kind h n :
  match follow (on_target (in_dir h) n) with
  | Some (Dir _ _) => true
  | _ => false
  end
  = match follow n with Some (Dir _ _) => true | _ => false end.
Proof.
  rewrite follow_on_target.
  destruct (follow n) as [[a s|a es|t|a]|]; reflexivity.
Qed.

Lemma below_is_dir d fs fs' : below d fs fs' -> is_dir fs' d = is_dir fs d.
Proof.
  induction 1 as [|fs fs' c r f _ IH]; [reflexivity|].
  rewrite <- IH. unfold is_dir, stat. rewrite lstat_update_above.
  destruct (lstat fs' d) as [n|]; cbn [option_map]; [|reflexivity].
  apply follow_in_dir_kind.
Qed.

(** What lies off the directory is as it was. *)
Lemma below_off_path d fs fs' :
  below d fs fs' ->
  forall l x y r1 r2,
    x <> y -> d = l ++ x :: r1 ->
    lstat fs' (l ++ y :: r2) = lstat fs (l ++ y :: r2).
Proof.
  induction 1 as [|fs fs' c r f _ IH]; intros l x y r1 r2 Hxy Hd;
    [reflexivity|].
  rewrite <- (IH l x y r1 r2 Hxy Hd). subst d.
  rewrite <- app_assoc. cbn [app]. apply lstat_update_diverge, Hxy.
Qed.

(** Whatever is gone was strictly inside the directory. *)
Lemma below_gone d fs fs' :
  below d fs fs' ->
  forall q, lstat fs q <> None -> lstat fs' q = None ->
            exists c r, q = d ++ c :: r.
Proof.
  intros Hb q Hq Hq'.
  destruct (path_cases d q) as [[r H]|[H|H]].
  - exfalso. apply Hq. clear Hq. revert Hq'.
    induction Hb as [|fs fs' c r0 f _ IH]; [trivial|].
    intro Hn. apply IH. subst d.
    destruct r as [|x r].
    + rewrite app_nil_r in Hn. rewrite lstat_update_above in Hn.
      destruct (lstat fs' q); [discriminate|reflexivity].
    + rewrite <- app_assoc in Hn. cbn [app] in Hn.
      rewrite lstat_update_above in Hn.
      destruct (lstat fs' q); [discriminate|reflexivity].
  - exact H.
  - destruct H as [l [x [y [r1 [r2 [Hxy [Hd Hq2]]]]]]]. subst q.
    rewrite (below_off_path d fs fs' Hb l x y r1 r2 Hxy Hd) in Hq'.
    contradiction.
Qed.

(** ** The model at work *)

(** [shutil.rmtree] with the handler of [force_remove] removes a tree
    whose entries are read-only: the handler sets the write bit and the
    retry succeeds. *)
Example rmtree_read_only_tree :
  rmtree onerror
         (Dir read_only [("a", File read_only 1);
                         ("d", Dir read_only [("l", Symlink None)])])
  = None.
Proof. reflexivity. Qed.

(** It leaves a file in use, and the directories above it, in place. *)
Example rmtree_file_in_use :
  rmtree onerror (Dir rw [("a", File rw 1); ("d", busy_dir)])
  = Some (Dir rw [("d", busy_dir)]).
Proof. reflexivity. Qed.

(** Cleaning a directory of three removable files frees their 600 bytes
    and leaves the directory empty. *)
Example clean_three_files :
  clean_directory_contents ["d"] true (Dir rw [("d", three_files)])
  = (Dir rw [("d", Dir rw [])], Ok (600, 0, 3)).
Proof. vm_compute. reflexivity. Qed.

(** A dangling link among the entries is an error of the pass and stays;
    a link to a file is removed and the size of its target counted. *)
Example clean_links :
  clean_directory_contents ["d"] true
    (Dir rw [("d", Dir rw [("dangling", Symlink None);
                           ("link", Symlink (Some (File rw 7)))])])
  = (Dir rw [("d", Dir rw [("dangling", Symlink None)])], Ok (7, 1, 1)).
Proof. vm_compute. reflexivity. Qed.

(** ** What [force_remove] reports *)

(** On a directory [force_remove] answers [True] whatever
    [shutil.rmtree] could remove: the handler swallows every failure. *)
Lemma force_remove_directory fs p a es :
  lstat fs p = Some (Dir a es) ->
  force_remove p fs
  = (update_fs p (fun _ => rmtree onerror (Dir a es)) fs, Ok true).
Proof.
  intro Hl. rewrite force_remove_eq.
  unfold is_file, is_symlink, is_dir, stat, shutil_rmtree. rewrite Hl.
  reflexivity.
Qed.

(** On a file that cannot be removed it answers [False]. *)
Lemma force_remove_locked_file fs p a s :
  lstat fs p = Some (File a s) -> locked a = true ->
  force_remove p fs = (fs, Ok false).
Proof.
  intros Hl Hk. rewrite force_remove_eq.
  unfold is_file, stat, os_chmod_S_IWRITE, run_op, chmod. rewrite Hl.
  cbn [follow orb chmod_write]. rewrite Hk. reflexivity.
Qed.

(** A pass over a catalog of one category with one existing path. *)
Lemma generate_single_category OS h c p fs fs' f e i :
  exists_ fs p = true ->
  clean_directory_contents p true fs = (fs', Ok (f, e, i)) ->
  exists maint,
    run_generator (generate_from OS h [(c, [p])]) fs
    = (fs', CleanEvent c f i e :: maint ++ [DoneEvent f e], Ok tt)
    /\ Forall maintenance_event maint.
Proof.
  intros Hex E.
  unfold run_generator, generate_from, bind. cbn [for_each].
  unfold bind, clean_category, bind. cbn [snd for_each].
  unfold bind, clean_candidate, bind, Path_exists.
  unfold assign at 1. cbn [fst snd]. rewrite on_fs_query. cbn [fst].
  rewrite Hex. unfold on_fs. cbn [fst snd]. rewrite E.
  unfold assign, ret, locals, yield, assign. cbn [fst snd].
  match goal with
  | |- context [maintenance_phase OS h ?s] =>
      destruct (maintenance_phase_run OS h s) as [maint [E' HM]]
  end.
  rewrite E'. exists maint. split; [|exact HM].
  cbn. rewrite ?N.add_0_l. reflexivity.
Qed.

(** In the scenario the subdirectory that cannot be opened is counted as
    an item removed, with 0 bytes, whatever it holds and whether or not
    anything of it could be removed. *)
Lemma clean_scenario_directory a es :
  readable a = false ->
  exists fs',
    clean_directory_contents ["tmp"; "x"] true (scenario_fs (Dir a es))
    = (fs', Ok (1500, 0, 4)).
Proof.
  destruct a as [r w l]. cbn [readable]. intro Hr. subst r.
  destruct w, l, es as [|e es]; eexists; cbv; reflexivity.
Qed.

(** C1 (what the code does).  In the scenario of the specification, with
    a subdirectory [locked] that cannot be opened and is not empty, the
    pass yields [CleanEvent "Temp"] with freed 1500, items 4 and errors
    0, and ends with [DoneEvent] 1500 0: the directory that could not be
    removed is reported as removed and no error is counted. *)
Theorem clean_scenario_reports_locked_directory_removed :
  forall OS h,
  exists fs' maint,
    run_generator (generate_from OS h scenario_catalog)
                  (scenario_fs (Dir unreadable [("z", File rw 10)]))
    = (fs',
       CleanEvent "Temp" 1500 4 0 :: maint ++ [DoneEvent 1500 0],
       Ok tt)
    /\ Forall maintenance_event maint
    /\ lstat fs' ["tmp"; "x"; "locked"; "z"] = Some (File rw 10).
Proof.
  intros OS h.
  destruct (generate_single_category OS h "Temp" ["tmp"; "x"]
              (scenario_fs (Dir unreadable [("z", File rw 10)]))
              (Dir rw [("tmp", Dir rw [("x",
                 Dir rw [("locked", Dir unreadable [("z", File rw 10)])])])])
              1500 0 4 eq_refl)
    as [maint [E HM]].
  - vm_compute. reflexivity.
  - eexists. exists maint. split; [exact E|]. split; [exact HM|].
    reflexivity.
Qed.

(** C7 (what the code does).  A first pass over [busy_fs] removes the old
    log and ends with errors 0 for its one category, although the file
    in use and its directory are still there; the second pass, over the
    file system the first one left, reports freed 500 and items 1
    again. *)
Theorem clean_twice_reports_again :
  forall OS h,
  exists fs1 maint1 fs2 maint2,
    run_generator (generate_from OS h scenario_catalog) busy_fs
    = (fs1,
       CleanEvent "Temp" 800 2 0 :: maint1 ++ [DoneEvent 800 0],
       Ok tt)
    /\ run_generator (generate_from OS h scenario_catalog) fs1
       = (fs2,
          CleanEvent "Temp" 500 1 0 :: maint2 ++ [DoneEvent 500 0],
          Ok tt)
    /\ lstat fs2 ["tmp"; "x"; "busy"; "f"] = Some (File in_use 500).
Proof.
  intros OS h.
  destruct (generate_single_category OS h "Temp" ["tmp"; "x"]
              busy_fs busy_fs_cleaned 800 0 2 eq_refl)
    as [maint1 [E1 _]]; [vm_compute; reflexivity|].
  destruct (generate_single_category OS h "Temp" ["tmp"; "x"]
              busy_fs_cleaned busy_fs_cleaned 500 0 1 eq_refl)
    as [maint2 [E2 _]]; [vm_compute; reflexivity|].
  exists busy_fs_cleaned, maint1, busy_fs_cleaned, maint2.
  split; [exact E1|]. split; [exact E2|]. reflexivity.
Qed.

(** ** What a pass touches *)

Lemma touched_trans ps fs1 fs2 fs3 :
  touched ps fs1 fs2 -> touched ps fs2 fs3 -> touched ps fs1 fs3.
Proof.
  intros H12 H23. induction H23 as [|fs2 fs3 fs4 p Hp _ IH Hb];
    [exact H12|].
  eapply touched_step; [exact Hp|apply IH, H12|exact Hb].
Qed.

Lemma touched_incl ps ps' fs fs' :
  incl ps ps' -> touched ps fs fs' -> touched ps' fs fs'.
Proof.
  intros Hi H. induction H as [|fs fs1 fs2 p Hp _ IH Hb];
    [apply touched_refl|].
  eapply touched_step; [apply Hi, Hp|exact IH|exact Hb].
Qed.

Lemma clean_candidate_below p fs l :
  below p fs (fst (fst (clean_candidate p (fs, l)))).
Proof.
  unfold clean_candidate, bind, Path_exists. rewrite on_fs_query. cbn [fst].
  destruct (exists_ fs p); [|apply below_refl].
  unfold on_fs, assign. cbn [fst snd].
  pose proof (clean_directory_contents_below p true fs) as Hb.
  destruct (clean_directory_contents p true fs) as [fs1 [fei|e]];
    exact Hb.
Qed.

Lemma for_each_paths_touched ps : forall fs l,
  touched ps fs (fst (fst (for_each ps clean_candidate (fs, l)))).
Proof.
  induction ps as [|p ps IH]; intros fs l; cbn [for_each].
  - apply touched_refl.
  - unfold bind.
    pose proof (clean_candidate_below p fs l) as Hb.
    destruct (clean_candidate_run p fs l) as [fs1 [f1 [e1 [i1 E]]]].
    rewrite E in *. cbn [fst] in Hb.
    eapply touched_trans.
    + eapply touched_step; [left; reflexivity|apply touched_refl|exact Hb].
    + eapply touched_incl; [|apply IH]. intros q Hq. right. exact Hq.
Qed.

Lemma clean_category_touched cp fs l :
  touched (snd cp) fs (fst (fst (clean_category cp (fs, l)))).
Proof.
  unfold clean_category, bind. unfold assign at 1. cbn [fst snd].
  pose proof (for_each_paths_touched (snd cp) fs (reset_category l)) as Ht.
  destruct (for_each_paths_run (snd cp) fs (reset_category l))
    as [fs' [f [e [i E]]]].
  rewrite E in *. exact Ht.
Qed.

Lemma for_each_categories_touched targets : forall fs l,
  touched (candidates targets) fs
          (fst (fst (for_each targets clean_category (fs, l)))).
Proof.
  induction targets as [|cp targets IH]; intros fs l; cbn [for_each].
  - apply touched_refl.
  - unfold bind.
    pose proof (clean_category_touched cp fs l) as Ht.
    destruct (clean_category_run cp fs l) as [fs1 [f1 [e1 [i1 E]]]].
    rewrite E in *. cbn [fst] in Ht.
    unfold candidates. cbn [flat_map].
    eapply touched_trans.
    + eapply touched_incl; [|exact Ht]. apply incl_appl, incl_refl.
    + eapply touched_incl; [|apply IH]. apply incl_appr, incl_refl.
Qed.

Lemma generate_from_touched OS h targets fs :
  touched (candidates targets) fs
          (fst (fst (run_generator (generate_from OS h targets) fs))).
Proof.
  unfold run_generator, generate_from, bind.
  pose proof (for_each_categories_touched targets fs gen_init) as Ht.
  destruct (for_each_categories_run targets fs gen_init)
    as [fs' [f [e [i [cats [E _]]]]]].
  rewrite E in *. cbn [fst] in Ht.
  match goal with
  | |- context [maintenance_phase OS h ?s] =>
      destruct (maintenance_phase_run OS h s) as [maint [E' _]]
  end.
  rewrite E'. exact Ht.
Qed.

(** Updates strictly inside [p] keep a directory [d] that is not
    strictly inside [p]. *)
Lemma below_keeps_directory p d fs fs' :
  below p fs fs' -> ~ strictly_inside p d ->
  is_dir fs' d = is_dir fs d.
Proof.
  intros Hb Hn. induction Hb as [|fs fs' c r f _ IH]; [reflexivity|].
  rewrite <- IH. unfold is_dir, stat.
  destruct (path_cases p d) as [[r' H]|[H|H]].
  - subst p. rewrite <- app_assoc.
    destruct (r' ++ c :: r) as [|c' r''] eqn:Er;
      [destruct r'; discriminate|].
    rewrite lstat_update_above.
    destruct (lstat fs' d) as [n|]; cbn [option_map]; [|reflexivity].
    apply follow_in_dir_kind.
  - contradiction.
  - destruct H as [l [x [y [r1 [r2 [Hxy [Hp Hd]]]]]]]. subst p d.
    rewrite <- app_assoc. cbn [app].
    rewrite lstat_update_diverge by exact Hxy. reflexivity.
Qed.

Lemma touched_keeps_directory ps d fs fs' :
  touched ps fs fs' ->
  (forall p, In p ps -> ~ strictly_inside p d) ->
  is_dir fs' d = is_dir fs d.
Proof.
  intros Ht Hn. induction Ht as [|fs fs1 fs2 p Hp _ IH Hb]; [reflexivity|].
  rewrite <- IH. apply (below_keeps_directory p); [exact Hb|apply Hn, Hp].
Qed.

(** A whole pass keeps every directory that no candidate path of the
    catalog strictly contains. *)
Lemma generate_keeps_directory OS h targets fs d :
  (forall p, In p (candidates targets) -> ~ strictly_inside p d) ->
  is_dir (fst (fst (run_generator (generate_from OS h targets) fs))) d
  = is_dir fs d.
Proof.
  intro Hn. eapply touched_keeps_directory; [|exact Hn].
  apply generate_from_touched.
Qed.



(** * More of the program *)

(** ** Paths *)

Lemma lstat_app d : forall fs q,
  lstat fs (d ++ q)
  = match lstat fs d with
    | Some m => lstat m q
    | None => None
    end.
Proof.
  induction d as [|c d IH]; intros fs q; cbn [app lstat]; [reflexivity|].
  destruct (follow fs) as [[a s|a es|t|a]|]; try reflexivity.
  destruct (assoc c es) as [m|]; [apply IH|reflexivity].
Qed.

(** ** [shutil.rmtree], one level at a time *)

Lemma rmtree_dir h a es :
  rmtree h (Dir a es)
  = if readable a then attempt h rmdir (Dir a (remove_entries h es))
    else match h scandir_op (Dir a es) with
         | Some n1 => attempt h rmdir n1
         | None => None
         end.
Proof.
  cbn [rmtree]. destruct (readable a); [|reflexivity].
  apply f_equal. apply f_equal.
  induction es as [|[name e] es IH]; cbn [remove_entries]; [reflexivity|].
  rewrite <- IH. unfold remove_entry. destruct e; reflexivity.
Qed.

Lemma plain_removable_dir a es :
  plain_removable (Dir a es)
  = readable a && negb (locked a)
    && forallb (fun e => plain_removable (snd e)) es.
Proof.
  cbn [plain_removable]. apply f_equal.
  induction es as [|e es IH]; cbn [forallb]; [reflexivity|].
  rewrite IH. reflexivity.
Qed.

Lemma rmdir_empty_unlocked a :
  locked a = false -> attempt onerror rmdir (Dir a []) = None.
Proof.
  intro Hk. unfold attempt, rmdir, removable. rewrite Hk.
  destruct (writable a); cbn [andb negb]; [reflexivity|].
  unfold onerror, chmod. cbn [chmod_write]. rewrite Hk.
  unfold removable. cbn [set_writable writable locked]. rewrite Hk.
  reflexivity.
Qed.

Lemma unlink_file_unlocked a s :
  locked a = false -> attempt onerror unlink (File a s) = None.
Proof.
  intro Hk. unfold attempt, unlink, removable. rewrite Hk.
  destruct (writable a); cbn [andb negb]; [reflexivity|].
  unfold onerror, chmod. cbn [chmod_write]. rewrite Hk.
  unfold removable. cbn [set_writable writable locked]. rewrite Hk.
  reflexivity.
Qed.

(** A tree that can be removed whole is removed whole. *)
Lemma rmtree_plain_removable n :
  plain_removable n = true -> remove_entry onerror n = None.
Proof.
  induction n as [a s|a es IH| |t _|a] using node_induction;
    try discriminate.
  - cbn [plain_removable remove_entry]. intro H.
    apply unlink_file_unlocked. apply negb_true_iff. exact H.
  - rewrite plain_removable_dir, !andb_true_iff, negb_true_iff.
    intros [[Hr Hk] Hall]. cbn [remove_entry].
    rewrite rmtree_dir, Hr.
    assert (E : remove_entries onerror es = []).
    { clear Hr Hk. induction es as [|[name e] es IHes]; [reflexivity|].
      cbn [remove_entries forallb snd] in *.
      apply andb_true_iff in Hall. destruct Hall as [He Hes].
      inversion IH as [|? ? IHe IHrest]; subst. cbn [snd] in IHe.
      rewrite (IHe He). apply IHes; assumption. }
    rewrite E. apply rmdir_empty_unlocked, Hk.
Qed.

(** ** Cleaning a directory whose entries can all be removed *)

Lemma lstat_child fs d a k n rest :
  lstat fs d = Some (Dir a ((k, n) :: rest)) ->
  lstat fs (d ++ [k]) = Some n.
Proof.
  intro Hd. rewrite lstat_app, Hd. cbn [lstat follow assoc].
  rewrite String.eqb_refl. reflexivity.
Qed.

Lemma lstat_parent_after fs d a k n rest f :
  lstat fs d = Some (Dir a ((k, n) :: rest)) ->
  lstat (update_fs (d ++ [k]) f fs) d
  = Some (Dir a (match f n with
                 | Some n' => (k, n') :: rest
                 | None => rest
                 end)).
Proof.
  intro Hd. rewrite lstat_update_above, Hd.
  cbn [option_map on_target in_dir set_entry update].
  rewrite String.eqb_refl. reflexivity.
Qed.

Lemma force_remove_plain fs d a k n rest :
  lstat fs d = Some (Dir a ((k, n) :: rest)) ->
  plain_removable n = true ->
  exists fs',
    force_remove (d ++ [k]) fs = (fs', Ok true)
    /\ lstat fs' d = Some (Dir a rest).
Proof.
  intros Hd Hp. pose proof (lstat_child _ _ _ _ _ _ Hd) as Hl.
  destruct n as [fa s|a' es'|t|a']; try discriminate.
  - cbn [plain_removable] in Hp. apply negb_true_iff in Hp.
    set (x := File (set_writable fa) s).
    set (fs1 := update_fs (d ++ [k]) (fun _ => Some x) fs).
    assert (H1 : lstat fs1 (d ++ [k]) = Some x)
      by (eapply lstat_update_some; [exact Hl|reflexivity]).
    assert (Hd1 : lstat fs1 d = Some (Dir a ((k, x) :: rest)))
      by (unfold fs1; rewrite (lstat_parent_after _ _ _ _ _ _ _ Hd);
          reflexivity).
    exists (update_fs (d ++ [k]) (fun _ => @None node) fs1). split.
    + rewrite force_remove_eq. unfold is_file, stat. rewrite Hl.
      cbn [follow orb]. unfold os_chmod_S_IWRITE, os_remove, run_op, chmod.
      rewrite Hl. cbn [chmod_write]. rewrite Hp. fold x. fold fs1.
      rewrite H1. unfold x at 1. cbn [unlink]. unfold removable.
      cbn [set_writable writable locked]. rewrite Hp. reflexivity.
    + rewrite (lstat_parent_after _ _ _ _ _ _ _ Hd1). reflexivity.
  - exists (update_fs (d ++ [k])
                      (fun _ => rmtree onerror (Dir a' es')) fs). split.
    + apply force_remove_directory. exact Hl.
    + rewrite (lstat_parent_after _ _ _ _ _ _ _ Hd).
      change (rmtree onerror (Dir a' es'))
        with (remove_entry onerror (Dir a' es')).
      rewrite (rmtree_plain_removable _ Hp). reflexivity.
Qed.

Lemma clean_step_plain fs c d a k n rest :
  lstat fs d = Some (Dir a ((k, n) :: rest)) ->
  plain_removable n = true ->
  exists fs',
    clean_step true (fs, c) (d ++ [k])
    = (fs', removed (add_entry 0 (k, n)) c)
    /\ lstat fs' d = Some (Dir a rest).
Proof.
  intros Hd Hp. pose proof (lstat_child _ _ _ _ _ _ Hd) as Hl.
  destruct (force_remove_plain _ _ _ _ _ _ Hd Hp) as [fs' [E Hd']].
  exists fs'. split; [|exact Hd'].
  unfold clean_step. rewrite clean_item_eq, E.
  unfold is_dir, is_file, stat, get_dir_size_path. rewrite Hl.
  destruct n as [fa s|a' es'|t|a']; try discriminate; reflexivity.
Qed.

Lemma clean_loop_plain d a es : forall fs c,
  lstat fs d = Some (Dir a es) ->
  forallb (fun e => plain_removable (snd e)) es = true ->
  exists fs',
    fold_left (clean_step true) (map (fun e => d ++ [fst e]) es) (fs, c)
    = (fs',
       mkCounters (freed c + fold_left add_entry es 0) (errors c)
                  (items_removed c + N.of_nat (List.length es)))
    /\ lstat fs' d = Some (Dir a []).
Proof.
  induction es as [|[k n] es IH]; intros fs c Hd Hall.
  - exists fs. split; [|exact Hd]. cbn. rewrite !N.add_0_r.
    destruct c; reflexivity.
  - cbn [forallb snd] in Hall. apply andb_true_iff in Hall.
    destruct Hall as [Hn Hes].
    destruct (clean_step_plain fs c d a k n es Hd Hn) as [fs1 [E1 Hd1]].
    destruct (IH fs1 (removed (add_entry 0 (k, n)) c) Hd1 Hes)
      as [fs' [E' Hd']].
    exists fs'. split; [|exact Hd'].
    cbn [map fold_left fst]. rewrite E1, E'.
    cbn [removed freed errors items_removed fold_left List.length].
    rewrite (fold_left_add_entry es (add_entry 0 (k, n))).
    rewrite Nat2N.inj_succ, <- N.add_assoc, <- N.add_assoc, N.add_1_l.
    reflexivity.
Qed.



Lemma clean_directory_contents_empty d a fs :
  lstat fs d = Some (Dir a []) -> readable a = true ->
  clean_directory_contents d true fs = (fs, Ok (0, 0, 0)).
Proof.
  intros Hd Hr. rewrite clean_directory_contents_eq.
  unfold exists_, stat, iterdir, scandir. rewrite Hd. cbn [follow].
  rewrite Hr. reflexivity.
Qed.



(** ** The counters of [clean_directory_contents] *)

Lemma clean_step_counters b s item :
  snd (clean_step b s item) = snd s
  \/ snd (clean_step b s item) = failed (snd s)
  \/ exists sz, snd (clean_step b s item) = removed sz (snd s).
Proof.
  unfold clean_step. destruct s as [fs c]. rewrite clean_item_eq.
  repeat (break_match; cbn [fst snd]; eauto).
Qed.

(** Each turn adds at most one to [errors + items_removed]; [freed]
    grows only with [items_removed]. *)
Lemma clean_loop_counters b items : forall s,
  let s' := fold_left (clean_step b) items s in
  errors (snd s') + items_removed (snd s')
  <= errors (snd s) + items_removed (snd s) + N.of_nat (List.length items)
  /\ items_removed (snd s) <= items_removed (snd s')
  /\ errors (snd s) <= errors (snd s')
  /\ (items_removed (snd s') = items_removed (snd s) ->
      freed (snd s') = freed (snd s)).
Proof.
  induction items as [|item items IH]; intro s; cbn zeta;
    cbn [fold_left List.length].
  - repeat split; try lia.
  - specialize (IH (clean_step b s item)). cbn zeta in IH.
    destruct IH as [H1 [H2 [H3 H4]]]. rewrite Nat2N.inj_succ.
    destruct (clean_step_counters b s item) as [E|[E|[sz E]]];
      rewrite E in *; cbn [failed removed errors items_removed freed] in *;
      repeat split; lia.
Qed.



(** ** What one removal touches *)

Lemma updated_trans P fs1 fs2 fs3 :
  updated P fs1 fs2 -> updated P fs2 fs3 -> updated P fs1 fs3.
Proof.
  intros H12 H23. induction H23; [exact H12|].
  apply updated_step; [assumption|]. apply IHupdated. exact H12.
Qed.

Lemma run_op_updated f p fs : updated (eq p) fs (fst (run_op f p fs)).
Proof.
  unfold run_op. destruct (lstat fs p) as [n|]; [|apply updated_refl].
  destruct (f n); cbn [fst]; [|apply updated_refl].
  apply updated_step; [reflexivity|apply updated_refl].
Qed.

(** [force_remove] changes the entry it is given, and nothing else. *)
Lemma force_remove_updated p fs :
  updated (eq p) fs (fst (force_remove p fs)).
Proof.
  rewrite force_remove_eq.
  destruct (is_file fs p || is_symlink fs p).
  - pose proof (run_op_updated chmod p fs) as H1.
    unfold os_chmod_S_IWRITE, os_remove.
    destruct (run_op chmod p fs) as [fs1 [[]|e]]; cbn [fst] in *;
      [|exact H1].
    pose proof (run_op_updated unlink p fs1) as H2.
    destruct (run_op unlink p fs1) as [fs2 [[]|e]];
      cbn [fst] in *; eapply updated_trans; eassumption.
  - destruct (is_dir fs p); cbn [fst]; [|apply updated_refl].
    unfold shutil_rmtree. destruct (lstat fs p); cbn [fst];
      [|apply updated_refl].
    apply updated_step; [reflexivity|apply updated_refl].
Qed.

Lemma clean_step_updated b s item :
  updated (eq item) (fst s) (fst (clean_step b s item)).
Proof.
  unfold clean_step. destruct s as [fs cs]. rewrite clean_item_eq.
  pose proof (force_remove_updated item fs) as H.
  destruct (force_remove item fs) as [fs' [[|]|e]]; cbn [fst] in H;
    repeat (break_match; cbn [fst]; try apply updated_refl; try exact H).
Qed.

Lemma updated_diverge l x r1 fs fs' :
  updated (eq (l ++ x :: r1)) fs fs' ->
  forall y r2, x <> y ->
               lstat fs' (l ++ y :: r2) = lstat fs (l ++ y :: r2).
Proof.
  induction 1 as [|fs fs' p f Hp _ IH]; intros y r2 Hxy; [reflexivity|].
  subst p. rewrite lstat_update_diverge by exact Hxy. apply IH, Hxy.
Qed.

(** ** Cleaning without deleting subfolders *)

Lemma clean_loop_keeps_subfolder d k fs0 es : forall s,
  (forall r, lstat (fst s) (d ++ k :: r) = lstat fs0 (d ++ k :: r)) ->
  is_dir fs0 (d ++ [k]) = true ->
  forall r,
    lstat (fst (fold_left (clean_step false)
                          (map (fun e : string * node => d ++ [fst e]) es) s))
          (d ++ k :: r)
    = lstat fs0 (d ++ k :: r).
Proof.
  induction es as [|[k' n] es IH]; intros s Hs Hd r; cbn [map fold_left];
    [apply Hs|].
  apply IH; [|exact Hd]. clear r. intro r. cbn [fst].
  destruct (String.eqb_spec k' k) as [E|E].
  - subst k'. destruct s as [fs c]. cbn [fst] in Hs. unfold clean_step.
    rewrite clean_item_eq.
    assert (Hd' : is_dir fs (d ++ [k]) = true).
    { unfold is_dir, stat in *. rewrite (Hs []). exact Hd. }
    rewrite Hd'. apply Hs.
  - rewrite (updated_diverge d k' [] (fst s) _
                             (clean_step_updated false s (d ++ [k']))
                             k r E).
    apply Hs.
Qed.



(** ** What [force_remove] says about a regular file *)



(** ** Human-readable sizes *)

Lemma to_float_exact n : n < 2 ^ 53 -> to_float n = n.
Proof.
  intro H. unfold to_float.
  destruct (N.leb_spec (N.size n) 53) as [_|Hs]; [reflexivity|].
  exfalso. destruct (N.eq_dec n 0) as [E|E].
  - subst n. cbn in Hs. lia.
  - rewrite N.size_log2 in Hs by exact E.
    assert (N.log2 n < 53) by (apply N.log2_lt_pow2; lia). lia.
Qed.

Lemma round_half_even_bounds num den :
  num / den <= round_half_even num den <= num / den + 1.
Proof.
  unfold round_half_even.
  destruct (N.ltb (2 * (num mod den)) den); [lia|].
  destruct (N.ltb den (2 * (num mod den))); [lia|].
  destruct (N.even (num / den)); lia.
Qed.

Lemma round_half_even_unit num : round_half_even num 1 = num.
Proof.
  unfold round_half_even. rewrite N.mod_1_r, N.div_1_r. reflexivity.
Qed.

Lemma pow2_53_1034 : 2 ^ 53 < 2 ^ 1034.
Proof. apply N.pow_lt_mono_r; lia. Qed.

(** The loop of [format_bytes] in closed form, for sizes below 2^53. *)
Lemma format_bytes_closed_form size :
  size < 2 ^ 53 ->
  format_bytes size
  = Some (render (shown size (unit_index size))
                 (unit_name (unit_index size))).
Proof.
  intro H53. pose proof pow2_53_1034 as Hbig.
  unfold format_bytes, units, unit_index, shown.
  assert (Hov : N.ltb size (2 ^ 1034) = true) by (apply N.ltb_lt; lia).
  cbn [format_loop lt_1024 div_1024 hundredths].
  rewrite (to_float_exact size H53), Hov.
  replace (2 ^ 10) with 1024 by reflexivity.
  destruct (N.ltb_spec size 1024) as [H0|H0].
  { replace (10 * 0) with 0 by reflexivity. rewrite N.pow_0_r.
    rewrite round_half_even_unit. reflexivity. }
  cbn [format_loop lt_1024 div_1024 hundredths].
  replace (1024 * 2 ^ 10) with (2 ^ 20) by reflexivity.
  destruct (N.ltb_spec size (2 ^ 20)) as [H1|H1]; [reflexivity|].
  cbn [format_loop lt_1024 div_1024 hundredths].
  replace (1024 * 2 ^ (10 + 10)) with (2 ^ 30) by reflexivity.
  destruct (N.ltb_spec size (2 ^ 30)) as [H2|H2]; [reflexivity|].
  cbn [format_loop lt_1024 div_1024 hundredths].
  replace (1024 * 2 ^ (10 + 10 + 10)) with (2 ^ 40) by reflexivity.
  destruct (N.ltb_spec size (2 ^ 40)) as [H3|H3]; [reflexivity|].
  cbn [format_loop lt_1024 div_1024 hundredths].
  replace (1024 * 2 ^ (10 + 10 + 10 + 10)) with (2 ^ 50) by reflexivity.
  destruct (N.ltb_spec size (2 ^ 50)) as [H4|H4]; reflexivity.
Qed.

Lemma shown_range size j :
  2 ^ (10 * j) <= size -> size < 1024 * 2 ^ (10 * j) ->
  100 <= shown size j <= 102400.
Proof.
  intros Hlo Hhi. unfold shown.
  set (den := 2 ^ (10 * j)) in *.
  assert (Hden : den <> 0) by (apply N.pow_nonzero; lia).
  pose proof (round_half_even_bounds (size * 100) den) as [H1 H2].
  assert (100 <= size * 100 / den)
    by (apply N.div_le_lower_bound; [exact Hden|nia]).
  assert (size * 100 / den < 102400)
    by (apply N.Div0.div_lt_upper_bound; nia).
  lia.
Qed.

(** X6.  For a size below 2^53 bytes [format_bytes] returns the size
    divided by the largest power of 1024 not above it (at most 1024^5),
    rounded half to even to two decimals, followed by the unit of that
    power: B below 1024, KB below 1024^2, MB, GB, TB, and PB from 1024^5
    on.  A size below 1024 is shown as itself with ".00 B". *)
Theorem format_bytes_by_magnitude size :
  size < 2 ^ 53 ->
  format_bytes size
  = Some (render (shown size (unit_index size))
                 (unit_name (unit_index size)))
  /\ (size < 1024 ->
      format_bytes size
      = Some (String.append (decimal size) ".00 B")).
Proof.
  intro H. split; [apply format_bytes_closed_form, H|].
  intro Hs. rewrite (format_bytes_closed_form size H).
  unfold unit_index. replace (2 ^ 10) with 1024 by reflexivity.
  destruct (N.ltb_spec size 1024) as [_|Hge]; [|lia].
  unfold shown. replace (10 * 0) with 0 by reflexivity.
  rewrite N.pow_0_r, round_half_even_unit. unfold render.
  rewrite N.div_mul by lia. rewrite N.Div0.mod_mul. reflexivity.
Qed.

Lemma format_bytes_by_magnitude_witness :
  format_bytes 123456789 = Some "117.74 MB"
  /\ format_bytes 1023 = Some "1023.00 B".
Proof.
  split.
  - rewrite (proj1 (format_bytes_by_magnitude 123456789 eq_refl)).
    reflexivity.
  - rewrite (proj2 (format_bytes_by_magnitude 1023 eq_refl) eq_refl).
    reflexivity.
Defined.

(** X7.  From 1024 bytes up to (not including) 1024^5, the number
    [format_bytes] shows lies between 1.00 and 1024.00, both included:
    the largest sizes of a unit are rounded up to 1024.00 of that unit
    (1048575 bytes are "1024.00 KB"), not shown as 1.00 of the next. *)
Theorem format_bytes_number_range :
  (forall size,
      1024 <= size -> size < 2 ^ 50 ->
      exists h,
        format_bytes size = Some (render h (unit_name (unit_index size)))
        /\ 100 <= h <= 102400)
  /\ format_bytes 1048575 = Some "1024.00 KB".
Proof.
  split; [|reflexivity].
  intros size Hlo Hhi.
  assert (H53 : size < 2 ^ 53).
  { eapply N.lt_trans; [exact Hhi|]. apply N.pow_lt_mono_r; lia. }
  exists (shown size (unit_index size)).
  split; [apply format_bytes_closed_form, H53|].
  apply shown_range; unfold unit_index;
    replace (2 ^ 10) with 1024 by reflexivity;
    destruct (N.ltb_spec size 1024) as [H0|H0]; try lia;
    destruct (N.ltb_spec size (2 ^ 20)) as [H1|H1];
    try (replace (10 * 1) with 10 by reflexivity;
         replace (2 ^ 10) with 1024 by reflexivity;
         replace (2 ^ 20) with (1024 * 1024) in H1 by reflexivity; lia);
    destruct (N.ltb_spec size (2 ^ 30)) as [H2|H2];
    try (replace (10 * 2) with 20 by reflexivity;
         replace (2 ^ 30) with (1024 * 2 ^ 20) in H2 by reflexivity; lia);
    destruct (N.ltb_spec size (2 ^ 40)) as [H3|H3];
    try (replace (10 * 3) with 30 by reflexivity;
         replace (2 ^ 40) with (1024 * 2 ^ 30) in H3 by reflexivity; lia);
    destruct (N.ltb_spec size (2 ^ 50)) as [H4|H4]; try lia;
    replace (10 * 4) with 40 by reflexivity;
    replace (2 ^ 50) with (1024 * 2 ^ 40) in H4 by reflexivity; lia.
Qed.

Lemma format_bytes_number_range_witness :
  exists h,
    format_bytes 5000 = Some (render h "KB") /\ 100 <= h <= 102400.
Proof.
  destruct (proj1 format_bytes_number_range 5000 ltac:(lia) eq_refl)
    as [h [E Hh]].
  exists h. split; [exact E|exact Hh].
Defined.

(** ** The largest files of the home directory *)

Lemma walk_files_dir top a es :
  walk_files top (Dir a es)
  = if readable a then
      flat_map (fun e : string * node =>
                  if walks_as_dir (snd e) then []
                  else file_record (top ++ [fst e]) (snd e)) es
      ++ flat_map (walk_entry top) es
    else [].
Proof.
  cbn [walk_files]. destruct (readable a); [|reflexivity].
  apply f_equal.
  induction es as [|[name e] es IH]; cbn [flat_map]; [reflexivity|].
  rewrite IH. unfold walk_entry. cbn [fst snd]. reflexivity.
Qed.

Lemma file_record_in p e x :
  In x (file_record p e) ->
  exists a,
    follow e = Some (File a (lf_size x))
    /\ lf_path x = p
    /\ threshold < lf_size x
    /\ format_bytes (lf_size x) = Some (lf_size_human x).
Proof.
  unfold file_record.
  destruct (follow e) as [t|]; [|intros []].
  destruct (N.ltb_spec threshold (size_of t)) as [Ht|Ht]; [|intros []].
  destruct (format_bytes (size_of t)) as [h|] eqn:Hf; [|intros []].
  intros [E|[]]. subst x. cbn [lf_size lf_path lf_size_human].
  destruct t as [a s|a es|t|a]; cbn [size_of] in *;
    try (exfalso; unfold threshold in Ht; lia).
  exists a. auto.
Qed.

Lemma in_assoc es k m :
  distinct (map fst es) = true -> In (k, m) es -> assoc k es = Some m.
Proof.
  induction es as [|[k0 m0] es IH]; cbn [map fst distinct In assoc];
    [intros _ []|].
  rewrite andb_true_iff, negb_true_iff. intros [Hk Hd] [E|Hin].
  - inversion E; subst. rewrite String.eqb_refl. reflexivity.
  - destruct (String.eqb_spec k0 k) as [E|E]; [|apply IH; assumption].
    subst k0. exfalso.
    assert (existsb (String.eqb k) (map fst es) = true).
    { apply existsb_exists. exists k. split; [|apply String.eqb_refl].
      apply in_map_iff. exists (k, m). auto. }
    congruence.
Qed.

(** Every file the walk collects is a file of the tree, of more than
    50 MB, below directories that are not pruned. *)
Lemma walk_files_sound n : forall top x,
  unique_names n = true ->
  In x (walk_files top n) ->
  exists rel a,
    lf_path x = top ++ rel
    /\ rel <> []
    /\ stat n rel = Some (File a (lf_size x))
    /\ Forall (fun c => pruned c = false) (removelast rel).
Proof.
  induction n as [a s|a es IH| |t IH|a] using node_induction;
    intros top x Hu Hin; try contradiction.
  - rewrite walk_files_dir in Hin.
    destruct (readable a); [|contradiction].
    apply in_app_or in Hin. destruct Hin as [Hin|Hin];
      apply in_flat_map in Hin; destruct Hin as [[name e] [He Hx]].
    + cbn [fst snd] in Hx.
      destruct (walks_as_dir e); [contradiction|].
      destruct (file_record_in _ _ _ Hx) as [fa [Hf [Hp _]]].
      exists [name], fa. split; [exact Hp|]. split; [discriminate|].
      split; [|constructor].
      unfold stat. cbn [lstat follow].
      rewrite unique_names_dir in Hu. apply andb_true_iff in Hu.
      rewrite (in_assoc es name e (proj1 Hu) He). exact Hf.
    + unfold walk_entry in Hx. cbn [fst snd] in Hx.
      destruct e as [fa s|a' es'|t|a']; try contradiction.
      destruct (pruned name) eqn:Hpr; [contradiction|].
      rewrite Forall_forall in IH. specialize (IH _ He). cbn [snd] in IH.
      pose proof Hu as Hu'.
      rewrite unique_names_dir in Hu. apply andb_true_iff in Hu.
      destruct Hu as [Hd Hall].
      assert (Ha : assoc name es = Some (Dir a' es'))
        by (apply in_assoc; assumption).
      destruct (unique_names_child _ _ _ _ Hu' Ha) as [_ Hue].
      destruct (IH (top ++ [name]) x Hue Hx)
        as [rel [fa [Hp [Hne [Hs Hpr']]]]].
      exists (name :: rel), fa.
      split; [rewrite Hp, <- app_assoc; reflexivity|].
      split; [discriminate|]. split.
      * unfold stat in *. cbn [lstat follow]. rewrite Ha. exact Hs.
      * destruct rel as [|c rel]; [congruence|].
        cbn [removelast] in *. constructor; assumption.
  - cbn [walk_files unique_names] in *.
    destruct (IH top x Hu Hin) as [rel [fa [Hp [Hne [Hs Hpr]]]]].
    exists rel, fa. repeat split; try assumption.
    destruct rel as [|c rel]; [congruence|].
    unfold stat in *. cbn [lstat follow] in *. exact Hs.
Qed.

Lemma walk_files_large n : forall top x,
  In x (walk_files top n) ->
  threshold < lf_size x
  /\ format_bytes (lf_size x) = Some (lf_size_human x).
Proof.
  induction n as [a s|a es IH| |t IH|a] using node_induction;
    intros top x Hin; try contradiction.
  - rewrite walk_files_dir in Hin.
    destruct (readable a); [|contradiction].
    apply in_app_or in Hin. destruct Hin as [Hin|Hin];
      apply in_flat_map in Hin; destruct Hin as [[name e] [He Hx]].
    + cbn [fst snd] in Hx.
      destruct (walks_as_dir e); [contradiction|].
      destruct (file_record_in _ _ _ Hx) as [fa [_ [_ H]]]. exact H.
    + unfold walk_entry in Hx. cbn [fst snd] in Hx.
      destruct e as [fa s|a' es'|t|a']; try contradiction.
      destruct (pruned name); [contradiction|].
      rewrite Forall_forall in IH. apply (IH _ He _ _ Hx).
  - cbn [walk_files] in Hin. apply (IH top x Hin).
Qed.

(** Every large file the walk comes to is collected. *)
Lemma walk_files_complete n rel e :
  walk_reaches n rel e ->
  forall top a s h,
    follow e = Some (File a s) -> threshold < s ->
    format_bytes s = Some h ->
    In (mkLargeFile (top ++ rel) s h) (walk_files top n).
Proof.
  induction 1 as [a es name e Hr Hin|a es name a' es' rel e Hr Hin Hpr _ IH];
    intros top fa s h Hf Ht Hh; rewrite walk_files_dir, Hr;
    apply in_or_app.
  - left. apply in_flat_map. exists (name, e). split; [exact Hin|].
    cbn [fst snd]. unfold walks_as_dir, file_record. rewrite Hf.
    cbn [size_of]. destruct (N.ltb_spec threshold s); [|lia].
    rewrite Hh. left. reflexivity.
  - right. apply in_flat_map. exists (name, Dir a' es').
    split; [exact Hin|]. unfold walk_entry. cbn [fst snd]. rewrite Hpr.
    specialize (IH (top ++ [name]) fa s h Hf Ht Hh).
    rewrite <- app_assoc in IH. exact IH.
Qed.

Lemma unique_names_lstat p : forall fs n,
  unique_names fs = true -> lstat fs p = Some n -> unique_names n = true.
Proof.
  induction p as [|c p IH]; intros fs n Hu Hl; cbn [lstat] in Hl.
  - inversion Hl; subst. exact Hu.
  - destruct (follow fs) as [[a s|a es|t|a]|] eqn:Hf; try discriminate.
    destruct (assoc c es) as [m|] eqn:Ha; [|discriminate].
    pose proof (unique_names_follow _ _ Hu Hf) as Hd.
    destruct (unique_names_child _ _ _ _ Hd Ha) as [_ Hm].
    apply (IH m n Hm Hl).
Qed.

Lemma firstn_incl {A} k : forall (l : list A) y,
  In y (firstn k l) -> In y l.
Proof.
  induction k as [|k IH]; intros [|x l] y; cbn [firstn]; try contradiction.
  intros [E|Hy]; [left; exact E|right; apply IH, Hy].
Qed.

Lemma StronglySorted_firstn {A} (R : A -> A -> Prop) k : forall l,
  StronglySorted R l -> StronglySorted R (firstn k l).
Proof.
  induction k as [|k IH]; intros l Hs; [constructor|].
  destruct Hs as [|x l Hs Hall]; cbn [firstn]; constructor.
  - apply IH, Hs.
  - rewrite Forall_forall in *. intros y Hy. apply Hall.
    eapply firstn_incl. exact Hy.
Qed.

(** What is cut off a sorted list is below everything that is kept. *)
Lemma firstn_sorted_top {A} (key : A -> N) k : forall l x,
  StronglySorted (fun a b => key b <= key a) l ->
  In x l ->
  In x (firstn k l)
  \/ (List.length (firstn k l) = k
      /\ forall y, In y (firstn k l) -> key x <= key y).
Proof.
  induction k as [|k IH]; intros l x Hs Hin.
  - right. split; [reflexivity|]. intros y [].
  - destruct Hs as [|z l Hs Hall]; [contradiction|]. cbn [firstn].
    destruct Hin as [E|Hin]; [left; left; exact E|].
    destruct (IH l x Hs Hin) as [H|[Hlen Hle]].
    + left. right. exact H.
    + right. split; [cbn [List.length]; rewrite Hlen; reflexivity|].
      intros y [E|Hy]; [|apply Hle, Hy]. subst y.
      rewrite Forall_forall in Hall. apply (Hall x Hin).
Qed.

(** X8.  The list of large files of [sysinfo] has at most 20 entries, in
    non-increasing order of size; every entry is larger than 50 MB
    (52428800 bytes) and carries its size as [format_bytes] shows it. *)
Theorem large_files_shape fs home :
  (List.length (large_files fs home) <= 20)%nat
  /\ StronglySorted at_least (large_files fs home)
  /\ (forall x, In x (large_files fs home) ->
                52428800 < lf_size x
                /\ format_bytes (lf_size x) = Some (lf_size_human x)).
Proof.
  unfold large_files. destruct (lstat fs home) as [n|].
  - split; [apply firstn_le_length|]. split.
    + apply StronglySorted_firstn. apply (sort_reverse_sorted lf_size).
    + intros x Hx. apply firstn_incl in Hx.
      apply (Permutation_in x (sort_reverse_perm lf_size _)) in Hx.
      apply (walk_files_large n home x Hx).
  - split; [cbn; lia|]. split; [constructor|intros x []].
Qed.

(** X9.  Every entry of the list is a regular file of the file system
    (after links are resolved) with the size the entry gives, at a path
    below the home directory none of whose directory names starts with
    a dot or is one of node_modules, .git, venv, __pycache__,
    AppData. *)
Theorem large_files_sound fs home x :
  unique_names fs = true ->
  In x (large_files fs home) ->
  exists rel a,
    lf_path x = home ++ rel
    /\ stat fs (lf_path x) = Some (File a (lf_size x))
    /\ Forall (fun c => pruned c = false) (removelast rel).
Proof.
  intros Hu Hx. unfold large_files in Hx.
  destruct (lstat fs home) as [n|] eqn:Hl; [|contradiction].
  apply firstn_incl in Hx.
  apply (Permutation_in x (sort_reverse_perm lf_size _)) in Hx.
  pose proof (unique_names_lstat home fs n Hu Hl) as Hn.
  destruct (walk_files_sound n home x Hn Hx) as [rel [a [Hp [_ [Hs Hpr]]]]].
  exists rel, a. split; [exact Hp|]. split; [|exact Hpr].
  rewrite Hp. unfold stat in *. rewrite lstat_app, Hl. exact Hs.
Qed.

Lemma large_files_sound_witness :
  exists rel a,
    ["home"; "u"; "proj"; "out.bin"] = ["home"; "u"] ++ rel
    /\ stat home_fs ["home"; "u"; "proj"; "out.bin"]
       = Some (File a 60000000)
    /\ Forall (fun c => pruned c = false) (removelast rel).
Proof.
  exact (large_files_sound home_fs ["home"; "u"]
           (mkLargeFile ["home"; "u"; "proj"; "out.bin"] 60000000
                        "57.22 MB")
           eq_refl (or_intror (or_introl eq_refl))).
Defined.



(** ** Optimizations *)

Lemma for_each_perform (w : machine) acts : forall (s : trace * list task_result),
  for_each acts (fun a => lift_state (perform w a)) s
  = ((fst s ++ attempted w acts, snd s),
     match first_failure w acts with
     | None => Ok tt
     | Some e => Raise e
     end).
Proof.
  induction acts as [|a acts IH]; intros [t rs];
    cbn [for_each attempted first_failure fst snd].
  - unfold ret. rewrite app_nil_r. reflexivity.
  - unfold bind, lift_state, perform. cbn [fst snd].
    destruct (w a) as [[]|e].
    + rewrite IH. cbn [fst snd]. rewrite <- app_assoc. reflexivity.
    + reflexivity.
Qed.

Lemma one_task_run w name acts ok (s : trace * list task_result) :
  one_task w name acts ok s
  = ((fst s ++ attempted w acts,
      snd s ++ [task_outcome w (name, acts, ok)]),
     Ok tt).
Proof.
  unfold one_task, try_except_as, bind. rewrite for_each_perform.
  unfold task_outcome, results_append. cbn [fst snd].
  destruct (first_failure w acts); reflexivity.
Qed.

(** [optimize] task by task. *)
Lemma run_optimize_tasks OS w :
  run_optimize OS w
  = (flat_map (fun t => attempted w (snd (fst t))) (tasks OS),
     map (task_outcome w) (tasks OS),
     Ok tt).
Proof.
  unfold run_optimize, optimize, tasks.
  destruct (String.eqb OS "Windows"); [|destruct (String.eqb OS "Darwin")];
    unfold bind; rewrite ?one_task_run; cbn [fst snd app flat_map map];
    rewrite ?app_nil_r, <- ?app_assoc; reflexivity.
Qed.

Lemma task_outcome_status w t :
  task (task_outcome w t) = fst (fst t)
  /\ (status (task_outcome w t) = "failed"
      /\ error (task_outcome w t) <> None
      \/ status (task_outcome w t) = snd t
         /\ error (task_outcome w t) = None).
Proof.
  unfold task_outcome. destruct (first_failure w (snd (fst t))).
  - split; [reflexivity|]. left. split; [reflexivity|discriminate].
  - split; [reflexivity|]. right. split; reflexivity.
Qed.

(** X11.  [optimize] never raises and reports every task of the
    platform once, in a fixed order, whatever fails: four on Windows,
    two on Darwin, two on any other platform (handled as Linux).  An
    entry either has status "failed" and an error, or has status "done"
    ("started" for the disk cleanup) and no error. *)
Theorem optimize_reports_every_task OS w :
  exists t rs,
    run_optimize OS w = (t, rs, Ok tt)
    /\ map task rs
       = (if String.eqb OS "Windows" then
            ["Flush DNS Cache"; "Refresh IP Configuration";
             "Empty Recycle Bin"; "Windows Disk Cleanup"]
          else if String.eqb OS "Darwin" then
            ["Flush DNS Cache"; "Purge Inactive Memory"]
          else ["Sync Disk Buffers"; "Flush DNS Cache"])
    /\ Forall (fun r =>
                 status r = "failed" /\ error r <> None
                 \/ In (status r) ["done"; "started"] /\ error r = None)
              rs.
Proof.
  rewrite run_optimize_tasks. do 2 eexists. split; [reflexivity|]. split.
  - rewrite map_map. unfold tasks.
    destruct (String.eqb OS "Windows"); [|destruct (String.eqb OS "Darwin")];
      cbn [map]; repeat (f_equal; try apply task_outcome_status).
  - apply Forall_forall. intros r Hr. apply in_map_iff in Hr.
    destruct Hr as [t [E Ht]]. subst r.
    destruct (task_outcome_status w t) as [_ [H|[Hs He]]]; [left; exact H|].
    right. split; [|exact He]. rewrite Hs. clear Hs He. unfold tasks in Ht.
    destruct (String.eqb OS "Windows"); [|destruct (String.eqb OS "Darwin")];
      cbn [In] in Ht;
      repeat (destruct Ht as [Ht|Ht]; [subst t; cbn; tauto|]);
      contradiction.
Qed.

Lemma first_failure_none w acts :
  first_failure w acts = None <-> Forall (fun a => w a = Ok tt) acts.
Proof.
  induction acts as [|a acts IH]; cbn [first_failure].
  - split; [constructor|reflexivity].
  - destruct (w a) as [[]|e] eqn:Ea.
    + rewrite IH. split.
      * intro H. constructor; assumption.
      * intro H. inversion H; assumption.
    + split; [discriminate|]. intro H. inversion H; congruence.
Qed.

(** X12.  In [optimize] a failure stays inside its task.  The requests
    made are, task after task, those of the task up to the first that
    raises; so the first request of every task is made whatever failed
    before, and nothing of a task is requested after one of its
    requests raised (no renewal after a failed release).  The entry of
    a task has the status of success when all its requests returned,
    and is "failed" with the first exception otherwise. *)
Theorem optimize_isolates_failures OS w :
  exists t rs,
    run_optimize OS w = (t, rs, Ok tt)
    /\ t = flat_map (fun tk => attempted w (snd (fst tk))) (tasks OS)
    /\ (forall name a rest ok,
           In (name, a :: rest, ok) (tasks OS) -> In a t)
    /\ (forall name acts ok,
           In (name, acts, ok) (tasks OS) ->
           (Forall (fun a => w a = Ok tt) acts ->
            In (mkTaskResult name ok None) rs)
           /\ (forall e, first_failure w acts = Some e ->
                         In (mkTaskResult name "failed" (Some e)) rs)).
Proof.
  rewrite run_optimize_tasks. do 2 eexists.
  split; [reflexivity|]. split; [reflexivity|]. split.
  - intros name a rest ok Hin. apply in_flat_map.
    exists (name, a :: rest, ok). split; [exact Hin|].
    cbn [fst snd attempted]. destruct (w a); left; reflexivity.
  - intros name acts ok Hin. split.
    + intro Hall. apply first_failure_none in Hall.
      apply in_map_iff. exists (name, acts, ok). split; [|exact Hin].
      unfold task_outcome. cbn [fst snd]. rewrite Hall. reflexivity.
    + intros e He. apply in_map_iff. exists (name, acts, ok).
      split; [|exact Hin].
      unfold task_outcome. cbn [fst snd]. rewrite He. reflexivity.
Qed.

Lemma optimize_isolates_failures_witness :
  exists t rs,
    run_optimize "Windows" no_ipconfig = (t, rs, Ok tt)
    /\ In SHEmptyRecycleBin t
    /\ ~ In (subprocess_run ["ipconfig"; "/renew"] 30) t
    /\ In (mkTaskResult "Refresh IP Configuration" "failed"
                        (Some FileNotFoundError)) rs
    /\ In (mkTaskResult "Empty Recycle Bin" "done" None) rs.
Proof.
  destruct (optimize_isolates_failures "Windows" no_ipconfig)
    as [t [rs [E [Ht [Hfirst Hres]]]]].
  exists t, rs. split; [exact E|]. split; [|split; [|split]].
  - apply (Hfirst "Empty Recycle Bin" SHEmptyRecycleBin [] "done").
    cbn. tauto.
  - rewrite Ht. cbn. intros [H|[H|[H|[H|[]]]]]; discriminate H.
  - apply (proj2 (Hres "Refresh IP Configuration"
                       [subprocess_run ["ipconfig"; "/release"] 15;
                        subprocess_run ["ipconfig"; "/renew"] 30] "done"
                       ltac:(cbn; tauto)) FileNotFoundError eq_refl).
  - apply (proj1 (Hres "Empty Recycle Bin" [SHEmptyRecycleBin] "done"
                       ltac:(cbn; tauto))).
    constructor; [reflexivity|constructor].
Defined.

(** ** Cleaning only removes *)

Lemma thinned_refl (R : node -> node -> Prop) es :
  Forall (fun e => R (snd e) (snd e)) es -> thinned R es es.
Proof.
  induction 1 as [|[k n] es Hn _ IH]; constructor; assumption.
Qed.

Lemma shrinks_refl n : shrinks n n.
Proof.
  induction n as [a s|a es IH| |t IH|a] using node_induction;
    constructor; try reflexivity; try assumption.
  apply thinned_refl, IH.
Qed.

Lemma thinned_same (R : node -> node -> Prop) es :
  (forall n, R n n) -> thinned R es es.
Proof.
  intro HR. induction es as [|[k n] es IH]; constructor; auto.
Qed.

Lemma chmod_write_shrinks n n' :
  chmod_write n = Ok n' -> shrinks n n'.
Proof.
  revert n'.
  induction n as [a s|a es _| |t IH|a] using node_induction; intros n';
    cbn [chmod_write]; try discriminate;
    try (destruct (locked a); [discriminate|];
         intro E; inversion E; subst; constructor; try reflexivity;
         apply thinned_same, shrinks_refl).
  destruct (chmod_write t) as [t'|e]; [|discriminate].
  intro E. inversion E; subst. constructor. apply IH. reflexivity.
Qed.

Lemma thinned_trans es1 : forall es2 es3,
  Forall (fun e => forall n2 n3,
              shrinks (snd e) n2 -> shrinks n2 n3 -> shrinks (snd e) n3)
         es1 ->
  thinned shrinks es1 es2 -> thinned shrinks es2 es3 ->
  thinned shrinks es1 es3.
Proof.
  intros es2 es3 Hall H12. revert es3.
  induction H12 as [|k n n' es1 es2 Hn _ IH|k n es1 es2 _ IH];
    intros es3 H23.
  - exact H23.
  - inversion Hall as [|? ? Hhead Htail]; subst. cbn [snd] in Hhead.
    inversion H23 as [|? ? n'' ? es3' Hn' H23'|? ? ? ? H23']; subst.
    + apply thinned_keep; [eapply Hhead; eassumption|].
      apply IH; assumption.
    + apply thinned_drop. apply IH; assumption.
  - inversion Hall; subst. apply thinned_drop. apply IH; assumption.
Qed.

Lemma shrinks_trans n1 : forall n2 n3,
  shrinks n1 n2 -> shrinks n2 n3 -> shrinks n1 n3.
Proof.
  induction n1 as [a s|a es IH| |t IH|a] using node_induction;
    intros n2 n3 H12 H23; inversion H12; subst; inversion H23; subst;
    constructor; try congruence.
  - eapply thinned_trans; eassumption.
  - eapply IH; eassumption.
Qed.

Lemma unlink_inert : inert unlink.
Proof.
  intros m r. unfold unlink.
  destruct m as [a s|a es|t|a]; try destruct (removable a); discriminate.
Qed.

Lemma rmdir_inert : inert rmdir.
Proof.
  intros m r. unfold rmdir.
  destruct m as [a s|a [|e es]|t|a]; try destruct (removable a);
    discriminate.
Qed.

Lemma scandir_op_inert : inert scandir_op.
Proof.
  intros m r. unfold scandir_op. destruct (scandir m); [|discriminate].
  intro E. inversion E. reflexivity.
Qed.

Lemma islink_op_inert : inert islink_op.
Proof. intros m r E. inversion E. reflexivity. Qed.

(** What the handler of [force_remove] leaves of an entry. *)
Lemma onerror_shrinks func n r :
  inert func -> onerror func n = Some r -> shrinks n r.
Proof.
  intros Hf. unfold onerror, chmod.
  destruct (chmod_write n) as [n1|e] eqn:Ec.
  - pose proof (chmod_write_shrinks _ _ Ec) as H1.
    destruct (func n1) as [[r1|]|e] eqn:Ef.
    + intro E. inversion E; subst. rewrite (Hf _ _ Ef). exact H1.
    + discriminate.
    + intro E. inversion E; subst. exact H1.
  - intro E. inversion E; subst. apply shrinks_refl.
Qed.

Lemma attempt_shrinks func n r :
  inert func -> attempt onerror func n = Some r -> shrinks n r.
Proof.
  intros Hf. unfold attempt. destruct (func n) as [[r1|]|e] eqn:Ef.
  - intro E. inversion E; subst. rewrite (Hf _ _ Ef). apply shrinks_refl.
  - discriminate.
  - apply onerror_shrinks, Hf.
Qed.

Lemma remove_entries_thinned es :
  Forall (fun e => forall r, remove_entry onerror (snd e) = Some r ->
                             shrinks (snd e) r) es ->
  thinned shrinks es (remove_entries onerror es).
Proof.
  induction 1 as [|[k n] es Hn _ IH]; cbn [remove_entries];
    [constructor|].
  cbn [snd] in Hn. destruct (remove_entry onerror n) as [n'|] eqn:E.
  - apply thinned_keep; [apply Hn; reflexivity|exact IH].
  - apply thinned_drop. exact IH.
Qed.

(** What [shutil.rmtree] leaves of a tree is the tree with entries
    removed. *)
Lemma remove_entry_shrinks n : forall r,
  remove_entry onerror n = Some r -> shrinks n r.
Proof.
  induction n as [a s|a es IH| |t _|a] using node_induction; intros r;
    try (cbn [remove_entry]; apply attempt_shrinks, unlink_inert).
  cbn [remove_entry]. rewrite rmtree_dir.
  destruct (readable a).
  - intro E. apply attempt_shrinks in E; [|apply rmdir_inert].
    eapply shrinks_trans; [|exact E].
    constructor; [reflexivity|]. apply remove_entries_thinned, IH.
  - destruct (onerror scandir_op (Dir a es)) as [n1|] eqn:E1;
      [|discriminate].
    intro E. apply attempt_shrinks in E; [|apply rmdir_inert].
    apply onerror_shrinks in E1; [|apply scandir_op_inert].
    eapply shrinks_trans; eassumption.
Qed.

Lemma rmtree_shrinks n r : rmtree onerror n = Some r -> shrinks n r.
Proof.
  destruct n as [a s|a es|t|a].
  - cbn [rmtree].
    destruct (onerror scandir_op (File a s)) as [n1|] eqn:E1;
      [|discriminate].
    intro E. apply attempt_shrinks in E; [|apply rmdir_inert].
    apply onerror_shrinks in E1; [|apply scandir_op_inert].
    eapply shrinks_trans; eassumption.
  - apply (remove_entry_shrinks (Dir a es)).
  - cbn [rmtree]. apply onerror_shrinks, islink_op_inert.
  - cbn [rmtree].
    destruct (onerror scandir_op (Special a)) as [n1|] eqn:E1;
      [|discriminate].
    intro E. apply attempt_shrinks in E; [|apply rmdir_inert].
    apply onerror_shrinks in E1; [|apply scandir_op_inert].
    eapply shrinks_trans; eassumption.
Qed.

Lemma add_entry_shrinks k n n' :
  shrinks n n' ->
  (get_dir_size n' <= get_dir_size n) ->
  add_entry 0 (k, n') <= add_entry 0 (k, n).
Proof.
  intros Hs Hsz. unfold add_entry. cbn [snd].
  inversion Hs; subst; cbn [entry_is_file entry_is_dir size_of]; lia.
Qed.

Lemma thinned_size es es' :
  thinned shrinks es es' ->
  Forall (fun e => forall n', shrinks (snd e) n' ->
                              get_dir_size n' <= get_dir_size (snd e)) es ->
  fold_left add_entry es' 0 <= fold_left add_entry es 0.
Proof.
  induction 1 as [|k n n' es es' Hn _ IH|k n es es' _ IH]; intro Hall.
  - reflexivity.
  - inversion Hall as [|? ? Hhead Htail]; subst. cbn [snd] in Hhead.
    cbn [fold_left].
    rewrite (fold_left_add_entry es' (add_entry 0 (k, n'))).
    rewrite (fold_left_add_entry es (add_entry 0 (k, n))).
    pose proof (add_entry_shrinks k n n' Hn (Hhead n' Hn)).
    specialize (IH Htail). lia.
  - inversion Hall as [|? ? Hhead Htail]; subst. cbn [fold_left].
    rewrite (fold_left_add_entry es (add_entry 0 (k, n))).
    specialize (IH Htail). lia.
Qed.

(** A tree that shrinks does not get larger for [get_dir_size]. *)
Lemma shrinks_size n : forall n',
  shrinks n n' -> get_dir_size n' <= get_dir_size n.
Proof.
  induction n as [a s|a es IH| |t IH|a] using node_induction;
    intros n' Hs; inversion Hs; subst; try reflexivity.
  - rewrite !get_dir_size_dir.
    match goal with H : readable _ = readable _ |- _ => rewrite H end.
    destruct (readable a); [|reflexivity].
    apply thinned_size; assumption.
  - cbn [get_dir_size]. apply IH. assumption.
Qed.

Lemma thinned_names (R : node -> node -> Prop) es es' k :
  thinned R es es' ->
  existsb (String.eqb k) (map fst es') = true ->
  existsb (String.eqb k) (map fst es) = true.
Proof.
  induction 1 as [|k0 n n' es es' _ _ IH|k0 n es es' _ IH];
    cbn [map fst existsb]; trivial.
  - rewrite !orb_true_iff. intros [H|H]; [left; exact H|right; auto].
  - intro H. rewrite (IH H). apply orb_true_r.
Qed.

Lemma thinned_distinct (R : node -> node -> Prop) es es' :
  thinned R es es' ->
  distinct (map fst es) = true -> distinct (map fst es') = true.
Proof.
  induction 1 as [|k0 n n' es es' _ Ht IH|k0 n es es' _ IH];
    cbn [map fst distinct]; trivial.
  - rewrite !andb_true_iff, !negb_true_iff. intros [Hk Hd].
    split; [|apply IH, Hd].
    destruct (existsb (String.eqb k0) (map fst es')) eqn:E; [|reflexivity].
    rewrite (thinned_names _ _ _ _ Ht E) in Hk. discriminate.
  - rewrite andb_true_iff. intros [_ Hd]. apply IH, Hd.
Qed.

(** A tree that shrinks keeps its names distinct. *)
Lemma shrinks_unique_names n : forall n',
  shrinks n n' -> unique_names n = true -> unique_names n' = true.
Proof.
  induction n as [a s|a es IH| |t IH|a] using node_induction;
    intros n' Hs; inversion Hs as [| ? ? ? es' _ Ht | |? t' Ht|]; subst;
    try reflexivity.
  - rewrite !unique_names_dir, !andb_true_iff. intros [Hd Hall].
    split; [eapply thinned_distinct; eassumption|].
    clear Hd Hs. induction Ht as [|k n n' es es' Hn _ IHt|k n es es' _ IHt].
    + reflexivity.
    + inversion IH as [|? ? Hhead Htail]; subst. cbn [snd] in Hhead.
      cbn [forallb snd] in *. apply andb_true_iff in Hall.
      destruct Hall as [H1 H2].
      rewrite (Hhead n' Hn H1), (IHt Htail H2). reflexivity.
    + inversion IH as [|? ? Hhead Htail]; subst.
      cbn [forallb snd] in Hall. apply andb_true_iff in Hall.
      apply IHt; tauto.
  - cbn [unique_names]. apply IH. exact Ht.
Qed.

Lemma follow_shrinks n n' :
  shrinks n n' ->
  forall t', follow n' = Some t' ->
             exists t, follow n = Some t /\ shrinks t t'.
Proof.
  induction 1 as [a a' s Hr|a a' es es' Hr Ht| |t t' _ IH|a a' Hr];
    intros x; cbn [follow]; try discriminate;
    try (intro E; inversion E; subst; eexists; split; [reflexivity|];
         constructor; assumption).
  apply IH.
Qed.

Lemma assoc_some_name c es m :
  assoc c es = Some m -> existsb (String.eqb c) (map fst es) = true.
Proof.
  induction es as [|[k n] es IH]; cbn [assoc map fst existsb];
    [discriminate|].
  rewrite String.eqb_sym. destruct (String.eqb c k); [reflexivity|].
  apply IH.
Qed.

Lemma thinned_assoc c es es' :
  thinned shrinks es es' ->
  distinct (map fst es) = true ->
  forall m', assoc c es' = Some m' ->
             exists m, assoc c es = Some m /\ shrinks m m'.
Proof.
  induction 1 as [|k n n' es es' Hn _ IH|k n es es' Ht IH];
    cbn [map fst distinct assoc]; intros Hd m'.
  - discriminate.
  - apply andb_true_iff in Hd. destruct Hd as [_ Hd].
    destruct (String.eqb k c).
    + intro E. inversion E; subst. eauto.
    + apply IH, Hd.
  - apply andb_true_iff in Hd. destruct Hd as [Hk Hd].
    apply negb_true_iff in Hk. intro E.
    destruct (IH Hd m' E) as [m [Ha Hs]].
    destruct (String.eqb_spec k c) as [Ek|Ek].
    + subst k. rewrite (assoc_some_name _ _ _ Ha) in Hk. discriminate.
    + eauto.
Qed.

(** What exists in a tree that shrank existed before, and shrank. *)
Lemma shrinks_lstat q : forall n n' m',
  unique_names n = true -> shrinks n n' ->
  lstat n' q = Some m' ->
  exists m, lstat n q = Some m /\ shrinks m m'.
Proof.
  induction q as [|c q IH]; intros n n' m' Hu Hs; cbn [lstat].
  - intro E. inversion E; subst. eauto.
  - destruct (follow n') as [[a s|a' es'|t|a]|] eqn:Hf'; try discriminate.
    destruct (follow_shrinks _ _ Hs _ Hf') as [d [Hf Hd]].
    rewrite Hf. inversion Hd as [|a ? es ? _ Ht| | |]; subst.
    destruct (assoc c es') as [x'|] eqn:Ha'; [|discriminate].
    pose proof (unique_names_follow _ _ Hu Hf) as Hud.
    pose proof Hud as Hud'. rewrite unique_names_dir in Hud'.
    apply andb_true_iff in Hud'.
    destruct (thinned_assoc c es es' Ht (proj1 Hud') x' Ha')
      as [x [Ha Hx]].
    rewrite Ha. destruct (unique_names_child _ _ _ _ Hud Ha) as [_ Hux].
    apply (IH x x' m' Hux Hx).
Qed.

(** What [shrinks] means for a user of the file system. *)
Lemma shrinks_observed fs fs' :
  shrinks fs fs' -> unique_names fs = true -> nothing_added fs fs'.
Proof.
  intros Hs Hu. split; [eapply shrinks_unique_names; eassumption|].
  intro q. unfold exists_, is_dir, is_file, stat, get_dir_size_path.
  destruct (lstat fs' q) as [m'|] eqn:Hl'.
  - destruct (shrinks_lstat q fs fs' m' Hu Hs Hl') as [m [Hl Hm]].
    rewrite Hl. split; [discriminate|].
    assert (Hk : forall t', follow m' = Some t' ->
                            exists t, follow m = Some t /\ shrinks t t')
      by (apply follow_shrinks, Hm).
    destruct (follow m') as [t'|]; repeat split; try discriminate;
      try (destruct (Hk t' eq_refl) as [t [Hf Ht]]; rewrite Hf;
           inversion Ht; subst; trivial; discriminate);
      apply shrinks_size, Hm.
  - split; [congruence|]. repeat split; try discriminate. apply N.le_0_l.
Qed.

Lemma on_target_shrinks g n :
  (forall d, follow n = Some d -> shrinks d (g d)) ->
  shrinks n (on_target g n).
Proof.
  induction n as [a s|a es _| |t IH|a] using node_induction;
    cbn [on_target follow]; intro H; try (apply H; reflexivity).
  - constructor.
  - constructor. apply IH, H.
Qed.

Lemma set_entry_thinned c u es :
  (forall m m', assoc c es = Some m -> u m = Some m' -> shrinks m m') ->
  thinned shrinks es (set_entry c u es).
Proof.
  induction es as [|[k m0] es IH]; cbn [set_entry assoc]; intro H.
  - constructor.
  - destruct (String.eqb k c).
    + destruct (u m0) as [m'|] eqn:Eu.
      * apply thinned_keep; [apply (H m0 m' eq_refl Eu)|].
        apply thinned_same, shrinks_refl.
      * apply thinned_drop, thinned_same, shrinks_refl.
    + apply thinned_keep; [apply shrinks_refl|apply IH, H].
Qed.

(** Replacing the entry at [p] by nothing, or by a shrunk version of
    itself, shrinks the tree. *)
Lemma update_shrinks p r : forall fs,
  (forall n n', lstat fs p = Some n -> r = Some n' -> shrinks n n') ->
  shrinks fs (update_fs p (fun _ => r) fs).
Proof.
  induction p as [|c p IH]; intros fs H; unfold update_fs; cbn [update].
  - destruct r as [n'|]; [|apply shrinks_refl].
    apply (H fs n' eq_refl eq_refl).
  - apply on_target_shrinks. intros d Hf.
    destruct d as [a s|a es|t|a]; cbn [in_dir]; try apply shrinks_refl.
    constructor; [reflexivity|].
    apply set_entry_thinned. intros m m' Ha Hu.
    specialize (IH m). unfold update_fs in IH. rewrite Hu in IH.
    apply IH. intros n n' Hl Hr. apply (H n n'); [|exact Hr].
    cbn [lstat]. rewrite Hf, Ha. exact Hl.
Qed.

Lemma chmod_shrinks n r : chmod n = Ok (Some r) -> shrinks n r.
Proof.
  unfold chmod. destruct (chmod_write n) as [n'|e] eqn:E; [|discriminate].
  intro H. inversion H; subst. eapply chmod_write_shrinks. exact E.
Qed.

Lemma run_op_shrinks f p fs :
  (forall n r, f n = Ok (Some r) -> shrinks n r) ->
  shrinks fs (fst (run_op f p fs)).
Proof.
  intro Hf. unfold run_op.
  destruct (lstat fs p) as [n|] eqn:Hl; [|apply shrinks_refl].
  destruct (f n) as [r|e] eqn:E; cbn [fst]; [|apply shrinks_refl].
  apply update_shrinks. intros n0 n' Hl0 Hr. subst r.
  rewrite Hl in Hl0. inversion Hl0; subst. apply Hf, E.
Qed.

Lemma shutil_rmtree_shrinks p fs :
  shrinks fs (fst (shutil_rmtree p onerror fs)).
Proof.
  unfold shutil_rmtree.
  destruct (lstat fs p) as [n|] eqn:Hl; cbn [fst]; [|apply shrinks_refl].
  apply update_shrinks. intros n0 n' Hl0 Hr.
  rewrite Hl in Hl0. inversion Hl0; subst. apply rmtree_shrinks, Hr.
Qed.

(** [force_remove] only removes. *)
Lemma force_remove_shrinks p fs : shrinks fs (fst (force_remove p fs)).
Proof.
  rewrite force_remove_eq.
  destruct (is_file fs p || is_symlink fs p).
  - pose proof (run_op_shrinks chmod p fs chmod_shrinks) as H1.
    unfold os_chmod_S_IWRITE, os_remove.
    destruct (run_op chmod p fs) as [fs1 [[]|e]]; cbn [fst] in *;
      [|exact H1].
    assert (Hu : forall n r, unlink n = Ok (Some r) -> shrinks n r).
    { intros n r E. rewrite (unlink_inert n r E). apply shrinks_refl. }
    pose proof (run_op_shrinks unlink p fs1 Hu) as H2.
    destruct (run_op unlink p fs1) as [fs2 [[]|e]];
      cbn [fst] in *; eapply shrinks_trans; eassumption.
  - destruct (is_dir fs p); cbn [fst]; [|apply shrinks_refl].
    pose proof (shutil_rmtree_shrinks p fs) as H.
    destruct (shutil_rmtree p onerror fs) as [fs1 [[]|e]]; exact H.
Qed.

Lemma clean_step_shrinks b s item :
  shrinks (fst s) (fst (clean_step b s item)).
Proof.
  unfold clean_step. destruct s as [fs cs]. rewrite clean_item_eq.
  pose proof (force_remove_shrinks item fs) as H.
  destruct (force_remove item fs) as [fs' [[|]|e]]; cbn [fst] in H;
    repeat (break_match; cbn [fst]; try apply shrinks_refl; try exact H).
Qed.

Lemma clean_loop_shrinks b items : forall s,
  shrinks (fst s) (fst (fold_left (clean_step b) items s)).
Proof.
  induction items as [|item items IH]; intros s; cbn [fold_left].
  - apply shrinks_refl.
  - eapply shrinks_trans; [apply clean_step_shrinks|apply IH].
Qed.

Lemma clean_directory_contents_shrinks d b fs :
  shrinks fs (fst (clean_directory_contents d b fs)).
Proof.
  rewrite clean_directory_contents_eq.
  destruct (exists_ fs d); [|apply shrinks_refl].
  unfold iterdir. destruct (lstat fs d) as [n|]; [|apply shrinks_refl].
  destruct (scandir n) as [es|e]; [|apply shrinks_refl].
  cbn zeta. cbn [fst].
  apply (clean_loop_shrinks b _ (fs, mkCounters 0 0 0)).
Qed.

Lemma clean_candidate_shrinks p fs l :
  shrinks fs (fst (fst (clean_candidate p (fs, l)))).
Proof.
  unfold clean_candidate, bind, Path_exists. rewrite on_fs_query. cbn [fst].
  destruct (exists_ fs p); [|apply shrinks_refl].
  unfold on_fs, assign. cbn [fst snd].
  pose proof (clean_directory_contents_shrinks p true fs) as Hb.
  destruct (clean_directory_contents p true fs) as [fs1 [fei|e]];
    exact Hb.
Qed.

Lemma for_each_paths_shrinks ps : forall fs l,
  shrinks fs (fst (fst (for_each ps clean_candidate (fs, l)))).
Proof.
  induction ps as [|p ps IH]; intros fs l; cbn [for_each].
  - apply shrinks_refl.
  - unfold bind.
    pose proof (clean_candidate_shrinks p fs l) as Hb.
    destruct (clean_candidate_run p fs l) as [fs1 [f1 [e1 [i1 E]]]].
    rewrite E in *. cbn [fst] in Hb.
    eapply shrinks_trans; [exact Hb|apply IH].
Qed.

Lemma clean_category_shrinks cp fs l :
  shrinks fs (fst (fst (clean_category cp (fs, l)))).
Proof.
  unfold clean_category, bind. unfold assign at 1. cbn [fst snd].
  pose proof (for_each_paths_shrinks (snd cp) fs (reset_category l)) as Ht.
  destruct (for_each_paths_run (snd cp) fs (reset_category l))
    as [fs' [f [e [i E]]]].
  rewrite E in *. exact Ht.
Qed.

Lemma for_each_categories_shrinks targets : forall fs l,
  shrinks fs (fst (fst (for_each targets clean_category (fs, l)))).
Proof.
  induction targets as [|cp targets IH]; intros fs l; cbn [for_each].
  - apply shrinks_refl.
  - unfold bind.
    pose proof (clean_category_shrinks cp fs l) as Ht.
    destruct (clean_category_run cp fs l) as [fs1 [f1 [e1 [i1 E]]]].
    rewrite E in *. cbn [fst] in Ht.
    eapply shrinks_trans; [exact Ht|apply IH].
Qed.

(** A clean pass only removes. *)
Lemma generate_from_shrinks OS h targets fs :
  shrinks fs (fst (fst (run_generator (generate_from OS h targets) fs))).
Proof.
  unfold run_generator, generate_from, bind.
  pose proof (for_each_categories_shrinks targets fs gen_init) as Ht.
  destruct (for_each_categories_run targets fs gen_init)
    as [fs' [f [e [i [cats [E _]]]]]].
  rewrite E in *. cbn [fst] in Ht.
  match goal with
  | |- context [maintenance_phase OS h ?s] =>
      destruct (maintenance_phase_run OS h s) as [maint [E' _]]
  end.
  rewrite E'. exact Ht.
Qed.

(** X13.  Cleaning only removes.  On a file system whose directories
    hold distinct names, after [force_remove] of any path, after
    [clean_directory_contents] of any directory, and after a whole clean
    pass over any catalog: the names are still distinct; every path that
    names something named it before, a file where it was a file and a
    directory where it was a directory; and no path measures more for
    [get_dir_size] than it did. *)
Theorem cleaning_only_removes fs :
  unique_names fs = true ->
  (forall p, nothing_added fs (fst (force_remove p fs)))
  /\ (forall d b, nothing_added fs (fst (clean_directory_contents d b fs)))
  /\ (forall OS h targets,
         nothing_added
           fs (fst (fst (run_generator (generate_from OS h targets) fs)))).
Proof.
  intro Hu. split; [|split]; intros; apply shrinks_observed; trivial.
  - apply force_remove_shrinks.
  - apply clean_directory_contents_shrinks.
  - apply generate_from_shrinks.
Qed.

Lemma cleaning_only_removes_witness :
  nothing_added busy_fs (fst (force_remove ["tmp"; "x"; "busy"] busy_fs))
  /\ nothing_added busy_fs
       (fst (clean_directory_contents ["tmp"; "x"] true busy_fs))
  /\ nothing_added busy_fs
       (fst (fst (run_generator
                    (generate_from "Linux" host_ok scenario_catalog)
                    busy_fs))).
Proof.
  destruct (cleaning_only_removes busy_fs eq_refl) as [H1 [H2 H3]].
  split; [apply H1|split; [apply H2|apply H3]].
Defined.

Lemma category_size_nothing_added fs fs' ps :
  nothing_added fs fs' -> category_size fs' ps <= category_size fs ps.
Proof.
  intros [_ H]. induction ps as [|p ps IH];
    cbn [category_size fold_right]; [reflexivity|].
  fold (category_size fs ps). fold (category_size fs' ps).
  destruct (H p) as [_ [He [_ [_ Hs]]]].
  destruct (exists_ fs' p).
  - rewrite (He eq_refl). lia.
  - destruct (exists_ fs p); lia.
Qed.

Lemma has_existing_path_nothing_added fs fs' ps :
  nothing_added fs fs' ->
  has_existing_path fs' ps = true -> has_existing_path fs ps = true.
Proof.
  intros [_ H]. unfold has_existing_path. rewrite !existsb_exists.
  intros [p [Hin He]]. exists p. split; [exact Hin|]. apply H, He.
Qed.

Lemma included_nothing_added fs fs' targets :
  nothing_added fs fs' ->
  sum_sizes (included fs' targets) <= sum_sizes (included fs targets)
  /\ forall r', In r' (included fs' targets) ->
       exists r, In r (included fs targets)
                 /\ category r = category r' /\ paths r = paths r'
                 /\ size r' <= size r.
Proof.
  intro Hn. unfold included, sum_sizes.
  induction targets as [|cp targets [IH1 IH2]]; cbn [filter map fold_right].
  - split; [reflexivity|]. intros r' [].
  - pose proof (category_size_nothing_added fs fs' (snd cp) Hn) as Hs.
    pose proof (has_existing_path_nothing_added fs fs' (snd cp) Hn) as He.
    destruct (has_existing_path fs' (snd cp)).
    + rewrite (He eq_refl). cbn [map fold_right size]. split; [lia|].
      intros r' [E|Hin].
      * subst r'. eexists. split; [left; reflexivity|].
        cbn [category paths size]. auto.
      * destruct (IH2 r' Hin) as [r [Hr Hp]]. exists r.
        split; [right; exact Hr|exact Hp].
    + destruct (has_existing_path fs (snd cp)); cbn [map fold_right size].
      * split; [lia|]. intros r' Hin.
        destruct (IH2 r' Hin) as [r [Hr Hp]]. exists r.
        split; [right; exact Hr|exact Hp].
      * split; [exact IH1|exact IH2].
Qed.

(** X14.  A scan after a clean pass reports no more than a scan before
    it.  On a file system whose directories hold distinct names, with
    one catalog for the two scans (the catalog the pass cleaned, or any
    other): the grand total after the pass is at most the grand total
    before it, and every category reported after the pass was reported
    before it, with the same paths and a size at least as large. *)
Theorem scan_after_clean_reports_no_more OS h cleaned scanned fs :
  unique_names fs = true ->
  let fs' := fst (fst (run_generator (generate_from OS h cleaned) fs)) in
  total (scan_from OS scanned fs') <= total (scan_from OS scanned fs)
  /\ forall r', In r' (categories (scan_from OS scanned fs')) ->
       exists r, In r (categories (scan_from OS scanned fs))
                 /\ category r = category r' /\ paths r = paths r'
                 /\ size r' <= size r.
Proof.
  intros Hu fs'.
  assert (Hn : nothing_added fs fs')
    by (apply shrinks_observed; [apply generate_from_shrinks|exact Hu]).
  destruct (included_nothing_added fs fs' scanned Hn) as [H1 H2].
  unfold scan_from. rewrite !scan_loop_spec. cbn [categories total fst snd].
  split; [exact H1|]. intros r' Hin.
  destruct (H2 r') as [r [Hr Hp]].
  - eapply Permutation_in; [apply sort_reverse_perm|exact Hin].
  - exists r. split; [|exact Hp].
    eapply Permutation_in; [apply Permutation_sym, sort_reverse_perm|].
    exact Hr.
Qed.

Lemma scan_after_clean_reports_no_more_witness :
  total (scan_from "Linux" scenario_catalog
           (fst (fst (run_generator
                        (generate_from "Linux" host_ok scenario_catalog)
                        busy_fs))))
  <= total (scan_from "Linux" scenario_catalog busy_fs).
Proof.
  exact (proj1 (scan_after_clean_reports_no_more
                  "Linux" host_ok scenario_catalog scenario_catalog
                  busy_fs eq_refl)).
Defined.

(** ** What a clean pass leaves alone *)

Lemma touched_gone ps fs fs' :
  touched ps fs fs' ->
  forall q, lstat fs q <> None -> lstat fs' q = None ->
            exists p, In p ps /\ strictly_inside p q.
Proof.
  induction 1 as [|fs fs1 fs2 p Hp _ IH Hb]; intros q Hq Hq'.
  - contradiction.
  - destruct (lstat fs1 q) as [n|] eqn:E.
    + exists p. split; [exact Hp|].
      apply (below_gone p fs1 fs2 Hb q); [congruence|exact Hq'].
    + apply IH; assumption.
Qed.

Lemma touched_off_path ps fs fs' :
  touched ps fs fs' ->
  forall q,
    (forall p, In p ps ->
               exists l x y r1 r2,
                 x <> y /\ p = l ++ x :: r1 /\ q = l ++ y :: r2) ->
    lstat fs' q = lstat fs q.
Proof.
  induction 1 as [|fs fs1 fs2 p Hp _ IH Hb]; intros q Hq; [reflexivity|].
  rewrite <- (IH q Hq).
  destruct (Hq p Hp) as [l [x [y [r1 [r2 [Hxy [Ep Eq]]]]]]]. subst q.
  apply (below_off_path p fs1 fs2 Hb l x y r1 r2 Hxy Ep).
Qed.



(** * The installer *)

(** X16.  [check_python] lets the installer go on exactly from Python
    3.8: it returns [True] when the version is 3.8 or later, whatever
    the micro version, the release level and the serial, and it exits
    with status 1 for every earlier version; the comparison of the
    version with [(3, 8)] never meets the release level, so it never
    fails. *)
Theorem check_python_from_3_8 v :
  (check_python v = Returns true
   <-> 3 < major v \/ (major v = 3 /\ 8 <= minor v))
  /\ (check_python v = Stops (SystemExit 1)
      <-> major v < 3 \/ (major v = 3 /\ minor v < 8)).
Proof.
  unfold check_python, version_tuple, die.
  cbn [tuple_ltb val_eqb val_ltb].
  destruct (N.eqb_spec (major v) 3) as [E3|E3].
  - destruct (N.eqb_spec (minor v) 8) as [E8|E8].
    + split; split; try discriminate; try (intros _; right; lia); intro H.
      * reflexivity.
      * lia.
    + destruct (N.ltb_spec (minor v) 8) as [L|L]; split; split;
        try discriminate; try reflexivity; intro H; try lia;
        try (right; lia); try reflexivity.
  - destruct (N.ltb_spec (major v) 3) as [L|L]; split; split;
      try discriminate; try reflexivity; intro H; try lia;
      try (left; lia); try reflexivity.
Qed.

Lemma ask_default_n line :
  ask "n" line
  = String.eqb (lower (strip line)) "y"
    || String.eqb (lower (strip line)) "yes".
Proof.
  unfold ask. destruct (String.eqb_spec (lower (strip line)) "") as [E|E].
  - rewrite E. reflexivity.
  - reflexivity.
Qed.

(** X17.  When the installation directory already holds [app.py],
    [download_and_extract] asks [Re-download?] and does the opposite of
    the answer.  On the answer [y] or [yes] (in any letter case, with
    blanks around it) it returns at once: nothing is downloaded, and the
    file system is as it was.  On any other answer, the empty line
    included, it removes the installation directory with
    [shutil.rmtree(install_dir, ignore_errors=True)] and goes on to the
    download. *)
Theorem download_and_extract_existing_installation
        {X} (fetch : path -> installer X -> installer X * outcome unit)
        install_dir (w : installer X) line rest :
  exists_ (disk w) (install_dir ++ ["app.py"]) = true ->
  stdin w = line :: rest ->
  let answer := lower (strip line) in
  ((answer = "y" \/ answer = "yes") ->
   download_and_extract fetch install_dir w
   = (mkInstaller (disk w) rest (beyond w), Returns tt))
  /\ (answer <> "y" -> answer <> "yes" ->
      download_and_extract fetch install_dir w
      = fetch install_dir
              (mkInstaller
                 (fst (shutil_rmtree install_dir ignore_errors (disk w)))
                 rest (beyond w))).
Proof.
  intros He Hs answer. unfold download_and_extract, input.
  rewrite He, Hs, ask_default_n. fold answer. cbn [disk stdin beyond].
  split.
  - intros [E|E]; rewrite E; reflexivity.
  - intros Hy Hyes.
    destruct (String.eqb_spec answer "y") as [E|_]; [contradiction|].
    destruct (String.eqb_spec answer "yes") as [E|_]; [contradiction|].
    reflexivity.
Qed.

Lemma download_and_extract_existing_installation_witness :
  download_and_extract (fun _ w => (w, Returns tt)) ["opt"; "cs"]
                       answers_yes
  = (mkInstaller installed_fs [] tt, Returns tt)
  /\ download_and_extract (fun _ w => (w, Returns tt)) ["opt"; "cs"]
                          (mkInstaller installed_fs [""] tt)
     = (mkInstaller (Dir rw [("opt", Dir rw [])]) [] tt, Returns tt).
Proof.
  split.
  - apply (proj1 (download_and_extract_existing_installation
                    (fun _ w => (w, Returns tt)) ["opt"; "cs"]
                    answers_yes " Y " [] eq_refl eq_refl)).
    left. reflexivity.
  - apply (proj2 (download_and_extract_existing_installation
                    (fun _ w => (w, Returns tt)) ["opt"; "cs"]
                    (mkInstaller installed_fs [""] tt) "" []
                    eq_refl eq_refl)); discriminate.
Defined.

(** * What is reported as freed *)

Lemma set_entry_size k f es m :
  assoc k es = Some m ->
  fold_left add_entry es 0
  + match f m with Some m' => add_entry 0 (k, m') | None => 0 end
  = fold_left add_entry (set_entry k f es) 0 + add_entry 0 (k, m).
Proof.
  induction es as [|[k0 m0] es IH]; cbn [assoc set_entry]; [discriminate|].
  destruct (String.eqb k0 k).
  - intro E. inversion E; subst m0. cbn [fold_left].
    rewrite (fold_left_add_entry es (add_entry 0 (k0, m))).
    replace (add_entry 0 (k0, m)) with (add_entry 0 (k, m)) by reflexivity.
    destruct (f m) as [m'|]; [|lia].
    cbn [fold_left].
    rewrite (fold_left_add_entry es (add_entry 0 (k0, m'))).
    replace (add_entry 0 (k0, m')) with (add_entry 0 (k, m'))
      by reflexivity.
    lia.
  - intro E. specialize (IH E). cbn [fold_left].
    rewrite (fold_left_add_entry es (add_entry 0 (k0, m0))).
    rewrite (fold_left_add_entry (set_entry k f es)
                                 (add_entry 0 (k0, m0))).
    lia.
Qed.

(** The size of a directory before and after one of its entries is
    replaced or removed. *)
Lemma update_entry_size d k fs m r :
  lstat fs (d ++ [k]) = Some m ->
  (forall m', r = Some m' -> add_entry 0 (k, m') <= add_entry 0 (k, m)) ->
  get_dir_size_path fs d
  + match r with Some m' => add_entry 0 (k, m') | None => 0 end
  <= get_dir_size_path (update_fs (d ++ [k]) (fun _ => r) fs) d
     + add_entry 0 (k, m).
Proof.
  intros Hl Hr. unfold get_dir_size_path.
  rewrite lstat_update_above. rewrite lstat_app in Hl.
  destruct (lstat fs d) as [n|]; [|discriminate]. cbn [option_map].
  cbn [lstat] in Hl.
  rewrite (get_dir_size_follow n).
  rewrite (get_dir_size_follow (on_target _ n)), follow_on_target.
  destruct (follow n) as [[a s|a es|t|a]|]; try discriminate.
  cbn [option_map in_dir]. rewrite !get_dir_size_dir.
  destruct (assoc k es) as [x|] eqn:Ha; [|discriminate].
  cbn [lstat] in Hl. inversion Hl; subst x.
  destruct (readable a).
  - pose proof (set_entry_size k (update [] (fun _ => r)) es m Ha) as H.
    cbn [update] in H |- *. lia.
  - destruct r as [m'|]; [specialize (Hr m' eq_refl)|]; lia.
Qed.

Lemma chmod_write_entry_size k n n' :
  chmod_write n = Ok n' -> add_entry 0 (k, n') = add_entry 0 (k, n).
Proof.
  destruct n as [a s|a es|[t|]|a]; cbn [chmod_write];
    try destruct (locked a); try discriminate;
    try (intro E; inversion E; subst; reflexivity).
  destruct (chmod_write t); [|discriminate].
  intro E. inversion E; subst. reflexivity.
Qed.

Lemma shrinks_entry_size k n n' :
  shrinks n n' -> add_entry 0 (k, n') <= add_entry 0 (k, n).
Proof. intro H. apply add_entry_shrinks; [exact H|apply shrinks_size, H]. Qed.

(** What [force_remove] takes from the size of the directory that holds
    the entry: nothing when it answers [False], no more than the entry
    counted for when it answers [True]. *)
Lemma force_remove_entry_size d k fs fs' ok :
  force_remove (d ++ [k]) fs = (fs', Ok ok) ->
  get_dir_size_path fs d
  <= get_dir_size_path fs' d
     + (if ok then
          match lstat fs (d ++ [k]) with
          | Some m => add_entry 0 (k, m)
          | None => 0
          end
        else 0).
Proof.
  rewrite force_remove_eq.
  destruct (is_file fs (d ++ [k]) || is_symlink fs (d ++ [k])).
  - unfold os_chmod_S_IWRITE, os_remove, run_op.
    destruct (lstat fs (d ++ [k])) as [m|] eqn:Hl;
      [|intro E; inversion E; subst; lia].
    unfold chmod. destruct (chmod_write m) as [m1|e] eqn:Hc;
      [|intro E; inversion E; subst; lia].
    pose proof (chmod_write_entry_size k m m1 Hc) as Hk.
    assert (H1 : get_dir_size_path fs d
                 <= get_dir_size_path
                      (update_fs (d ++ [k]) (fun _ => Some m1) fs) d).
    { pose proof (update_entry_size d k fs m (Some m1) Hl) as H1.
      cbn beta iota in H1.
      assert (Hle : forall m', Some m1 = Some m' ->
                               add_entry 0 (k, m') <= add_entry 0 (k, m))
        by (intros m' E; inversion E; subst; lia).
      specialize (H1 Hle). lia. }
    rewrite (lstat_update_some (d ++ [k]) fs (fun _ => Some m1) m m1 Hl
                               eq_refl).
    destruct (unlink m1) as [r|e] eqn:Hu;
      [|intro E; inversion E; subst; lia].
    pose proof (unlink_inert m1) as Hi.
    pose proof (lstat_update_some (d ++ [k]) fs (fun _ => Some m1) m m1
                                  Hl eq_refl) as Hl1.
    pose proof (update_entry_size
                  d k (update_fs (d ++ [k]) (fun _ => Some m1) fs)
                  m1 r Hl1) as H2.
    destruct r as [m2|]; cbn beta iota in H2.
    + specialize (Hi m2 Hu). subst m2.
      intro E. inversion E; subst.
      assert (Hle : forall m', Some m1 = Some m' ->
                               add_entry 0 (k, m') <= add_entry 0 (k, m1))
        by (intros m' E'; inversion E'; subst; lia).
      specialize (H2 Hle). lia.
    + intro E. inversion E; subst.
      assert (Hle : forall m', @None node = Some m' ->
                               add_entry 0 (k, m') <= add_entry 0 (k, m1))
        by discriminate.
      specialize (H2 Hle). lia.
  - destruct (is_dir fs (d ++ [k])); [|intro E; inversion E; subst; lia].
    unfold shutil_rmtree.
    destruct (lstat fs (d ++ [k])) as [m|] eqn:Hl;
      intro E; inversion E; subst; cbn [fst]; [|lia].
    pose proof (update_entry_size d k fs m (rmtree onerror m) Hl) as H.
    assert (Hr : forall m', rmtree onerror m = Some m' ->
                            add_entry 0 (k, m') <= add_entry 0 (k, m))
      by (intros m' E'; apply shrinks_entry_size, rmtree_shrinks, E').
    specialize (H Hr). lia.
Qed.

Lemma clean_step_accounting d k b s :
  get_dir_size_path (fst s) d + freed (snd s)
  <= get_dir_size_path (fst (clean_step b s (d ++ [k]))) d
     + freed (snd (clean_step b s (d ++ [k]))).
Proof.
  unfold clean_step. destruct s as [fs c]. rewrite clean_item_eq.
  cbn [fst snd].
  destruct (force_remove_returns (d ++ [k]) fs) as [fs' [ok E]].
  pose proof (force_remove_entry_size d k fs fs' ok E) as H.
  rewrite E.
  destruct (is_dir fs (d ++ [k])) eqn:Hd.
  - destruct b; [|cbn [fst snd]; lia].
    destruct ok; cbn [fst snd removed failed freed]; [|lia].
    unfold get_dir_size_path in H |- *.
    unfold is_dir, stat in Hd.
    destruct (lstat fs (d ++ [k])) as [[a s|a es|t|a]|];
      try discriminate;
      unfold add_entry in H; cbn [snd entry_is_file entry_is_dir] in H;
      lia.
  - destruct (stat fs (d ++ [k])) as [n|] eqn:Hs;
      [|cbn [fst snd failed freed]; lia].
    destruct (is_file fs (d ++ [k])) eqn:Hf; [|cbn [fst snd]; lia].
    destruct ok; cbn [fst snd removed failed freed]; [|lia].
    unfold is_file in Hf. rewrite Hs in Hf. unfold stat in Hs.
    destruct (lstat fs (d ++ [k])) as [[a s|a es|t|a]|];
      cbn [follow] in Hs; try discriminate;
      unfold add_entry in H; cbn [snd entry_is_file entry_is_dir] in H.
    + inversion Hs; subst n. cbn [size_of] in *. lia.
    + inversion Hs; subst n. discriminate.
    + lia.
    + inversion Hs; subst n. discriminate.
Qed.

Lemma clean_loop_accounting d b names : forall s,
  get_dir_size_path (fst s) d + freed (snd s)
  <= get_dir_size_path
       (fst (fold_left (clean_step b) (map (fun k => d ++ [k]) names) s)) d
     + freed (snd (fold_left (clean_step b)
                             (map (fun k => d ++ [k]) names) s)).
Proof.
  induction names as [|k names IH]; intro s; cbn [map fold_left].
  - lia.
  - pose proof (clean_step_accounting d k b s).
    specialize (IH (clean_step b s (d ++ [k]))). lia.
Qed.


(** * Candidate paths inside candidate paths *)

Lemma category_size_ge fs ps p :
  In p ps -> exists_ fs p = true ->
  get_dir_size_path fs p <= category_size fs ps.
Proof.
  unfold category_size.
  induction ps as [|q ps IH]; cbn [In fold_right]; [contradiction|].
  intros [E|Hin] He.
  - subst q. rewrite He. lia.
  - specialize (IH Hin He). destruct (exists_ fs q); lia.
Qed.

Lemma included_ge fs targets c ps p :
  In (c, ps) targets -> In p ps -> exists_ fs p = true ->
  get_dir_size_path fs p <= sum_sizes (included fs targets).
Proof.
  intros Hin Hp He. unfold included, sum_sizes.
  induction targets as [|cp targets IH]; cbn [In] in Hin; [contradiction|].
  cbn [filter].
  destruct Hin as [E|Hin].
  - subst cp. cbn [snd].
    assert (Hx : has_existing_path fs ps = true)
      by (apply existsb_exists; exists p; auto).
    rewrite Hx. cbn [map fold_right size fst snd].
    pose proof (category_size_ge fs ps p Hp He). lia.
  - specialize (IH Hin).
    destruct (has_existing_path fs (snd cp)); cbn [map fold_right size];
      lia.
Qed.

Lemma included_head fs c p targets :
  exists_ fs p = true ->
  sum_sizes (included fs ((c, [p]) :: targets))
  = get_dir_size_path fs p + sum_sizes (included fs targets).
Proof.
  intro He. unfold included, sum_sizes, has_existing_path, category_size.
  cbn [filter snd existsb fold_right]. rewrite He.
  cbn [orb map fold_right size fst snd]. rewrite He. lia.
Qed.

Lemma assoc_entry_size k es m :
  assoc k es = Some m -> add_entry 0 (k, m) <= fold_left add_entry es 0.
Proof.
  induction es as [|[k0 m0] es IH]; cbn [assoc]; [discriminate|].
  cbn [fold_left]. rewrite (fold_left_add_entry es (add_entry 0 (k0, m0))).
  destruct (String.eqb k0 k).
  - intro E. inversion E; subst.
    replace (add_entry 0 (k, m)) with (add_entry 0 (k0, m)) by reflexivity.
    lia.
  - intro E. specialize (IH E). lia.
Qed.

(** A listable directory measures at least what a directory among its
    entries measures. *)
Lemma get_dir_size_path_child fs d k a es a' es' :
  stat fs d = Some (Dir a es) -> readable a = true ->
  assoc k es = Some (Dir a' es') ->
  lstat fs (d ++ [k]) = Some (Dir a' es')
  /\ exists_ fs d = true /\ exists_ fs (d ++ [k]) = true
  /\ get_dir_size_path fs (d ++ [k]) <= get_dir_size_path fs d.
Proof.
  intros Hs Hr Ha. unfold exists_, get_dir_size_path, stat in *.
  rewrite lstat_app.
  destruct (lstat fs d) as [n|]; [|discriminate].
  cbn [lstat]. rewrite Hs, Ha. cbn [follow].
  repeat split.
  rewrite (get_dir_size_follow n), Hs.
  rewrite (get_dir_size_dir a es), Hr.
  pose proof (assoc_entry_size k es (Dir a' es') Ha) as H.
  unfold add_entry at 1 in H.
  cbn [snd entry_is_file entry_is_dir] in H. lia.
Qed.

(** X19.  The scan counts nested candidate paths twice.  On Linux the
    directories [thumbnails], [google-chrome] and [pip] of [~/.cache]
    (on macOS [Firefox], [com.apple.Safari] and [pip] of
    [~/Library/Caches]) are candidate paths of categories of their own,
    and [~/.cache] is the candidate path of [User Cache]: when the cache
    directory can be listed and holds such a directory, the grand total
    of the scan is at least twice what that directory measures. *)
Theorem scan_counts_nested_caches_twice OS env fs sub a es a' es' :
  OS <> "Windows" ->
  In sub (snd (nested_caches OS env)) ->
  stat fs (fst (nested_caches OS env)) = Some (Dir a es) ->
  readable a = true ->
  assoc sub es = Some (Dir a' es') ->
  2 * get_dir_size_path fs (fst (nested_caches OS env) ++ [sub])
  <= total (scan OS env fs).
Proof.
  intros Hw Hsub Hs Hr Ha.
  destruct (get_dir_size_path_child fs _ sub a es a' es' Hs Hr Ha)
    as [_ [He [He' Hle]]].
  unfold scan, scan_from. rewrite scan_loop_spec. cbn [total snd].
  unfold get_clean_targets, nested_caches in *.
  destruct (String.eqb_spec OS "Windows") as [E|_]; [contradiction|].
  destruct (String.eqb OS "Darwin"); cbn [fst snd] in *;
    rewrite included_head by exact He;
    rewrite <- app_assoc in He', Hle |- *; cbn [app] in He', Hle |- *;
    match goal with
    | |- _ <= _ + sum_sizes (included fs ?rest) =>
        match type of He' with
        | exists_ fs ?p = true =>
            assert (Hin : exists c ps, In (c, ps) rest /\ In p ps)
        end
    end.
  - destruct Hsub as [E|[E|[E|[]]]]; subst sub; do 2 eexists;
      (split; [in_list|left; reflexivity]).
  - destruct Hin as [c [ps [Hin Hp]]].
    pose proof (included_ge fs _ c ps _ Hin Hp He'). lia.
  - destruct Hsub as [E|[E|[E|[]]]]; subst sub; do 2 eexists;
      (split; [in_list|left; reflexivity]).
  - destruct Hin as [c [ps [Hin Hp]]].
    pose proof (included_ge fs _ c ps _ Hin Hp He'). lia.
Qed.

Lemma scan_counts_nested_caches_twice_witness :
  2 * get_dir_size_path pip_fs ["home"; "u"; ".cache"; "pip"]
  <= total (scan "Linux" linux_user pip_fs).
Proof.
  apply (scan_counts_nested_caches_twice
           "Linux" linux_user pip_fs "pip" rw pip_cache rw
           [("w.whl", File rw 1000)]);
    [discriminate|in_list|reflexivity|reflexivity|reflexivity].
Defined.
